(** * face-age-recognition: the descriptor store of [app.js]

    A shallow embedding of [src/app.js]: the persistence pair
    [saveDB]/[loadDB], the matcher rebuild [makeFaceMatcherFromStorage],
    registration, clear, export and import of the labelled-descriptor
    database, the detection options, model loading, the camera switch
    and one tick of the render loop.

    Platform services are modelled concretely where the program's
    behaviour depends on them:
    - [JSON.stringify]/[JSON.parse] as a printer and a recursive-descent
      parser over characters;
    - [localStorage] as a finite map from keys to strings;
    - property access on the objects [JSON.parse] returns, including the
      members every plain object inherits from [Object.prototype].
    The face-analysis library is a collaborator: its detectors and its
    nearest-match search are section variables, its option and matcher
    objects are records that keep the constructor arguments.

    Each entry point runs to completion from the state it is started in:
    what other handlers may do while an [async] function waits is not
    modelled.  Also outside the model: the storage quota, the sizes and
    styles of the canvas, the checks the library makes on the arguments
    of its constructors, and the place integer-like names take in the
    key order of an object (names are kept in insertion order). *)

From Stdlib Require Import ZArith QArith Qpower Ascii String List Bool Lia.
From stdpp Require Import base option list strings gmap.

Local Open Scope Z_scope.

(** ** Characters and text

    JavaScript strings are modelled by [string]; each character stands
    for one code unit in the range 0..255.  Program text that is scanned
    (JSON documents, numeric input fields) is handled as [list ascii]. *)

Module Chars.

Definition text := list ascii.

Definition dquote : ascii := Eval cbv in ascii_of_nat 34.
Definition backslash : ascii := Eval cbv in ascii_of_nat 92.

Definition code (c : ascii) : Z := Z.of_N (N_of_ascii c).

Definition is_digit (c : ascii) : bool :=
  (48 <=? code c) && (code c <=? 57).

Definition digit_val (c : ascii) : Z := code c - 48.

Definition digit_char (d : Z) : ascii := ascii_of_N (Z.to_N (48 + d)).

Definition zero_char : ascii := "0"%char.

Definition is_zero (c : ascii) : bool := Ascii.eqb c zero_char.

(** The longest prefix of decimal digits, and what follows it. *)
Fixpoint span_digits (s : text) : text * text :=
  match s with
  | c :: r =>
      if is_digit c then let '(ds, r') := span_digits r in (c :: ds, r')
      else ([], s)
  | [] => ([], [])
  end.

(** Value of a digit sequence, most significant digit first. *)
Definition digits_val (ds : text) : Z :=
  fold_left (fun acc c => 10 * acc + digit_val c) ds 0.

(** Decimal digits of a non-negative integer, least significant first. *)
Fixpoint digits_rev (fuel : nat) (n : Z) : text :=
  match fuel with
  | O => []
  | S f =>
      if n <? 10 then [digit_char n]
      else digit_char (n mod 10) :: digits_rev f (n / 10)
  end.

(** Decimal numeral of a non-negative integer, without leading zeros. *)
Definition decimal (n : Z) : text :=
  rev (digits_rev (S (Z.to_nat (Z.log2 n))) n).

(** WhiteSpace and LineTerminator code units below 256, the ones
    [String.prototype.trim] strips: TAB, LF, VT, FF, CR, SP, NBSP. *)
Definition is_js_space (c : ascii) : bool :=
  let n := code c in
  ((9 <=? n) && (n <=? 13)) || (n =? 32) || (n =? 160).

(** JSON insignificant whitespace: TAB, LF, CR, SP. *)
Definition is_json_ws (c : ascii) : bool :=
  let n := code c in
  (n =? 9) || (n =? 10) || (n =? 13) || (n =? 32).

Fixpoint drop_while (p : ascii -> bool) (s : text) : text :=
  match s with
  | c :: r => if p c then drop_while p r else s
  | [] => []
  end.

Definition trim_text (s : text) : text :=
  rev (drop_while is_js_space (rev (drop_while is_js_space s))).

(** [String.prototype.trim]. *)
Definition trim (s : string) : string :=
  string_of_list_ascii (trim_text (list_ascii_of_string s)).

End Chars.

Import Chars.

(** ** Number values

    A finite non-zero Number is kept by the three integers of
    [Number::toString]: a sign, the decimal digits [s] (first and last
    digit non-zero, so that their count [k] is minimal) and the exponent
    [n], the value being [0.s * 10^n].  Distinct doubles have distinct
    shortest digit strings, ordered as the doubles are, so equality and
    order of finite Numbers are those of these decimals.  The two zeros
    are one value, as they are for [===] and for [JSON.stringify].
    Rounding to 53 bits is not modelled: every canonical decimal counts
    as a Number. *)

Module Num.

Inductive number :=
| NaN
| Infinity (neg : bool)
| Zero
| Dec (neg : bool) (ds : text) (n : Z).

Definition finite (x : number) : bool :=
  match x with NaN | Infinity _ => false | _ => true end.

Definition last_nonzero (ds : text) : bool :=
  match rev ds with c :: _ => negb (is_zero c) | [] => false end.

Definition first_nonzero (ds : text) : bool :=
  match ds with c :: _ => negb (is_zero c) | [] => false end.

(** The digit string of a canonical decimal. *)
Definition canonical_digits (ds : text) : bool :=
  forallb is_digit ds && first_nonzero ds && last_nonzero ds.

Definition canonical (x : number) : bool :=
  match x with
  | Dec _ ds _ => canonical_digits ds
  | _ => true
  end.

(** [sign]: text of the exponent sign in scientific notation. *)
Definition exp_text (e : Z) : text :=
  (if 0 <=? e then "+"%char else "-"%char) :: decimal (Z.abs e).

(** [Number::toString] of a positive finite value [0.ds * 10^n]. *)
Definition positive_text (ds : text) (n : Z) : text :=
  let k := Z.of_nat (length ds) in
  if (k <=? n) && (n <=? 21) then
    ds ++ repeat zero_char (Z.to_nat (n - k))
  else if (0 <? n) && (n <=? 21) then
    take (Z.to_nat n) ds ++ "."%char :: drop (Z.to_nat n) ds
  else if (-6 <? n) && (n <=? 0) then
    zero_char :: "."%char :: repeat zero_char (Z.to_nat (- n)) ++ ds
  else
    match ds with
    | [d] => d :: "e"%char :: exp_text (n - 1)
    | d :: more => d :: "."%char :: more ++ "e"%char :: exp_text (n - 1)
    | [] => []
    end.

(** [Number::toString], radix 10. *)
Definition to_text (x : number) : text :=
  match x with
  | NaN => list_ascii_of_string "NaN"
  | Infinity false => list_ascii_of_string "Infinity"
  | Infinity true => list_ascii_of_string "-Infinity"
  | Zero => [zero_char]
  | Dec false ds n => positive_text ds n
  | Dec true ds n => "-"%char :: positive_text ds n
  end.

Fixpoint strip_leading (ds : text) (n : Z) : text * Z :=
  match ds with
  | c :: r => if is_zero c then strip_leading r (n - 1) else (ds, n)
  | [] => ([], n)
  end.

Definition strip_trailing (ds : text) : text :=
  rev (drop_while is_zero (rev ds)).

(** The Number denoted by the digits [ds] with the decimal point after
    the first [n] of them.  The digits are kept as they are: the
    rounding of a literal to a double, and its overflow to Infinity or
    underflow to zero, are not modelled. *)
Definition of_digits (neg : bool) (ds : text) (n : Z) : number :=
  let '(ds1, n1) := strip_leading ds n in
  match strip_trailing ds1 with
  | [] => Zero
  | ds2 => Dec neg ds2 n1
  end.

(** Optional exponent part [e|E, sign, digits] shared by the JSON number
    grammar and [parseFloat]; [None] when the digits are missing. *)
Definition scan_exponent (s : text) : option (Z * text) :=
  let '(neg, s1) :=
    match s with
    | c :: r =>
        if Ascii.eqb c "-"%char then (true, r)
        else if Ascii.eqb c "+"%char then (false, r)
        else (false, s)
    | [] => (false, s)
    end in
  match span_digits s1 with
  | ([], _) => None
  | (ds, r) => Some (if neg then - digits_val ds else digits_val ds, r)
  end.

Definition is_e (c : ascii) : bool := Ascii.eqb c "e"%char || Ascii.eqb c "E"%char.

(** Optional fraction: a point and at least one digit. *)
Definition scan_fraction (s : text) : option (text * text) :=
  match s with
  | p :: r =>
      if Ascii.eqb p "."%char then
        match span_digits r with
        | ([], _) => None
        | (fs, r') => Some (fs, r')
        end
      else Some ([], s)
  | [] => Some ([], s)
  end.

(** Optional exponent of a JSON number. *)
Definition scan_exponent_part (s : text) : option (Z * text) :=
  match s with
  | e :: r => if is_e e then scan_exponent r else Some (0, s)
  | [] => Some (0, s)
  end.

(** The unsigned part of a JSON number token: an integer part (a single
    0, or digits not starting with 0), an optional fraction and an
    optional exponent. *)
Definition scan_unsigned (neg : bool) (s1 : text) : option (number * text) :=
  let '(int, s2) := span_digits s1 in
  match int with
  | [] => None
  | c :: more =>
      if is_zero c && negb (Nat.eqb (length more) 0) then None
      else
        match scan_fraction s2 with
        | None => None
        | Some (fs, s3) =>
            match scan_exponent_part s3 with
            | None => None
            | Some (e, s4) =>
                Some (of_digits neg (int ++ fs) (Z.of_nat (length int) + e), s4)
            end
        end
  end.

(** A JSON number token at the head of [s], with its optional minus sign. *)
Definition scan_json_number (s : text) : option (number * text) :=
  match s with
  | c :: r => if Ascii.eqb c "-"%char then scan_unsigned true r else scan_unsigned false s
  | [] => None
  end.

(** Exact value of a finite Number. *)
Definition to_Q (x : number) : Q :=
  match x with
  | Dec neg ds n =>
      let m := digits_val ds in
      inject_Z (if neg then - m else m) * Qpower (10 # 1) (n - Z.of_nat (length ds))
  | _ => 0
  end.

(** Sign of the difference [x - y]; [None] when the difference is NaN. *)
Definition sub_sign (x y : number) : option comparison :=
  match x, y with
  | NaN, _ | _, NaN => None
  | Infinity a, Infinity b =>
      if Bool.eqb a b then None else Some (if a then Lt else Gt)
  | Infinity a, _ => Some (if a then Lt else Gt)
  | _, Infinity b => Some (if b then Gt else Lt)
  | _, _ => Some (to_Q x ?= to_Q y)%Q
  end.

(** ToBoolean of a Number: false for zero and NaN. *)
Definition truthy (x : number) : bool :=
  match x with NaN | Zero => false | _ => true end.

Fixpoint has_prefix (word s : text) : option text :=
  match word, s with
  | [], _ => Some s
  | w :: word', c :: r => if Ascii.eqb w c then has_prefix word' r else None
  | _ :: _, [] => None
  end.

Definition scan_sign (s : text) : bool * text :=
  match s with
  | c :: r =>
      if Ascii.eqb c "-"%char then (true, r)
      else if Ascii.eqb c "+"%char then (false, r)
      else (false, s)
  | [] => (false, s)
  end.

Definition is_hex_digit (c : ascii) : bool :=
  let n := code c in
  is_digit c || ((97 <=? n) && (n <=? 102)) || ((65 <=? n) && (n <=? 70)).

Definition hex_digit_val (c : ascii) : Z :=
  let n := code c in
  if is_digit c then n - 48 else if 97 <=? n then n - 87 else n - 55.

Fixpoint span_hex (s : text) : text * text :=
  match s with
  | c :: r =>
      if is_hex_digit c then let '(ds, r') := span_hex r in (c :: ds, r')
      else ([], s)
  | [] => ([], [])
  end.

(** [parseInt(s)] with no radix argument: leading white space, a sign,
    an optional [0x] prefix, then the longest run of digits; NaN when
    there is none.  The result is an integer Number. *)
Definition parseInt (s : string) : number :=
  let '(neg, s1) := scan_sign (drop_while is_js_space (list_ascii_of_string s)) in
  let hex :=
    match s1 with
    | z :: x :: r =>
        if is_zero z && (Ascii.eqb x "x"%char || Ascii.eqb x "X"%char)
        then Some r else None
    | _ => None
    end in
  match hex with
  | Some r =>
      match fst (span_hex r) with
      | [] => NaN
      | hs =>
          let ds := decimal (fold_left (fun acc c => 16 * acc + hex_digit_val c) hs 0) in
          of_digits neg ds (Z.of_nat (length ds))
      end
  | None =>
      match fst (span_digits s1) with
      | [] => NaN
      | ds => of_digits neg ds (Z.of_nat (length ds))
      end
  end.

(** [parseFloat(s)]: leading white space, then the longest prefix that
    is a StrDecimalLiteral; NaN when there is none. *)
Definition parseFloat (s : string) : number :=
  let '(neg, s1) := scan_sign (drop_while is_js_space (list_ascii_of_string s)) in
  match has_prefix (list_ascii_of_string "Infinity") s1 with
  | Some _ => Infinity neg
  | None =>
      let '(int, s2) := span_digits s1 in
      let '(fs, s3) :=
        match s2 with
        | p :: r => if Ascii.eqb p "."%char then span_digits r else ([], s2)
        | [] => ([], s2)
        end in
      match int ++ fs with
      | [] => NaN
      | ds =>
          let e :=
            match s3 with
            | c :: r =>
                if is_e c then
                  match scan_exponent r with Some (e, _) => e | None => 0 end
                else 0
            | [] => 0
            end in
          of_digits neg ds (Z.of_nat (length int) + e)
      end
  end.

(** The Number written by the decimal literal [s]; NaN if [s] is not one. *)
Definition of_literal (s : string) : number :=
  match scan_json_number (list_ascii_of_string s) with
  | Some (x, []) => x
  | _ => NaN
  end.

End Num.

Import Num.

(** ** JSON values, [JSON.stringify] and [JSON.parse]

    An object is the list of its own enumerable properties in
    enumeration order, which is taken to be insertion order (the rule
    that puts array-index keys first is not modelled; nothing below
    depends on the order).  A Number inside a value may be non-finite:
    such values arise from the detector, never from [JSON.parse]. *)

Module JSON.

#[local] Unset Elimination Schemes.

Inductive value :=
| JNull
| JBool (b : bool)
| JNum (x : number)
| JStr (s : string)
| JArr (items : list value)
| JObj (members : list (string * value)).

#[local] Set Elimination Schemes.

(** [CreateDataProperty]/[Set] on own properties: an existing key keeps
    its place and takes the new value, a new key goes last.  (An engine
    lists the names that are array indices first, in ascending order;
    this is not modelled, see [plain_name].) *)
Fixpoint obj_set (o : list (string * value)) (k : string) (v : value)
  : list (string * value) :=
  match o with
  | [] => [(k, v)]
  | (k', v') :: r =>
      if String.eqb k' k then (k', v) :: r else (k', v') :: obj_set r k v
  end.

(** Own property lookup. *)
Fixpoint obj_get (o : list (string * value)) (k : string) : option value :=
  match o with
  | [] => None
  | (k', v') :: r => if String.eqb k' k then Some v' else obj_get r k
  end.

Definition hex_char (d : Z) : ascii :=
  if d <? 10 then digit_char d else ascii_of_N (Z.to_N (87 + d)).

(** [QuoteJSONString] for one code unit. *)
Definition escape (c : ascii) : text :=
  let n := code c in
  if n =? 8 then [backslash; "b"%char]
  else if n =? 9 then [backslash; "t"%char]
  else if n =? 10 then [backslash; "n"%char]
  else if n =? 12 then [backslash; "f"%char]
  else if n =? 13 then [backslash; "r"%char]
  else if n =? 34 then [backslash; dquote]
  else if n =? 92 then [backslash; backslash]
  else if n <? 32 then
    [backslash; "u"%char; zero_char; zero_char; hex_char (n / 16); hex_char (n mod 16)]
  else [c].

Definition quote (s : string) : text :=
  dquote :: flat_map escape (list_ascii_of_string s) ++ [dquote].

(** [SerializeJSONProperty] without indentation. *)
Fixpoint print (v : value) : text :=
  match v with
  | JNull => list_ascii_of_string "null"
  | JBool true => list_ascii_of_string "true"
  | JBool false => list_ascii_of_string "false"
  | JNum x => if finite x then to_text x else list_ascii_of_string "null"
  | JStr s => quote s
  | JArr items =>
      "["%char ::
      (fix print_items (l : list value) : text :=
         match l with
         | [] => []
         | [x] => print x
         | x :: r => print x ++ ","%char :: print_items r
         end) items ++ ["]"%char]
  | JObj members =>
      "{"%char ::
      (fix print_members (l : list (string * value)) : text :=
         match l with
         | [] => []
         | [(k, x)] => quote k ++ ":"%char :: print x
         | (k, x) :: r => quote k ++ ":"%char :: print x ++ ","%char :: print_members r
         end) members ++ ["}"%char]
  end.

Definition skip_ws (s : text) : text := drop_while is_json_ws s.

Definition hex_val (c : ascii) : option Z :=
  let n := code c in
  if is_digit c then Some (n - 48)
  else if (97 <=? n) && (n <=? 102) then Some (n - 87)
  else if (65 <=? n) && (n <=? 70) then Some (n - 55)
  else None.

(** The characters of a string token up to its closing quote, escapes
    decoded.  A [\u] escape that denotes a code unit above 255 is
    accepted, as [JSON.parse] accepts it; such a unit has no counterpart
    in [string] and is read as a question mark. *)
Fixpoint scan_chars (s : text) : option (text * text) :=
  match s with
  | [] => None
  | c :: r =>
      if Ascii.eqb c dquote then Some ([], r)
      else if Ascii.eqb c backslash then
        match r with
        | [] => None
        | e :: r1 =>
            let simple (d : ascii) :=
              match scan_chars r1 with
              | Some (cs, r') => Some (d :: cs, r')
              | None => None
              end in
            if Ascii.eqb e dquote then simple dquote
            else if Ascii.eqb e backslash then simple backslash
            else if Ascii.eqb e "/"%char then simple "/"%char
            else if Ascii.eqb e "b"%char then simple (ascii_of_nat 8)
            else if Ascii.eqb e "f"%char then simple (ascii_of_nat 12)
            else if Ascii.eqb e "n"%char then simple (ascii_of_nat 10)
            else if Ascii.eqb e "r"%char then simple (ascii_of_nat 13)
            else if Ascii.eqb e "t"%char then simple (ascii_of_nat 9)
            else if Ascii.eqb e "u"%char then
              match r1 with
              | h1 :: h2 :: h3 :: h4 :: r2 =>
                  match hex_val h1, hex_val h2, hex_val h3, hex_val h4 with
                  | Some a, Some b, Some c', Some d =>
                      match scan_chars r2 with
                      | Some (cs, r') =>
                          Some ((if (a =? 0) && (b =? 0)
                                 then ascii_of_N (Z.to_N (16 * c' + d))
                                 else "?"%char) :: cs, r')
                      | None => None
                      end
                  | _, _, _, _ => None
                  end
              | _ => None
              end
            else None
        end
      else if code c <? 32 then None
      else
        match scan_chars r with
        | Some (cs, r') => Some (c :: cs, r')
        | None => None
        end
  end.

Fixpoint expect (word s : text) : option text :=
  match word, s with
  | [], _ => Some s
  | w :: word', c :: r => if Ascii.eqb w c then expect word' r else None
  | _ :: _, [] => None
  end.

Definition obj_of_members (ms : list (string * value)) : list (string * value) :=
  fold_left (fun o kv => obj_set o (fst kv) (snd kv)) ms [].

(** Recursive descent over [JSONValue]; [fuel] bounds the nesting of
    calls and never needs to exceed the length of the text. *)
Fixpoint parse_value (fuel : nat) (s : text) : option (value * text) :=
  match fuel with
  | O => None
  | S f =>
      match skip_ws s with
      | [] => None
      | c :: r =>
          if is_digit c || Ascii.eqb c "-"%char then
            match scan_json_number (c :: r) with
            | Some (x, r') => Some (JNum x, r')
            | None => None
            end
          else if Ascii.eqb c dquote then
            match scan_chars r with
            | Some (cs, r') => Some (JStr (string_of_list_ascii cs), r')
            | None => None
            end
          else if Ascii.eqb c "["%char then
            match skip_ws r with
            | c' :: r' =>
                if Ascii.eqb c' "]"%char then Some (JArr [], r')
                else
                  match parse_elements f r with
                  | Some (vs, r'') => Some (JArr vs, r'')
                  | None => None
                  end
            | [] => None
            end
          else if Ascii.eqb c "{"%char then
            match skip_ws r with
            | c' :: r' =>
                if Ascii.eqb c' "}"%char then Some (JObj [], r')
                else
                  match parse_members f r with
                  | Some (ms, r'') => Some (JObj (obj_of_members ms), r'')
                  | None => None
                  end
            | [] => None
            end
          else if Ascii.eqb c "t"%char then
            match expect (list_ascii_of_string "rue") r with
            | Some r' => Some (JBool true, r')
            | None => None
            end
          else if Ascii.eqb c "f"%char then
            match expect (list_ascii_of_string "alse") r with
            | Some r' => Some (JBool false, r')
            | None => None
            end
          else if Ascii.eqb c "n"%char then
            match expect (list_ascii_of_string "ull") r with
            | Some r' => Some (JNull, r')
            | None => None
            end
          else None
      end
  end
with parse_elements (fuel : nat) (s : text) : option (list value * text) :=
  match fuel with
  | O => None
  | S f =>
      match parse_value f s with
      | None => None
      | Some (v, r) =>
          match skip_ws r with
          | c :: r' =>
              if Ascii.eqb c ","%char then
                match parse_elements f r' with
                | Some (vs, r'') => Some (v :: vs, r'')
                | None => None
                end
              else if Ascii.eqb c "]"%char then Some ([v], r')
              else None
          | [] => None
          end
      end
  end
with parse_members (fuel : nat) (s : text) : option (list (string * value) * text) :=
  match fuel with
  | O => None
  | S f =>
      match skip_ws s with
      | q :: r0 =>
          if Ascii.eqb q dquote then
            match scan_chars r0 with
            | None => None
            | Some (k, r1) =>
                match skip_ws r1 with
                | colon :: r2 =>
                    if Ascii.eqb colon ":"%char then
                      match parse_value f r2 with
                      | None => None
                      | Some (v, r3) =>
                          match skip_ws r3 with
                          | c :: r4 =>
                              if Ascii.eqb c ","%char then
                                match parse_members f r4 with
                                | Some (ms, r5) =>
                                    Some ((string_of_list_ascii k, v) :: ms, r5)
                                | None => None
                                end
                              else if Ascii.eqb c "}"%char then
                                Some ([(string_of_list_ascii k, v)], r4)
                              else None
                          | [] => None
                          end
                      end
                    else None
                | [] => None
                end
            end
          else None
      | [] => None
      end
  end.

(** [JSON.stringify(v)] for a JSON-shaped [v]. *)
Definition stringify (v : value) : string := string_of_list_ascii (print v).

(** [JSON.parse(s)]; [None] stands for the SyntaxError it throws. *)
Definition parse (s : string) : option value :=
  let t := list_ascii_of_string s in
  match parse_value (S (length t)) t with
  | Some (v, r) => match skip_ws r with [] => Some v | _ :: _ => None end
  | None => None
  end.

(** What [JSON.stringify] makes of the values it cannot write: a
    non-finite Number becomes [null]. *)
Fixpoint sanitize (v : value) : value :=
  match v with
  | JNum x => if finite x then JNum x else JNull
  | JArr items => JArr (map sanitize items)
  | JObj members => JObj (map (fun kv => (fst kv, sanitize (snd kv))) members)
  | _ => v
  end.

Fixpoint distinct (ks : list string) : bool :=
  match ks with
  | [] => true
  | k :: r => negb (existsb (String.eqb k) r) && distinct r
  end.

(** Values as the engine holds them: canonical Numbers, and no key
    twice in an object. *)
Fixpoint well_formed (v : value) : bool :=
  match v with
  | JNum x => canonical x
  | JArr items => forallb well_formed items
  | JObj members =>
      distinct (map fst members) && forallb (fun kv => well_formed (snd kv)) members
  | _ => true
  end.

(** ToBoolean. *)
Definition truthy (v : value) : bool :=
  match v with
  | JNull => false
  | JBool b => b
  | JNum x => Num.truthy x
  | JStr s => negb (String.eqb s "")
  | JArr _ | JObj _ => true
  end.

End JSON.

Import JSON.

(** Documents in examples are written with an apostrophe where the JSON
    text has a double quote. *)
Definition doc (s : string) : string :=
  string_of_list_ascii
    (map (fun c => if Ascii.eqb c "'"%char then dquote else c) (list_ascii_of_string s)).

(** ** Property access on parsed values

    [db[label]] on a plain object finds own properties first and then
    the members of [Object.prototype].  Arrays and strings are read at
    their own index keys only; the rest of their behaviour (length, the
    built-in methods, writes to primitives) is outside the model and is
    reported as [OutOfModel], never guessed. *)

Module JS.

Inductive exn :=
| TypeError
| SyntaxError
| Error        (* any other exception: a failed fetch, a refused camera *)
| OutOfModel.

Inductive result (A : Type) :=
| Return (a : A)
| Throw (e : exn).
Arguments Return {A} a.
Arguments Throw {A} e.

(** The result of reading a property. *)
Inductive jsval :=
| Undefined
| Inherited        (* a member of Object.prototype: a function or an object *)
| Own (v : value).

(** Names that resolve on every plain object through its prototype. *)
Definition Object_prototype : list string :=
  ["constructor"; "__defineGetter__"; "__defineSetter__"; "hasOwnProperty";
   "__lookupGetter__"; "__lookupSetter__"; "isPrototypeOf";
   "propertyIsEnumerable"; "toString"; "valueOf"; "__proto__";
   "toLocaleString"].

Definition inherited (k : string) : bool := existsb (String.eqb k) Object_prototype.

(** A canonical array index: decimal digits without a leading zero. *)
Definition array_index (k : string) : option nat :=
  let t := list_ascii_of_string k in
  match t with
  | [] => None
  | c :: r =>
      if forallb is_digit t && (negb (is_zero c) || Nat.eqb (length r) 0)
      then Some (Z.to_nat (digits_val t)) else None
  end.

Definition index_key (i : nat) : string := string_of_list_ascii (decimal (Z.of_nat i)).

Definition is_truthy (x : jsval) : bool :=
  match x with
  | Undefined => false
  | Inherited => true
  | Own v => truthy v
  end.

(** [Object.keys(db)]. *)
Definition Object_keys (db : value) : result (list string) :=
  match db with
  | JNull => Throw TypeError
  | JBool _ | JNum _ => Return []
  | JStr s => Return (map index_key (seq 0 (length (list_ascii_of_string s))))
  | JArr items => Return (map index_key (seq 0 (length items)))
  | JObj members => Return (map fst members)
  end.

(** [db[k]]. *)
Definition get (db : value) (k : string) : result jsval :=
  match db with
  | JNull => Throw TypeError
  | JObj members =>
      match obj_get members k with
      | Some v => Return (Own v)
      | None => Return (if inherited k then Inherited else Undefined)
      end
  | JArr items =>
      match array_index k with
      | Some i =>
          match items !! i with
          | Some v => Return (Own v)
          | None => Throw OutOfModel
          end
      | None => Throw OutOfModel
      end
  | JStr s =>
      match array_index k with
      | Some i =>
          match list_ascii_of_string s !! i with
          | Some c => Return (Own (JStr (String c EmptyString)))
          | None => Throw OutOfModel
          end
      | None => Throw OutOfModel
      end
  | JBool _ | JNum _ => Throw OutOfModel
  end.

(** [db[k] = v]. *)
Definition set (db : value) (k : string) (v : value) : result value :=
  match db with
  | JNull => Throw TypeError
  | JObj members =>
      match obj_get members k with
      | Some _ => Return (JObj (obj_set members k v))
      | None =>
          (* the inherited [__proto__] is a setter: no own property is made *)
          if String.eqb k "__proto__" then Throw OutOfModel
          else Return (JObj (obj_set members k v))
      end
  | JArr items =>
      match array_index k with
      | Some i =>
          if Nat.ltb i (length items) then Return (JArr (<[i := v]> items))
          else Throw OutOfModel
      | None => Throw OutOfModel
      end
  | JStr _ | JBool _ | JNum _ => Throw OutOfModel
  end.

(** ToString, as [String.prototype.concat] applies it to its argument. *)
Fixpoint to_string (v : value) : text :=
  match v with
  | JNull => list_ascii_of_string "null"
  | JBool true => list_ascii_of_string "true"
  | JBool false => list_ascii_of_string "false"
  | JNum x => to_text x
  | JStr s => list_ascii_of_string s
  | JArr items =>
      (fix join (l : list value) : text :=
         match l with
         | [] => []
         | x :: r =>
             (match x with JNull => [] | _ => to_string x end) ++
             (match r with [] => [] | _ :: _ => ","%char :: join r end)
         end) items
  | JObj _ => list_ascii_of_string "[object Object]"
  end.

(** [x.concat(arg)] where [arg] is an array. *)
Definition concat (x : jsval) (arg : list value) : result value :=
  match x with
  | Own (JArr items) => Return (JArr (items ++ arg))
  | Own (JStr s) =>
      Return (JStr (s +:+ string_of_list_ascii (to_string (JArr arg))))
  | _ => Throw TypeError
  end.

(** [new Float32Array(d)], kept by its argument; the constructor is
    taken to return (it raises a RangeError for a length that is
    negative or too large). *)
Record Float32Array := { f32_of : value }.

(** [x.map(d => new Float32Array(d))]. *)
Definition map_Float32Array (x : jsval) : result (list Float32Array) :=
  match x with
  | Own (JArr items) => Return (map Build_Float32Array items)
  | _ => Throw TypeError
  end.

End JS.

Import JS.

(** ** The face-analysis library's objects *)

Module faceapi.

Inductive DetectorOptions :=
| TinyFaceDetectorOptions (params : option (number * number))  (* inputSize, scoreThreshold *)
| SsdMobilenetv1Options (minConfidence : number).

Record LabeledFaceDescriptors := {
  lfd_label : string;
  lfd_descriptors : list Float32Array
}.

Record FaceMatcher := {
  fm_inputs : list LabeledFaceDescriptors;
  fm_distanceThreshold : number
}.

Record Box := { box_x : number; box_y : number; box_width : number; box_height : number }.

Record Point := { pt_x : number; pt_y : number }.

(** One element of the result of
    [detectAllFaces(...).withFaceLandmarks().withFaceExpressions()
     .withAgeAndGender().withFaceDescriptors()], after [resizeResults]. *)
Record Detection := {
  det_box : Box;
  det_landmarks : list Point;
  det_expressions : option (list (string * number));
  det_age : number;
  det_gender : option string;
  det_genderProbability : number;
  det_descriptor : option (list number)
}.

Record BestMatch := { bm_label : string; bm_distance : number }.

End faceapi.

Import faceapi.

(** ** Application state *)

Record File := { file_name : string; file_text : string }.

(** Text shown in a status element; numeric formatting is kept symbolic. *)
Inductive shown :=
| Blank
| Dash
| ShownExpression (name : string) (score : number)   (* name (round(score*100)%) *)
| ShownAge (age : number)                            (* age.toFixed(0) *)
| ShownGender (gender : string) (probability : number).

Record Identification := { id_name : string; id_distance : number; id_box : Box }.

Inductive canvas_op :=
| ClearRect
| StrokeRect (b : Box)
| FillArc (p : Point)
| FillLabel (m : BestMatch) (b : Box)
| FillUnknown (b : Box).

(** Observable effects, in program order. *)
Inductive event :=
| Alert (msg : string)
| Confirm (msg : string)
| Warn (msg arg : string)
| GetItem (key : string)
| SetItem (key value : string)
| RemoveItem (key : string)
| DetectSingleFace (f : File) (o : DetectorOptions)
| DetectAllFaces (o : DetectorOptions)
| Canvas (op : canvas_op)
| Download (name content : string)
| RequestAnimationFrame
| LoadFromUri (net uri : string)
| GetUserMedia
| StopTracks
| OpenFileDialog
| ConsoleError.

(** The text of the models status element. *)
Inductive models_status := NotLoaded | Loading | Loaded | LoadFailed.

Record state := {
  localStorage : gmap string string;
  faceMatcher : option FaceMatcher;
  detectionOptions : option DetectorOptions;
  isModelsLoaded : bool;
  running : bool;
  detectionModelSelect : string;
  inputSizeEl : string;
  scoreThresholdEl : string;
  labelNameInput : string;
  labeledImagesInput : list File;
  dbCount : option nat;
  expressionsEl : shown;
  ageEl : shown;
  genderEl : shown;
  identifiedList : list Identification;
  modelsStatus : models_status;
  stream : bool                      (* a camera stream is held *)
}.

Definition with_localStorage (f : gmap string string -> gmap string string) (st : state) : state :=
  {| localStorage := f (localStorage st); faceMatcher := faceMatcher st;
     detectionOptions := detectionOptions st; isModelsLoaded := isModelsLoaded st;
     running := running st; detectionModelSelect := detectionModelSelect st;
     inputSizeEl := inputSizeEl st; scoreThresholdEl := scoreThresholdEl st;
     labelNameInput := labelNameInput st; labeledImagesInput := labeledImagesInput st;
     dbCount := dbCount st; expressionsEl := expressionsEl st; ageEl := ageEl st;
     genderEl := genderEl st; identifiedList := identifiedList st;
     modelsStatus := modelsStatus st; stream := stream st |}.

Definition with_matcher (count : nat) (m : option FaceMatcher) (st : state) : state :=
  {| localStorage := localStorage st; faceMatcher := m;
     detectionOptions := detectionOptions st; isModelsLoaded := isModelsLoaded st;
     running := running st; detectionModelSelect := detectionModelSelect st;
     inputSizeEl := inputSizeEl st; scoreThresholdEl := scoreThresholdEl st;
     labelNameInput := labelNameInput st; labeledImagesInput := labeledImagesInput st;
     dbCount := Some count; expressionsEl := expressionsEl st; ageEl := ageEl st;
     genderEl := genderEl st; identifiedList := identifiedList st;
     modelsStatus := modelsStatus st; stream := stream st |}.

Definition with_detectionOptions (o : DetectorOptions) (st : state) : state :=
  {| localStorage := localStorage st; faceMatcher := faceMatcher st;
     detectionOptions := Some o; isModelsLoaded := isModelsLoaded st;
     running := running st; detectionModelSelect := detectionModelSelect st;
     inputSizeEl := inputSizeEl st; scoreThresholdEl := scoreThresholdEl st;
     labelNameInput := labelNameInput st; labeledImagesInput := labeledImagesInput st;
     dbCount := dbCount st; expressionsEl := expressionsEl st; ageEl := ageEl st;
     genderEl := genderEl st; identifiedList := identifiedList st;
     modelsStatus := modelsStatus st; stream := stream st |}.

Definition with_registration_inputs (name : string) (files : list File) (st : state) : state :=
  {| localStorage := localStorage st; faceMatcher := faceMatcher st;
     detectionOptions := detectionOptions st; isModelsLoaded := isModelsLoaded st;
     running := running st; detectionModelSelect := detectionModelSelect st;
     inputSizeEl := inputSizeEl st; scoreThresholdEl := scoreThresholdEl st;
     labelNameInput := name; labeledImagesInput := files;
     dbCount := dbCount st; expressionsEl := expressionsEl st; ageEl := ageEl st;
     genderEl := genderEl st; identifiedList := identifiedList st;
     modelsStatus := modelsStatus st; stream := stream st |}.

Definition with_face_readout (e a g : shown) (st : state) : state :=
  {| localStorage := localStorage st; faceMatcher := faceMatcher st;
     detectionOptions := detectionOptions st; isModelsLoaded := isModelsLoaded st;
     running := running st; detectionModelSelect := detectionModelSelect st;
     inputSizeEl := inputSizeEl st; scoreThresholdEl := scoreThresholdEl st;
     labelNameInput := labelNameInput st; labeledImagesInput := labeledImagesInput st;
     dbCount := dbCount st; expressionsEl := e; ageEl := a;
     genderEl := g; identifiedList := identifiedList st;
     modelsStatus := modelsStatus st; stream := stream st |}.

Definition with_identifiedList (l : list Identification) (st : state) : state :=
  {| localStorage := localStorage st; faceMatcher := faceMatcher st;
     detectionOptions := detectionOptions st; isModelsLoaded := isModelsLoaded st;
     running := running st; detectionModelSelect := detectionModelSelect st;
     inputSizeEl := inputSizeEl st; scoreThresholdEl := scoreThresholdEl st;
     labelNameInput := labelNameInput st; labeledImagesInput := labeledImagesInput st;
     dbCount := dbCount st; expressionsEl := expressionsEl st; ageEl := ageEl st;
     genderEl := genderEl st; identifiedList := l;
     modelsStatus := modelsStatus st; stream := stream st |}.

Definition with_models (loaded : bool) (status : models_status) (st : state) : state :=
  {| localStorage := localStorage st; faceMatcher := faceMatcher st;
     detectionOptions := detectionOptions st; isModelsLoaded := loaded;
     running := running st; detectionModelSelect := detectionModelSelect st;
     inputSizeEl := inputSizeEl st; scoreThresholdEl := scoreThresholdEl st;
     labelNameInput := labelNameInput st; labeledImagesInput := labeledImagesInput st;
     dbCount := dbCount st; expressionsEl := expressionsEl st; ageEl := ageEl st;
     genderEl := genderEl st; identifiedList := identifiedList st;
     modelsStatus := status; stream := stream st |}.

Definition with_camera (run held : bool) (st : state) : state :=
  {| localStorage := localStorage st; faceMatcher := faceMatcher st;
     detectionOptions := detectionOptions st; isModelsLoaded := isModelsLoaded st;
     running := run; detectionModelSelect := detectionModelSelect st;
     inputSizeEl := inputSizeEl st; scoreThresholdEl := scoreThresholdEl st;
     labelNameInput := labelNameInput st; labeledImagesInput := labeledImagesInput st;
     dbCount := dbCount st; expressionsEl := expressionsEl st; ageEl := ageEl st;
     genderEl := genderEl st; identifiedList := identifiedList st;
     modelsStatus := modelsStatus st; stream := held |}.

(** ** Computations: state, thrown exceptions and the trace of effects *)

Definition M (A : Type) : Type := state -> result A * state * list event.

Definition ret {A} (a : A) : M A := fun st => (Return a, st, []).

Definition throw {A} (e : exn) : M A := fun st => (Throw e, st, []).

Definition bind {A B} (m : M A) (k : A -> M B) : M B :=
  fun st =>
    match m st with
    | (Return a, st1, tr1) =>
        let '(r, st2, tr2) := k a st1 in (r, st2, tr1 ++ tr2)
    | (Throw e, st1, tr1) => (Throw e, st1, tr1)
    end.

Definition lift {A} (r : result A) : M A := fun st => (r, st, []).

Definition emit (e : event) : M unit := fun st => (Return tt, st, [e]).

Definition read : M state := fun st => (Return st, st, []).

Definition update (f : state -> state) : M unit := fun st => (Return tt, f st, []).

(** [try { m } catch (e) { handler }]: effects made before the throw
    stay.  [OutOfModel] is not a JavaScript exception and passes through. *)
Definition try_catch {A} (m : M A) (handler : M A) : M A :=
  fun st =>
    match m st with
    | (Throw OutOfModel, st1, tr1) => (Throw OutOfModel, st1, tr1)
    | (Throw _, st1, tr1) =>
        let '(r, st2, tr2) := handler st1 in (r, st2, tr1 ++ tr2)
    | ok => ok
    end.

Declare Scope js_scope.
Delimit Scope js_scope with js.
Notation "x <- m ;; k" := (bind m (fun x => k))
  (at level 100, m at next level, right associativity) : js_scope.
Notation "m ;; k" := (bind m (fun _ => k))
  (at level 100, right associativity) : js_scope.
Local Open Scope js_scope.

(** [for (const x of l) body(x)], collecting what the body yields. *)
Fixpoint for_each {A B} (l : list A) (body : A -> M (option B)) : M (list B) :=
  match l with
  | [] => ret []
  | x :: r =>
      y <- body x ;;
      ys <- for_each r body ;;
      ret (match y with Some b => b :: ys | None => ys end)
  end.

(** ** [localStorage], [alert] *)

Definition LS_DB_KEY : string := "facelab_db_v1".

Definition localStorage_getItem (k : string) : M (option string) :=
  emit (GetItem k) ;; st <- read ;; ret (localStorage st !! k).

Definition localStorage_setItem (k v : string) : M unit :=
  emit (SetItem k v) ;; update (with_localStorage (insert k v)).

Definition localStorage_removeItem (k : string) : M unit :=
  emit (RemoveItem k) ;; update (with_localStorage (delete k)).

Definition alert (msg : string) : M unit := emit (Alert msg).

(** [JSON.parse] as a computation that throws. *)
Definition JSON_parse (s : string) : M value :=
  match parse s with
  | Some v => ret v
  | None => throw SyntaxError
  end.

(** [Array.prototype.sort(comparefn)].  The standard fixes the result for
    a consistent comparator: the stable sorted arrangement.  It is
    computed here by insertion from the right; [cmp a b] is the sign of
    [comparefn(a, b)], [None] for NaN, which counts as zero. *)
Fixpoint sort_insert {A} (cmp : A -> A -> option comparison) (x : A) (l : list A) : list A :=
  match l with
  | [] => [x]
  | y :: r =>
      match cmp x y with
      | Some Gt => y :: sort_insert cmp x r
      | _ => x :: y :: r
      end
  end.

Definition Array_sort {A} (cmp : A -> A -> option comparison) (l : list A) : list A :=
  foldr (sort_insert cmp) [] l.

Definition n0_5 : number := Eval cbv in of_literal "0.5".
Definition n0_6 : number := Eval cbv in of_literal "0.6".
Definition n320 : number := Eval cbv in of_literal "320".

(** ** The program *)

Section App.

(** [Array.from] of the descriptor that
    [faceapi.detectSingleFace(img, options).withFaceLandmarks()
     .withFaceDescriptor()] resolves to for the image in a file, [None]
    when it finds no face. *)
Variable detectSingleFace : File -> DetectorOptions -> option (list number).

(** [matcher.findBestMatch(descriptor)]. *)
Variable findBestMatch : FaceMatcher -> list number -> BestMatch.

(** app.js 247-249 *)
Definition saveDB (db : value) : M unit :=
  localStorage_setItem LS_DB_KEY (stringify db).

(** app.js 251-257 *)
Definition loadDB : M value :=
  try_catch
    (raw <- localStorage_getItem LS_DB_KEY ;;
     JSON_parse (match raw with
                 | Some s => if String.eqb s "" then "{}" else s
                 | None => "{}"
                 end))
    (ret (JObj [])).

(** app.js 260-272 *)
Definition makeFaceMatcherFromStorage : M unit :=
  db <- loadDB ;;
  keys <- lift (Object_keys db) ;;
  labeledDescriptors <-
    for_each keys (fun label =>
      descriptorArrays <- lift (get db label) ;;
      floatDescs <- lift (map_Float32Array descriptorArrays) ;;
      ret (Some {| lfd_label := label; lfd_descriptors := floatDescs |})) ;;
  let count := length labeledDescriptors in
  update (with_matcher count
            (match labeledDescriptors with
             | [] => None
             | _ :: _ =>
                 Some {| fm_inputs := labeledDescriptors; fm_distanceThreshold := n0_6 |}
             end)).

(** app.js 47-52: the nets [loadModels] fetches, in order. *)
Definition nets : list string :=
  ["tinyFaceDetector"; "ssdMobilenetv1"; "faceLandmark68Net"; "faceRecognitionNet";
   "ageGenderNet"; "faceExpressionNet"].

(** app.js 43-61; [available] tells whether the model files can be
    fetched from [/models]; when they cannot, the first fetch fails. *)
Definition loadModels (available : bool) : M unit :=
  st <- read ;;
  update (with_models (isModelsLoaded st) Loading) ;;
  try_catch
    (for_each (if available then nets else take 1 nets)
       (fun net => emit (LoadFromUri net "/models") ;; ret (@None unit)) ;;
     (if available then ret tt else throw Error) ;;
     update (with_models true Loaded) ;;
     makeFaceMatcherFromStorage)
    (emit ConsoleError ;;
     cur <- read ;;
     update (with_models (isModelsLoaded cur) LoadFailed)).

(** app.js 204-237 *)
Definition registerLabeledFaces : M unit :=
  st <- read ;;
  let files := labeledImagesInput st in
  let label := trim (labelNameInput st) in
  if String.eqb label "" then alert "Enter a name to register"
  else if Nat.eqb (length files) 0 then alert "Choose one or more images for this person"
  else if negb (isModelsLoaded st) then alert "Load models first"
  else
    descriptors <-
      for_each files (fun f =>
        let options := TinyFaceDetectorOptions None in
        emit (DetectSingleFace f options) ;;
        match detectSingleFace f options with
        | None => emit (Warn "No face found in" (file_name f)) ;; ret None
        | Some d => ret (Some (JArr (map JNum d)))
        end) ;;
    if Nat.eqb (length descriptors) 0 then
      alert "No faces detected in uploaded images. Try clearer photos."
    else
      db <- loadDB ;;
      old <- lift (get db label) ;;
      db1 <- (if is_truthy old then ret db else lift (set db label (JArr []))) ;;
      cur <- lift (get db1 label) ;;
      joined <- lift (concat cur descriptors) ;;
      db2 <- lift (set db1 label joined) ;;
      saveDB db2 ;;
      makeFaceMatcherFromStorage ;;
      alert "Registered ${descriptors.length} face(s) for ${label}" ;;
      update (with_registration_inputs "" []).

(** app.js 240-244; [confirmed] is the user's answer to the dialog. *)
Definition btnClearDB_click (confirmed : bool) : M unit :=
  emit (Confirm "Clear all registered faces?") ;;
  if negb confirmed then ret tt
  else
    localStorage_removeItem LS_DB_KEY ;;
    makeFaceMatcherFromStorage.

(** app.js 275-282 *)
Definition btnExport_click : M unit :=
  db <- loadDB ;;
  emit (Download "facelab_db.json" (stringify db)).

(** app.js 285-297; [files] is [ev.target.files]. *)
Definition importFileInput_change (files : list File) : M unit :=
  match files with
  | [] => ret tt
  | f :: _ =>
      let text := file_text f in
      try_catch
        (parsed <- JSON_parse text ;;
         localStorage_setItem LS_DB_KEY (stringify parsed) ;;
         makeFaceMatcherFromStorage ;;
         alert "Imported DB successfully")
        (alert "Invalid JSON file")
  end.

(** app.js 76-86 *)
Definition updateDetectionOptions : M unit :=
  st <- read ;;
  let model := detectionModelSelect st in
  let inputSize :=
    let n := parseInt (inputSizeEl st) in if Num.truthy n then n else n320 in
  let scoreThreshold :=
    let x := parseFloat (scoreThresholdEl st) in if Num.truthy x then x else n0_5 in
  if String.eqb model "tiny" then
    update (with_detectionOptions (TinyFaceDetectorOptions (Some (inputSize, scoreThreshold))))
  else
    update (with_detectionOptions (SsdMobilenetv1Options scoreThreshold)).

(** app.js 164: the entry selected among a face's expressions. *)
Definition maxExp (expr : list (string * number)) : option (string * number) :=
  head (Array_sort (fun a b => sub_sign (snd b) (snd a)) expr).

(** app.js 163-165: the text reported for a face's expressions. *)
Definition expression_text (det : Detection) : shown :=
  match maxExp (match det_expressions det with Some e => e | None => [] end) with
  | Some (name, score) => ShownExpression name score
  | None => Dash
  end.

(** app.js 119-200, one tick.  [detect o] is what the detector chain
    resolves to for the current video frame under the options [o],
    resized to the display. *)
Definition detectionLoop (detect : DetectorOptions -> list Detection) : M unit :=
  st <- read ;;
  if negb (running st) then ret tt
  else if negb (isModelsLoaded st) then emit RequestAnimationFrame
  else
    updateDetectionOptions ;;
    let options := SsdMobilenetv1Options n0_5 in
    emit (DetectAllFaces options) ;;
    let resized := detect options in
    emit (Canvas ClearRect) ;;
    identifications <-
      for_each resized (fun det =>
        let box := det_box det in
        emit (Canvas (StrokeRect box)) ;;
        for_each (det_landmarks det)
          (fun pt => emit (Canvas (FillArc pt)) ;; ret (@None unit)) ;;
        let expText := expression_text det in
        let ageVal := if Num.truthy (det_age det) then ShownAge (det_age det) else Dash in
        let genderVal :=
          match det_gender det with
          | Some g =>
              if String.eqb g "" then Dash
              else ShownGender g (det_genderProbability det)
          | None => Dash
          end in
        update (with_face_readout expText ageVal genderVal) ;;
        cur <- read ;;
        match faceMatcher cur, det_descriptor det with
        | Some matcher, Some descriptor =>
            let best := findBestMatch matcher descriptor in
            if negb (String.eqb (bm_label best) "unknown") then
              emit (Canvas (FillLabel best box)) ;;
              ret (Some {| id_name := bm_label best;
                           id_distance := bm_distance best;
                           id_box := box |})
            else
              emit (Canvas (FillUnknown box)) ;; ret None
        | _, _ => ret None
        end) ;;
    update (with_identifiedList identifications) ;;
    emit RequestAnimationFrame.

(** app.js 94-107; [camera] tells whether a video stream is granted;
    a granted stream is taken to play.  The call of [detectionLoop] runs
    the first tick. *)
Definition startVideo (camera : bool) (detect : DetectorOptions -> list Detection)
  : M unit :=
  try_catch
    (emit GetUserMedia ;;
     (if camera then ret tt else throw Error) ;;
     update (with_camera true true) ;;
     detectionLoop detect)
    (alert "Camera access denied or not available. Check permissions and that you are using https/http://localhost." ;;
     emit ConsoleError).

(** app.js 66-71 *)
Definition btnStart_click (available camera : bool)
    (detect : DetectorOptions -> list Detection) : M unit :=
  st <- read ;;
  (if negb (isModelsLoaded st) then loadModels available else ret tt) ;;
  startVideo camera detect.

(** app.js 109-116 *)
Definition stopVideo : M unit :=
  st <- read ;;
  update (with_camera false (stream st)) ;;
  (if stream st then emit StopTracks ;; update (with_camera false false) else ret tt) ;;
  emit (Canvas ClearRect).

(** The entry points of the program: the script's own start, its event
    listeners and the animation-frame callback. *)
Inductive action :=
| PageLoad (mediaDevices : bool)            (* app.js 92, 300-307 *)
| LoadModels (available : bool)             (* btnLoadModels click *)
| StartCamera (available camera : bool)
    (detect : DetectorOptions -> list Detection)   (* btnStart click *)
| StopCamera                                (* btnStop click *)
| OptionsChanged                            (* change of a detection control *)
| Register                                  (* btnRegister click *)
| ClearDB (confirmed : bool)                (* btnClearDB click *)
| Export                                    (* btnExport click *)
| ImportClick                               (* btnImport click *)
| Import (files : list File)                (* importFileInput change *)
| Tick (detect : DetectorOptions -> list Detection).  (* animation frame *)

Definition handle (a : action) : M unit :=
  match a with
  | PageLoad mediaDevices =>
      updateDetectionOptions ;;
      (if mediaDevices then ret tt
       else alert "Your browser does not support camera access. Use latest Chrome/Edge/Firefox/Safari.") ;;
      makeFaceMatcherFromStorage
  | LoadModels available => loadModels available
  | StartCamera available camera detect => btnStart_click available camera detect
  | StopCamera => stopVideo
  | OptionsChanged => updateDetectionOptions
  | Register => registerLabeledFaces
  | ClearDB confirmed => btnClearDB_click confirmed
  | Export => btnExport_click
  | ImportClick => emit OpenFileDialog
  | Import files => importFileInput_change files
  | Tick detect => detectionLoop detect
  end.

End App.

(** The state of a freshly opened page with nothing persisted. *)
Definition initial : state :=
  {| localStorage := ∅; faceMatcher := None; detectionOptions := None;
     isModelsLoaded := false; running := false;
     detectionModelSelect := "tiny"; inputSizeEl := "320"; scoreThresholdEl := "0.5";
     labelNameInput := ""; labeledImagesInput := [];
     dbCount := None; expressionsEl := Blank; ageEl := Blank; genderEl := Blank;
     identifiedList := []; modelsStatus := NotLoaded; stream := false |}.

(** ** Auxiliary notions for the parsing lemmas *)

Module Lex.

(** What may follow a number token without being read into it. *)
Definition stops (s : text) : bool :=
  match s with
  | [] => true
  | c :: _ => negb (is_digit c)
  end.

(** What follows a number token in a document: not a character that
    would extend it. *)
Definition delimited (s : text) : bool :=
  match s with
  | [] => true
  | c :: _ => negb (is_digit c) && negb (Ascii.eqb c "."%char) && negb (is_e c)
  end.

Definition print_items : list value -> text :=
  fix print_items (l : list value) : text :=
    match l with
    | [] => []
    | [x] => print x
    | x :: r => print x ++ ","%char :: print_items r
    end.

Definition print_members : list (string * value) -> text :=
  fix print_members (l : list (string * value)) : text :=
    match l with
    | [] => []
    | [(k, x)] => quote k ++ ":"%char :: print x
    | (k, x) :: r => quote k ++ ":"%char :: print x ++ ","%char :: print_members r
    end.

(** The first character of a printed value. *)
Definition value_start (c : ascii) : bool :=
  is_digit c || existsb (Ascii.eqb c)
    ["-"%char; dquote; "["%char; "{"%char; "t"%char; "f"%char; "n"%char].

(** What may follow a value in a document. *)
Definition closes (s : text) : bool :=
  match s with
  | [] => true
  | c :: _ => Ascii.eqb c ","%char || Ascii.eqb c "]"%char || Ascii.eqb c "}"%char
  end.

(** The property proved by induction: a printed value followed by a
    closing character is parsed back, given fuel for its length. *)
Definition reads_back (v : value) : Prop :=
  well_formed v = true ->
  forall (fuel : nat) (rest : text),
    (length (print v) <= fuel)%nat -> closes rest = true ->
    parse_value fuel (print v ++ rest) = Some (sanitize v, rest).

Definition sanitize_member (kv : string * value) : string * value :=
  (fst kv, sanitize (snd kv)).

End Lex.

Import Lex.

(** ** Notions the properties are stated with *)

(** A descriptor vector as persisted: an array of finite Numbers. *)
Definition is_descriptor (v : value) : bool :=
  match v with
  | JArr xs =>
      forallb (fun x => match x with
                        | JNum n => finite n && canonical n
                        | _ => false
                        end) xs
  | _ => false
  end.

(** A descriptor collection: an array of descriptor vectors. *)
Definition is_descriptor_collection (v : value) : bool :=
  match v with
  | JArr ds => forallb is_descriptor ds
  | _ => false
  end.

(** A well-formed store: an object that maps each name, once, to a
    descriptor collection. *)
Definition well_formed_store (S : value) : bool :=
  match S with
  | JObj members =>
      distinct (map fst members)
      && forallb (fun kv => is_descriptor_collection (snd kv)) members
  | _ => false
  end.

(** A value [JSON.parse] can return: well formed, all Numbers finite. *)
Fixpoint json_value (v : value) : bool :=
  match v with
  | JNum x => finite x && canonical x
  | JArr items => forallb json_value items
  | JObj members =>
      distinct (map fst members) && forallb (fun kv => json_value (snd kv)) members
  | _ => true
  end.

(** What [loadDB] returns in a state. *)
Definition stored (st : state) : value :=
  match localStorage st !! LS_DB_KEY with
  | Some s =>
      match parse (if String.eqb s "" then "{}" else s) with
      | Some v => v
      | None => JObj []
      end
  | None => JObj []
  end.

(** [for ... of] over pure bodies. *)
Fixpoint collect {A B} (l : list A) (body : A -> result (option B)) : result (list B) :=
  match l with
  | [] => Return []
  | x :: r =>
      match body x with
      | Throw e => Throw e
      | Return y =>
          match collect r body with
          | Throw e => Throw e
          | Return ys => Return (match y with Some b => b :: ys | None => ys end)
          end
      end
  end.

(** The labelled descriptor group [makeFaceMatcherFromStorage] builds
    for one key of a loaded value. *)
Definition labeled_group (db : value) (label : string)
  : result (option LabeledFaceDescriptors) :=
  match get db label with
  | Throw e => Throw e
  | Return descriptorArrays =>
      match map_Float32Array descriptorArrays with
      | Throw e => Throw e
      | Return floatDescs =>
          Return (Some {| lfd_label := label; lfd_descriptors := floatDescs |})
      end
  end.

Definition labeled_groups (db : value) : result (list LabeledFaceDescriptors) :=
  match Object_keys db with
  | Throw e => Throw e
  | Return keys => collect keys (labeled_group db)
  end.

Definition matcher_over (groups : list LabeledFaceDescriptors) : option FaceMatcher :=
  match groups with
  | [] => None
  | _ :: _ => Some {| fm_inputs := groups; fm_distanceThreshold := n0_6 |}
  end.

Definition is_write (e : event) : bool :=
  match e with SetItem _ _ | RemoveItem _ => true | _ => false end.

(** The key a storage access names. *)
Definition storage_key (e : event) : option string :=
  match e with
  | GetItem k | SetItem k _ | RemoveItem k => Some k
  | _ => None
  end.

Definition outcome {A} (x : result A * state * list event) : result A := fst (fst x).
Definition final {A} (x : result A * state * list event) : state := snd (fst x).
Definition trace {A} (x : result A * state * list event) : list event := snd x.

(** The matcher in memory is the one a rebuild would produce: running
    [makeFaceMatcherFromStorage] succeeds and changes nothing. *)
Definition in_sync (st : state) : Prop :=
  makeFaceMatcherFromStorage st = (Return tt, st, [GetItem LS_DB_KEY]).

(** A handler run that completed: it returned normally and did not
    report a failed import. *)
Definition succeeded (x : result unit * state * list event) : Prop :=
  outcome x = Return tt /\ Alert "Invalid JSON file" ∉ trace x.

(** The group built for one member of a store. *)
Definition group_of (kv : string * value) : LabeledFaceDescriptors :=
  {| lfd_label := fst kv;
     lfd_descriptors :=
       match snd kv with
       | JArr ds => map Build_Float32Array ds
       | _ => []
       end |}.

(** Every name of the store maps to an empty descriptor collection
    (in particular when the store has no name). *)
Definition all_collections_empty (S : value) : Prop :=
  match S with
  | JObj members => Forall (fun kv => snd kv = JArr []) members
  | _ => False
  end.

(** The pure part of registration (app.js 229-231): the database value
    that is saved, or the exception raised while computing it. *)
Definition appended (db : value) (label : string) (descriptors : list value)
  : result value :=
  match get db label with
  | Throw e => Throw e
  | Return old =>
      match (if is_truthy old then Return db else set db label (JArr [])) with
      | Throw e => Throw e
      | Return db1 =>
          match get db1 label with
          | Throw e => Throw e
          | Return cur =>
              match concat cur descriptors with
              | Throw e => Throw e
              | Return joined => set db1 label joined
              end
          end
      end
  end.

Section Closed.

Variable detectSingleFace : File -> DetectorOptions -> option (list number).

(** The descriptors registration collects from the chosen files, one
    for each file in which a face is found. *)
Definition detected (files : list File) : list value :=
  flat_map (fun f =>
    match detectSingleFace f (TinyFaceDetectorOptions None) with
    | Some d => [JArr (map JNum d)]
    | None => []
    end) files.

Definition detection_trace (files : list File) : list event :=
  flat_map (fun f =>
    DetectSingleFace f (TinyFaceDetectorOptions None) ::
    match detectSingleFace f (TinyFaceDetectorOptions None) with
    | Some _ => []
    | None => [Warn "No face found in" (file_name f)]
    end) files.

(** [registerLabeledFaces], run from [st], in closed form. *)
Definition registration (st : state) : result unit * state * list event :=
  let files := labeledImagesInput st in
  let label := trim (labelNameInput st) in
  if String.eqb label "" then (Return tt, st, [Alert "Enter a name to register"])
  else if Nat.eqb (length files) 0 then
    (Return tt, st, [Alert "Choose one or more images for this person"])
  else if negb (isModelsLoaded st) then (Return tt, st, [Alert "Load models first"])
  else
    let descriptors := detected files in
    let seen := detection_trace files in
    if Nat.eqb (length descriptors) 0 then
      (Return tt, st,
       seen ++ [Alert "No faces detected in uploaded images. Try clearer photos."])
    else
      match appended (stored st) label descriptors with
      | Throw e => (Throw e, st, seen ++ [GetItem LS_DB_KEY])
      | Return db2 =>
          let st1 := with_localStorage (insert LS_DB_KEY (stringify db2)) st in
          let written :=
            [GetItem LS_DB_KEY; SetItem LS_DB_KEY (stringify db2); GetItem LS_DB_KEY] in
          match labeled_groups (stored st1) with
          | Throw e => (Throw e, st1, seen ++ written)
          | Return groups =>
              (Return tt,
               with_registration_inputs "" []
                 (with_matcher (length groups) (matcher_over groups) st1),
               seen ++ written
                 ++ [Alert "Registered ${descriptors.length} face(s) for ${label}"])
          end
      end.

End Closed.

(** [importFileInput]'s change handler, run from [st], in closed form. *)
Definition import_of (text : string) (st : state) : result unit * state * list event :=
  match parse text with
  | None => (Return tt, st, [Alert "Invalid JSON file"])
  | Some parsed =>
      let st1 := with_localStorage (insert LS_DB_KEY (stringify parsed)) st in
      let written := [SetItem LS_DB_KEY (stringify parsed); GetItem LS_DB_KEY] in
      match labeled_groups (stored st1) with
      | Return groups =>
          (Return tt, with_matcher (length groups) (matcher_over groups) st1,
           written ++ [Alert "Imported DB successfully"])
      | Throw _ => (Return tt, st1, written ++ [Alert "Invalid JSON file"])
      end
  end.

(** Every event of [m] satisfies [P], and [m] takes each state to an
    [R]-related one. *)
Definition respects {A} (P : event -> Prop) (R : state -> state -> Prop) (m : M A) : Prop :=
  forall st, Forall P (trace (m st)) /\ R st (final (m st)).

(** ** Example data *)

Definition alice_descriptor : value :=
  JArr [JNum (of_literal "0.5"); JNum (of_literal "-0.25")].

Definition alice_store : value := JObj [("Alice", JArr [alice_descriptor])].

(** A store with a name and no descriptor for it, as an import of the
    document [{'Alice':[]}] leaves it. *)
Definition empty_entry_store : value := JObj [("Alice", JArr [])].

Definition corrupt_state : state :=
  with_localStorage (insert LS_DB_KEY "{not json") initial.

(** A detector that finds Alice's face in [face.png] and none elsewhere. *)
Definition sample_detector (f : File) (o : DetectorOptions) : option (list number) :=
  if String.eqb (file_name f) "face.png"
  then Some [of_literal "0.5"; of_literal "-0.25"] else None.

Definition sample_matcher (m : FaceMatcher) (d : list number) : BestMatch :=
  {| bm_label := "unknown"; bm_distance := Zero |}.

Definition two_images : list File :=
  [{| file_name := "blank.png"; file_text := "" |};
   {| file_name := "face.png"; file_text := "" |}].

(** Models loaded, nothing persisted, [name] typed in and two images
    chosen, one of them with a face. *)
Definition registering (name : string) : state :=
  {| localStorage := ∅; faceMatcher := None; detectionOptions := None;
     isModelsLoaded := true; running := false;
     detectionModelSelect := "tiny"; inputSizeEl := "320"; scoreThresholdEl := "0.5";
     labelNameInput := name; labeledImagesInput := two_images;
     dbCount := Some 0%nat; expressionsEl := Blank; ageEl := Blank; genderEl := Blank;
     identifiedList := []; modelsStatus := NotLoaded; stream := false |}.

(** The matcher in memory after saving [S] and rebuilding. *)
Definition rebuilt_matcher (S : value) (st : state) : option FaceMatcher :=
  faceMatcher (final (makeFaceMatcherFromStorage (final (saveDB S st)))).

Definition touches_storage (e : event) : bool :=
  match storage_key e with Some _ => true | None => false end.

(** The trace has a write to the store, directly followed by the load
    that starts the matcher rebuild, and no access to storage after. *)
Definition rebuild_follows_write (tr : list event) : Prop :=
  exists before w after,
    tr = before ++ w :: GetItem LS_DB_KEY :: after /\
    is_write w = true /\
    forallb (fun e => negb (touches_storage e)) after = true.

Definition writes_nothing (e : event) : Prop := is_write e = false.

(** A step from [st] to [st'] leaves the matcher in sync if it was. *)
Definition keeps_sync (st st' : state) : Prop := in_sync st -> in_sync st'.

(** The options [updateDetectionOptions] computes from the controls. *)
Definition configured (st : state) : DetectorOptions :=
  let inputSize :=
    let n := parseInt (inputSizeEl st) in if Num.truthy n then n else n320 in
  let scoreThreshold :=
    let x := parseFloat (scoreThresholdEl st) in if Num.truthy x then x else n0_5 in
  if String.eqb (detectionModelSelect st) "tiny"
  then TinyFaceDetectorOptions (Some (inputSize, scoreThreshold))
  else SsdMobilenetv1Options scoreThreshold.

Definition fixed_options_only (e : event) : Prop :=
  forall o, e = DetectAllFaces o -> o = SsdMobilenetv1Options n0_5.

Definition same_options (st st' : state) : Prop :=
  detectionOptions st' = detectionOptions st.

Definition tiny_state : state :=
  {| localStorage := ∅; faceMatcher := None; detectionOptions := None;
     isModelsLoaded := true; running := true;
     detectionModelSelect := "tiny"; inputSizeEl := "160"; scoreThresholdEl := "0.3";
     labelNameInput := ""; labeledImagesInput := [];
     dbCount := None; expressionsEl := Blank; ageEl := Blank; genderEl := Blank;
     identifiedList := []; modelsStatus := NotLoaded; stream := false |}.

(** Controls left blank or at zero. *)
Definition blank_controls : state :=
  {| localStorage := ∅; faceMatcher := None; detectionOptions := None;
     isModelsLoaded := false; running := false;
     detectionModelSelect := "tiny"; inputSizeEl := ""; scoreThresholdEl := "0";
     labelNameInput := ""; labeledImagesInput := [];
     dbCount := None; expressionsEl := Blank; ageEl := Blank; genderEl := Blank;
     identifiedList := []; modelsStatus := NotLoaded; stream := false |}.


Definition sample_expressions : list (string * number) :=
  [("neutral", of_literal "0.1"); ("happy", of_literal "0.7");
   ("sad", of_literal "0.7"); ("angry", of_literal "0.2")].

(** A detected face with these expressions: happy and sad tie at the top. *)
Definition sample_face : Detection :=
  {| det_box := {| box_x := Zero; box_y := Zero;
                   box_width := of_literal "100"; box_height := of_literal "100" |};
     det_landmarks := [];
     det_expressions := Some sample_expressions;
     det_age := of_literal "31.4";
     det_gender := Some "female";
     det_genderProbability := of_literal "0.9";
     det_descriptor := None |}.

Definition own_key_only (e : event) : Prop :=
  forall k, storage_key e = Some k -> k = LS_DB_KEY.

Definition same_elsewhere (st st' : state) : Prop :=
  forall k, k <> LS_DB_KEY -> localStorage st' !! k = localStorage st !! k.

(** ** The render tick and sessions *)

Section ClosedTick.

Variable findBestMatch : FaceMatcher -> list number -> BestMatch.

(** app.js 175-188: the identification a face contributes to the frame. *)
Definition identification (matcher : option FaceMatcher) (det : Detection)
  : option Identification :=
  match matcher, det_descriptor det with
  | Some m, Some descriptor =>
      let best := findBestMatch m descriptor in
      if negb (String.eqb (bm_label best) "unknown") then
        Some {| id_name := bm_label best; id_distance := bm_distance best;
                id_box := det_box det |}
      else None
  | _, _ => None
  end.

Definition identifications (matcher : option FaceMatcher) (dets : list Detection)
  : list Identification :=
  flat_map (fun det => match identification matcher det with
                       | Some i => [i]
                       | None => []
                       end) dets.

(** app.js 146-188: what is drawn for one face. *)
Definition face_events (matcher : option FaceMatcher) (det : Detection) : list event :=
  Canvas (StrokeRect (det_box det))
  :: map (fun pt => Canvas (FillArc pt)) (det_landmarks det)
  ++ match matcher, det_descriptor det with
     | Some m, Some descriptor =>
         let best := findBestMatch m descriptor in
         [Canvas (if negb (String.eqb (bm_label best) "unknown")
                  then FillLabel best (det_box det)
                  else FillUnknown (det_box det))]
     | _, _ => []
     end.

(** app.js 163-172: the readouts after a face. *)
Definition readout (det : Detection) (st : state) : state :=
  with_face_readout (expression_text det)
    (if Num.truthy (det_age det) then ShownAge (det_age det) else Dash)
    (match det_gender det with
     | Some g => if String.eqb g "" then Dash
                 else ShownGender g (det_genderProbability det)
     | None => Dash
     end) st.

(** One call of [detectionLoop], run from [st], in closed form. *)
Definition tick (detect : DetectorOptions -> list Detection) (st : state)
  : result unit * state * list event :=
  if negb (running st) then (Return tt, st, [])
  else if negb (isModelsLoaded st) then (Return tt, st, [RequestAnimationFrame])
  else
    let options := SsdMobilenetv1Options n0_5 in
    let faces := detect options in
    (Return tt,
     with_identifiedList (identifications (faceMatcher st) faces)
       (fold_left (fun s det => readout det s) faces
          (with_detectionOptions (configured st) st)),
     DetectAllFaces options :: Canvas ClearRect
       :: flat_map (face_events (faceMatcher st)) faces ++ [RequestAnimationFrame]).

End ClosedTick.

Definition is_label_event (e : event) : bool :=
  match e with
  | Canvas (FillLabel _ _) | Canvas (FillUnknown _) => true
  | _ => false
  end.

Definition is_frame_request (e : event) : bool :=
  match e with RequestAnimationFrame => true | _ => false end.

(** What a render tick leaves alone: everything but the detection
    options, the three readouts and the identified list. *)
Definition same_outside_display (st st' : state) : Prop :=
  localStorage st' = localStorage st /\
  faceMatcher st' = faceMatcher st /\
  dbCount st' = dbCount st /\
  isModelsLoaded st' = isModelsLoaded st /\
  running st' = running st /\
  stream st' = stream st /\
  modelsStatus st' = modelsStatus st /\
  labelNameInput st' = labelNameInput st /\
  labeledImagesInput st' = labeledImagesInput st /\
  detectionModelSelect st' = detectionModelSelect st /\
  inputSizeEl st' = inputSizeEl st /\
  scoreThresholdEl st' = scoreThresholdEl st.

(** The state is consistent: the loop runs only while a stream is held,
    the status reads loaded only when the models are, and the count
    shown is the number of groups of the matcher, which has at least one
    group and the threshold 0.6. *)
Definition consistent (st : state) : Prop :=
  (running st = true -> stream st = true) /\
  (modelsStatus st = Loaded -> isModelsLoaded st = true) /\
  match faceMatcher st with
  | Some m =>
      fm_inputs m <> [] /\ fm_distanceThreshold m = n0_6 /\
      dbCount st = Some (length (fm_inputs m))
  | None => dbCount st = None \/ dbCount st = Some 0%nat
  end.

Definition keeps (I : state -> Prop) (st st' : state) : Prop := I st -> I st'.

Definition any_event (e : event) : Prop := True.

Definition loaded (st : state) : Prop := isModelsLoaded st = true.

Definition same_store (st st' : state) : Prop := localStorage st' = localStorage st.

(** The entry points that may write to the store. *)
Definition may_write (a : action) : bool :=
  match a with
  | Register | ClearDB true | Import (_ :: _) => true
  | _ => false
  end.

Section Sessions.

Variable detectSingleFace : File -> DetectorOptions -> option (list number).
Variable findBestMatch : FaceMatcher -> list number -> BestMatch.

(** The state after a sequence of entry points, each run to its end;
    an exception ends the entry point that raised it, not the page. *)
Fixpoint session (actions : list action) (st : state) : state :=
  match actions with
  | [] => st
  | a :: rest => session rest (final (handle detectSingleFace findBestMatch a st))
  end.

(** Every entry point of the sequence completes. *)
Fixpoint completes (actions : list action) (st : state) : Prop :=
  match actions with
  | [] => True
  | a :: rest =>
      succeeded (handle detectSingleFace findBestMatch a st) /\
      completes rest (final (handle detectSingleFace findBestMatch a st))
  end.

End Sessions.

(** The files a trace shows the single-face detector was run on, with
    the options it was given, in order. *)
Definition single_face_detections (tr : list event) : list (File * DetectorOptions) :=
  flat_map (fun e => match e with DetectSingleFace f o => [(f, o)] | _ => [] end) tr.

(** The file names a trace warns about. *)
Definition warnings (tr : list event) : list string :=
  flat_map (fun e => match e with Warn _ name => [name] | _ => [] end) tr.

(** A name without white space around it: empty, or beginning and
    ending with a character that is not white space. *)
Definition bare (core : text) : bool :=
  match core, rev core with
  | c :: _, l :: _ => negb (is_js_space c) && negb (is_js_space l)
  | _, _ => true
  end.



(** A finite Number well inside the range of doubles. *)
Definition in_double_range (x : number) : bool :=
  match x with
  | Dec _ _ n => (-300 <=? n) && (n <=? 308)
  | _ => true
  end.

(** Every Number of the value is well inside the range of doubles, so
    that reading its literal gives neither Infinity nor zero. *)
Fixpoint numbers_in_range (v : value) : bool :=
  match v with
  | JNum x => in_double_range x
  | JArr items => forallb numbers_in_range items
  | JObj members => forallb (fun kv => numbers_in_range (snd kv)) members
  | _ => true
  end.


(** The descriptors a store holds for a name. *)
Definition entry_of (members : list (string * value)) (label : string) : list value :=
  match obj_get members label with
  | Some (JArr ds) => ds
  | _ => []
  end.


(** A detected face with a descriptor, and neither expressions, age nor
    gender. *)
Definition known_face : Detection :=
  {| det_box := {| box_x := Zero; box_y := Zero;
                   box_width := of_literal "100"; box_height := of_literal "100" |};
     det_landmarks := [{| pt_x := of_literal "10"; pt_y := of_literal "20" |}];
     det_expressions := None;
     det_age := Zero;
     det_gender := None;
     det_genderProbability := Zero;
     det_descriptor := Some [of_literal "0.5"; of_literal "-0.25"] |}.

(** A matcher search that recognises Alice in every descriptor. *)
Definition alice_matcher (m : FaceMatcher) (d : list number) : BestMatch :=
  {| bm_label := "Alice"; bm_distance := of_literal "0.3" |}.

(** The camera running with Alice registered. *)
Definition watching : state :=
  {| localStorage := {[ LS_DB_KEY := stringify alice_store ]};
     faceMatcher := matcher_over [group_of ("Alice", JArr [alice_descriptor])];
     detectionOptions := None;
     isModelsLoaded := true; running := true;
     detectionModelSelect := "tiny"; inputSizeEl := "320"; scoreThresholdEl := "0.5";
     labelNameInput := ""; labeledImagesInput := [];
     dbCount := Some 1%nat; expressionsEl := Blank; ageEl := Blank; genderEl := Blank;
     identifiedList := []; modelsStatus := Loaded; stream := true |}.

(** A descriptor with a number that is not finite. *)
Definition nan_store : value :=
  JObj [("Alice", JArr [JArr [JNum NaN; JNum (of_literal "0.5")]])].

(** A state whose persisted text has a number where a descriptor
    collection belongs. *)
Definition broken_entry_state : state :=
  with_localStorage (insert LS_DB_KEY (doc "{'Alice':5}")) initial.

(** [st] before the models are loaded. *)
Definition unloaded (st : state) : state := with_models false NotLoaded st.

(** * Facts about the model *)

(** ** Digits *)

Module CharFacts.

Lemma eqb_false_of_code (c d : ascii) : code c <> code d -> Ascii.eqb c d = false.
Proof.
  intros H. apply Ascii.eqb_neq. intros ->. apply H. reflexivity.
Qed.

Lemma is_digit_code (c : ascii) : is_digit c = true <-> 48 <= code c <= 57.
Proof. unfold is_digit. rewrite andb_true_iff, !Z.leb_le. tauto. Qed.

Lemma span_digits_app (ds rest : text) :
  forallb is_digit ds = true -> stops rest = true ->
  span_digits (ds ++ rest) = (ds, rest).
Proof.
  intros Hds Hrest. induction ds as [|d ds IH]; cbn [app span_digits forallb] in *.
  - destruct rest as [|c r]; [reflexivity|].
    cbn [stops] in Hrest. apply negb_true_iff in Hrest.
    cbn [span_digits]. rewrite Hrest. reflexivity.
  - apply andb_true_iff in Hds as [Hd Hds]. rewrite Hd, (IH Hds). reflexivity.
Qed.

Lemma digits_val_snoc (ds : text) (c : ascii) :
  digits_val (ds ++ [c]) = 10 * digits_val ds + digit_val c.
Proof. unfold digits_val. rewrite fold_left_app. reflexivity. Qed.

Lemma digit_char_val (d : Z) : 0 <= d < 10 -> digit_val (digit_char d) = d.
Proof.
  intros Hd. unfold digit_val, digit_char, code.
  rewrite N_ascii_embedding by lia. lia.
Qed.

Lemma digit_char_is_digit (d : Z) : 0 <= d < 10 -> is_digit (digit_char d) = true.
Proof.
  intros Hd. apply is_digit_code. unfold digit_char, code.
  rewrite N_ascii_embedding by lia. lia.
Qed.

Lemma digits_rev_val (fuel : nat) (n : Z) :
  0 <= n < 2 ^ Z.of_nat fuel ->
  digits_val (rev (digits_rev fuel n)) = n.
Proof.
  revert n. induction fuel as [|f IH]; intros n Hn.
  - change (2 ^ Z.of_nat 0) with 1 in Hn. cbv [digits_rev rev digits_val fold_left]. lia.
  - cbn [digits_rev]. destruct (Z.ltb_spec n 10) as [Hlt|Hge].
    + cbv [rev app digits_val fold_left]. rewrite digit_char_val by lia. lia.
    + cbn [rev]. rewrite digits_val_snoc.
      rewrite digit_char_val by (apply Z.mod_pos_bound; lia).
      rewrite IH.
      * pose proof (Z.div_mod n 10 ltac:(lia)). lia.
      * rewrite Nat2Z.inj_succ, Z.pow_succ_r in Hn by lia.
        split; [apply Z.div_pos; lia|].
        apply Z.div_lt_upper_bound; lia.
Qed.

Lemma digits_rev_digits (fuel : nat) (n : Z) :
  0 <= n -> forallb is_digit (digits_rev fuel n) = true.
Proof.
  revert n. induction fuel as [|f IH]; intros n Hn; [reflexivity|].
  cbn [digits_rev]. destruct (Z.ltb_spec n 10) as [Hlt|Hge]; cbn [forallb].
  - rewrite digit_char_is_digit by lia. reflexivity.
  - rewrite digit_char_is_digit by (apply Z.mod_pos_bound; lia).
    rewrite IH by (apply Z.div_pos; lia). reflexivity.
Qed.

Lemma log2_fuel (n : Z) : 0 <= n -> 0 <= n < 2 ^ Z.of_nat (S (Z.to_nat (Z.log2 n))).
Proof.
  intros Hn. split; [assumption|].
  rewrite Nat2Z.inj_succ, Z2Nat.id by apply Z.log2_nonneg.
  destruct (Z.eq_dec n 0) as [->|Hnz]; [reflexivity|].
  apply Z.log2_spec. lia.
Qed.

Lemma decimal_val (n : Z) : 0 <= n -> digits_val (decimal n) = n.
Proof. intros Hn. apply digits_rev_val, log2_fuel, Hn. Qed.

Lemma forallb_rev {A} (p : A -> bool) (l : list A) :
  forallb p (rev l) = forallb p l.
Proof.
  induction l as [|x l IH]; [reflexivity|].
  simpl. rewrite forallb_app, IH. simpl. rewrite andb_true_r. apply andb_comm.
Qed.

Lemma decimal_digits (n : Z) : 0 <= n -> forallb is_digit (decimal n) = true.
Proof. intros Hn. unfold decimal. rewrite forallb_rev. apply digits_rev_digits, Hn. Qed.

Lemma decimal_nonempty (n : Z) : decimal n <> [].
Proof.
  unfold decimal. cbn [digits_rev]. destruct (n <? 10); cbn [rev app]; intros H.
  - discriminate.
  - apply app_eq_nil in H as [_ H]. discriminate.
Qed.

Lemma drop_while_app_all (p : ascii -> bool) (l r : text) :
  forallb p l = true -> drop_while p (l ++ r) = drop_while p r.
Proof.
  induction l as [|x l IH]; [reflexivity|]. simpl.
  intros H. apply andb_true_iff in H as [-> H]. apply IH, H.
Qed.

Lemma drop_while_head (p : ascii -> bool) (c : ascii) (r : text) :
  p c = false -> drop_while p (c :: r) = c :: r.
Proof. intros H. simpl. rewrite H. reflexivity. Qed.

Lemma rev_repeat_char (c : ascii) (m : nat) : rev (repeat c m) = repeat c m.
Proof.
  induction m as [|m IH]; [reflexivity|].
  simpl. rewrite IH. symmetry. apply repeat_cons.
Qed.

Lemma forallb_repeat (p : ascii -> bool) (c : ascii) (m : nat) :
  p c = true -> forallb p (repeat c m) = true.
Proof. intros H. induction m as [|m IH]; simpl; [reflexivity|]. rewrite H, IH. reflexivity. Qed.

End CharFacts.

Import CharFacts.

(** ** Numbers: [JSON.parse] reads back what [Number::toString] writes *)

Module NumFacts.

Lemma delimited_inv (c : ascii) (r : text) :
  delimited (c :: r) = true ->
  is_digit c = false /\ Ascii.eqb c "."%char = false /\ is_e c = false.
Proof.
  cbn [delimited]. rewrite !andb_true_iff, !negb_true_iff. tauto.
Qed.

Lemma delimited_stops (s : text) : delimited s = true -> stops s = true.
Proof.
  destruct s as [|c r]; [reflexivity|].
  intros H. apply delimited_inv in H as (H & _ & _).
  cbn [stops]. rewrite H. reflexivity.
Qed.

Lemma is_zero_digit (c : ascii) : is_zero c = true -> is_digit c = true.
Proof. unfold is_zero. intros H. apply Ascii.eqb_eq in H. subst c. reflexivity. Qed.

Lemma strip_leading_zeros (m : nat) (ds : text) (n : Z) :
  first_nonzero ds = true ->
  strip_leading (repeat zero_char m ++ ds) n = (ds, n - Z.of_nat m).
Proof.
  intros Hds. revert n. induction m as [|m IH]; intros n.
  - cbn [repeat app]. destruct ds as [|c r]; [discriminate|].
    cbn [first_nonzero] in Hds. apply negb_true_iff in Hds.
    cbn [strip_leading]. rewrite Hds. f_equal. lia.
  - cbn [repeat app strip_leading]. change (is_zero zero_char) with true.
    cbn match. rewrite IH. f_equal. lia.
Qed.

Lemma strip_trailing_zeros (ds : text) (m : nat) :
  last_nonzero ds = true ->
  strip_trailing (ds ++ repeat zero_char m) = ds.
Proof.
  unfold strip_trailing, last_nonzero. intros Hds.
  rewrite rev_app_distr, rev_repeat_char.
  rewrite drop_while_app_all by (apply forallb_repeat; reflexivity).
  destruct (rev ds) as [|c r] eqn:E; [discriminate|].
  apply negb_true_iff in Hds. rewrite drop_while_head by exact Hds.
  rewrite <- E. apply rev_involutive.
Qed.

Lemma canonical_digits_inv (ds : text) :
  canonical_digits ds = true ->
  forallb is_digit ds = true /\ first_nonzero ds = true /\ last_nonzero ds = true.
Proof. unfold canonical_digits. rewrite !andb_true_iff. tauto. Qed.

(** The digits of a canonical decimal, padded with zeros on both sides,
    denote that decimal. *)
Lemma of_digits_padded (neg : bool) (ds : text) (n : Z) (lead trail : nat) :
  canonical_digits ds = true ->
  of_digits neg (repeat zero_char lead ++ ds ++ repeat zero_char trail) n
  = Dec neg ds (n - Z.of_nat lead).
Proof.
  intros H. apply canonical_digits_inv in H as (_ & Hfirst & Hlast).
  unfold of_digits. rewrite strip_leading_zeros.
  - rewrite strip_trailing_zeros by exact Hlast.
    destruct ds as [|c r]; [discriminate|]. reflexivity.
  - destruct ds as [|c r]; [discriminate|]. exact Hfirst.
Qed.

Lemma scan_exponent_text (e : Z) (rest : text) :
  stops rest = true ->
  scan_exponent (exp_text e ++ rest) = Some (e, rest).
Proof.
  intros Hrest. unfold exp_text, scan_exponent.
  pose proof (decimal_nonempty (Z.abs e)) as Hne.
  pose proof (decimal_val (Z.abs e) ltac:(lia)) as Hval.
  pose proof (decimal_digits (Z.abs e) ltac:(lia)) as Hds.
  destruct (Z.leb_spec 0 e) as [Hpos|Hneg]; cbn [app];
    change (Ascii.eqb "+"%char "-"%char) with false;
    change (Ascii.eqb "+"%char "+"%char) with true;
    change (Ascii.eqb "-"%char "-"%char) with true; cbn match;
    rewrite (span_digits_app _ _ Hds Hrest);
    destruct (decimal (Z.abs e)) as [|d ds] eqn:E; try congruence;
    rewrite Hval; f_equal; f_equal; lia.
Qed.

Lemma scan_fraction_none (s : text) :
  delimited s = true -> scan_fraction s = Some ([], s).
Proof.
  destruct s as [|c r]; [reflexivity|].
  intros H. apply delimited_inv in H as (_ & H & _).
  cbn [scan_fraction]. rewrite H. reflexivity.
Qed.

Lemma scan_fraction_digits (fs rest : text) :
  fs <> [] -> forallb is_digit fs = true -> stops rest = true ->
  scan_fraction ("."%char :: fs ++ rest) = Some (fs, rest).
Proof.
  intros Hne Hfs Hrest. cbn [scan_fraction].
  change (Ascii.eqb "."%char "."%char) with true. cbn match.
  rewrite (span_digits_app _ _ Hfs Hrest).
  destruct fs; [congruence|reflexivity].
Qed.

Lemma scan_exponent_part_none (s : text) :
  delimited s = true -> scan_exponent_part s = Some (0, s).
Proof.
  destruct s as [|c r]; [reflexivity|].
  intros H. apply delimited_inv in H as (_ & _ & H).
  cbn [scan_exponent_part]. rewrite H. reflexivity.
Qed.

Lemma scan_exponent_part_text (e : Z) (rest : text) :
  stops rest = true ->
  scan_exponent_part ("e"%char :: exp_text e ++ rest) = Some (e, rest).
Proof.
  intros Hrest. cbn [scan_exponent_part].
  change (is_e "e"%char) with true. cbn match.
  apply scan_exponent_text, Hrest.
Qed.

(** The three phases of [scan_unsigned], once each is known. *)
Lemma scan_unsigned_phases (neg : bool) (s s2 s3 s4 int fs : text) (e : Z) :
  span_digits s = (int, s2) ->
  first_nonzero int = true \/ int = [zero_char] ->
  scan_fraction s2 = Some (fs, s3) ->
  scan_exponent_part s3 = Some (e, s4) ->
  scan_unsigned neg s
  = Some (of_digits neg (int ++ fs) (Z.of_nat (length int) + e), s4).
Proof.
  intros Hint Hhead Hfrac Hexp. unfold scan_unsigned. rewrite Hint.
  destruct int as [|c more]; [destruct Hhead; discriminate|].
  assert (is_zero c && negb (Nat.eqb (length more) 0) = false) as ->.
  { destruct Hhead as [H|H].
    - cbn [first_nonzero] in H. apply negb_true_iff in H. rewrite H. reflexivity.
    - injection H as -> ->. reflexivity. }
  rewrite Hfrac, Hexp. reflexivity.
Qed.

End NumFacts.

Import NumFacts.

Module NumRoundTrip.

Lemma first_nonzero_app (ds more : text) :
  first_nonzero ds = true -> first_nonzero (ds ++ more) = true.
Proof. destruct ds; [discriminate|]. intros H. exact H. Qed.

Lemma first_nonzero_take (ds : text) (m : nat) :
  first_nonzero ds = true -> (0 < m)%nat -> first_nonzero (take m ds) = true.
Proof.
  destruct ds as [|c r]; [discriminate|]. destruct m; [lia|]. intros H _. exact H.
Qed.

Lemma forallb_take (p : ascii -> bool) (l : text) (m : nat) :
  forallb p l = true -> forallb p (take m l) = true.
Proof.
  revert m. induction l as [|x l IH]; intros [|m] H; try reflexivity.
  cbn [take forallb] in *. apply andb_true_iff in H as [-> H]. apply IH, H.
Qed.

Lemma forallb_drop (p : ascii -> bool) (l : text) (m : nat) :
  forallb p l = true -> forallb p (drop m l) = true.
Proof.
  revert m. induction l as [|x l IH]; intros [|m] H; try reflexivity; try exact H.
  cbn [drop]. cbn [forallb] in H. apply andb_true_iff in H as [_ H]. apply IH, H.
Qed.

Lemma of_digits_trail (neg : bool) (ds : text) (n : Z) (trail : nat) :
  canonical_digits ds = true ->
  of_digits neg (ds ++ repeat zero_char trail) n = Dec neg ds n.
Proof.
  intros H. pose proof (of_digits_padded neg ds n 0 trail H) as E.
  cbn [repeat app] in E. rewrite E. f_equal. lia.
Qed.

Lemma of_digits_exact (neg : bool) (ds : text) (n : Z) :
  canonical_digits ds = true -> of_digits neg ds n = Dec neg ds n.
Proof.
  intros H. pose proof (of_digits_trail neg ds n 0 H) as E.
  cbn [repeat] in E. rewrite app_nil_r in E. exact E.
Qed.

Lemma of_digits_lead (neg : bool) (ds : text) (n : Z) (lead : nat) :
  canonical_digits ds = true ->
  of_digits neg (repeat zero_char lead ++ ds) n = Dec neg ds (n - Z.of_nat lead).
Proof.
  intros H. pose proof (of_digits_padded neg ds n lead 0 H) as E.
  cbn [repeat] in E. rewrite app_nil_r in E. exact E.
Qed.

Ltac same_exponent tac :=
  match goal with
  | |- Some (Dec _ _ ?z, _) = Some (Dec _ _ ?n, _) =>
      let E := fresh in assert (z = n) as E by (tac; lia); rewrite E; reflexivity
  end.

Lemma scan_unsigned_scientific (neg : bool) (ds rest : text) (n : Z) :
  canonical_digits ds = true ->
  stops rest = true ->
  scan_unsigned neg
    (match ds with
     | [d] => d :: "e"%char :: exp_text (n - 1)
     | d :: more => d :: "."%char :: more ++ "e"%char :: exp_text (n - 1)
     | [] => []
     end ++ rest) = Some (Dec neg ds n, rest).
Proof.
  intros Hcan Hstop.
  pose proof (canonical_digits_inv _ Hcan) as (Hdig & Hfirst & Hlast).
  destruct ds as [|d more]; [discriminate|].
  cbn [forallb] in Hdig. apply andb_true_iff in Hdig as [Hd Hmore].
  destruct more as [|d' more'].
  - rewrite (scan_unsigned_phases neg _ ("e"%char :: exp_text (n - 1) ++ rest)
               ("e"%char :: exp_text (n - 1) ++ rest) rest [d] [] (n - 1)).
    + rewrite app_nil_r, (of_digits_exact _ _ _ Hcan). same_exponent ltac:(cbn [length]).
    + apply (span_digits_app [d]); [cbn [forallb]; rewrite Hd|]; reflexivity.
    + left. exact Hfirst.
    + reflexivity.
    + apply scan_exponent_part_text, Hstop.
  - set (more := d' :: more') in *.
    rewrite (scan_unsigned_phases neg _ ("."%char :: more ++ "e"%char :: exp_text (n - 1) ++ rest)
               ("e"%char :: exp_text (n - 1) ++ rest) rest [d] more (n - 1)).
    + change ([d] ++ more) with (d :: more).
      rewrite (of_digits_exact _ _ _ Hcan). same_exponent ltac:(cbn [length]).
    + cbn [app]. rewrite <- app_assoc.
      apply (span_digits_app [d]); [cbn [forallb]; rewrite Hd|]; reflexivity.
    + left. exact Hfirst.
    + apply scan_fraction_digits; [discriminate|exact Hmore|reflexivity].
    + apply scan_exponent_part_text, Hstop.
Qed.

Lemma scan_unsigned_integer (neg : bool) (ds rest : text) (n : Z) :
  canonical_digits ds = true ->
  delimited rest = true ->
  Z.of_nat (length ds) <= n ->
  scan_unsigned neg
    ((ds ++ repeat zero_char (Z.to_nat (n - Z.of_nat (length ds)))) ++ rest)
  = Some (Dec neg ds n, rest).
Proof.
  intros Hcan Hrest Hn.
  pose proof (canonical_digits_inv _ Hcan) as (Hdig & Hfirst & Hlast).
  set (zs := repeat zero_char (Z.to_nat (n - Z.of_nat (length ds)))).
  rewrite (scan_unsigned_phases neg _ rest rest rest (ds ++ zs) [] 0).
  - rewrite app_nil_r, Z.add_0_r. unfold zs.
    rewrite (of_digits_trail neg ds _ _ Hcan).
    same_exponent ltac:(rewrite length_app, repeat_length).
  - apply span_digits_app; [|apply delimited_stops, Hrest].
    rewrite forallb_app, Hdig. apply forallb_repeat. reflexivity.
  - left. apply first_nonzero_app, Hfirst.
  - apply scan_fraction_none, Hrest.
  - apply scan_exponent_part_none, Hrest.
Qed.

Lemma scan_unsigned_point (neg : bool) (ds rest : text) (n : Z) :
  canonical_digits ds = true ->
  delimited rest = true ->
  0 < n < Z.of_nat (length ds) ->
  scan_unsigned neg
    ((take (Z.to_nat n) ds ++ "."%char :: drop (Z.to_nat n) ds) ++ rest)
  = Some (Dec neg ds n, rest).
Proof.
  intros Hcan Hrest Hn.
  pose proof (canonical_digits_inv _ Hcan) as (Hdig & Hfirst & Hlast).
  set (m := Z.to_nat n).
  rewrite (scan_unsigned_phases neg _ ("."%char :: drop m ds ++ rest) rest rest
             (take m ds) (drop m ds) 0).
  - rewrite take_drop, (of_digits_exact _ _ _ Hcan).
    same_exponent ltac:(rewrite length_take).
  - rewrite <- app_assoc. apply span_digits_app; [|reflexivity].
    apply forallb_take, Hdig.
  - left. apply first_nonzero_take; [exact Hfirst|lia].
  - apply scan_fraction_digits; [|apply forallb_drop, Hdig|apply delimited_stops, Hrest].
    intros E. apply (f_equal length) in E. rewrite length_drop in E.
    cbn [length] in E. lia.
  - apply scan_exponent_part_none, Hrest.
Qed.

Lemma scan_unsigned_small (neg : bool) (ds rest : text) (n : Z) :
  canonical_digits ds = true ->
  delimited rest = true ->
  n <= 0 ->
  scan_unsigned neg
    ((zero_char :: "."%char :: repeat zero_char (Z.to_nat (- n)) ++ ds) ++ rest)
  = Some (Dec neg ds n, rest).
Proof.
  intros Hcan Hrest Hn.
  pose proof (canonical_digits_inv _ Hcan) as (Hdig & Hfirst & Hlast).
  set (zs := repeat zero_char (Z.to_nat (- n))).
  rewrite (scan_unsigned_phases neg _ ("."%char :: (zs ++ ds) ++ rest) rest rest
             [zero_char] (zs ++ ds) 0).
  - change ([zero_char] ++ zs ++ ds) with (repeat zero_char (S (Z.to_nat (- n))) ++ ds).
    rewrite (of_digits_lead _ _ _ _ Hcan). same_exponent ltac:(cbn [length]).
  - apply (span_digits_app [zero_char]); reflexivity.
  - right. reflexivity.
  - apply scan_fraction_digits; [|rewrite forallb_app, Hdig|apply delimited_stops, Hrest].
    + destruct ds; [discriminate|]. intros E. apply app_eq_nil in E as [_ E]. discriminate.
    + unfold zs. rewrite forallb_repeat; reflexivity.
  - apply scan_exponent_part_none, Hrest.
Qed.

(** A positive canonical decimal is read back from its text. *)
Lemma scan_unsigned_positive_text (neg : bool) (ds rest : text) (n : Z) :
  canonical_digits ds = true ->
  delimited rest = true ->
  scan_unsigned neg (positive_text ds n ++ rest) = Some (Dec neg ds n, rest).
Proof.
  intros Hcan Hrest. unfold positive_text.
  destruct (Z.leb_spec (Z.of_nat (length ds)) n), (Z.leb_spec n 21),
    (Z.ltb_spec 0 n), (Z.ltb_spec (-6) n), (Z.leb_spec n 0);
    cbn [andb]; try (exfalso; lia);
    first [ apply scan_unsigned_integer
          | apply scan_unsigned_point
          | apply scan_unsigned_small
          | apply scan_unsigned_scientific ];
    first [ assumption | apply delimited_stops; assumption | lia ].
Qed.

Lemma positive_text_head (ds : text) (n : Z) :
  canonical_digits ds = true ->
  exists c r, positive_text ds n = c :: r /\ is_digit c = true.
Proof.
  intros Hcan. pose proof (canonical_digits_inv _ Hcan) as (Hdig & Hfirst & _).
  destruct ds as [|d more]; [discriminate|].
  cbn [forallb] in Hdig. apply andb_true_iff in Hdig as [Hd _].
  unfold positive_text.
  destruct ((Z.of_nat (length (d :: more)) <=? n) && (n <=? 21)).
  { eexists _, _. split; [reflexivity|exact Hd]. }
  destruct (Z.ltb_spec 0 n); cbn [andb].
  - destruct (n <=? 21).
    + destruct (Z.to_nat n) eqn:E; [lia|]. eexists _, _. split; [reflexivity|exact Hd].
    + destruct ((-6 <? n) && (n <=? 0)); [eexists _, _; split; reflexivity|].
      destruct more; eexists _, _; (split; [reflexivity|exact Hd]).
  - destruct ((-6 <? n) && (n <=? 0)); [eexists _, _; split; reflexivity|].
    destruct more; eexists _, _; (split; [reflexivity|exact Hd]).
Qed.

(** [JSON.parse] reads back the text of every finite canonical Number. *)
Lemma scan_json_number_text (x : number) (rest : text) :
  finite x = true -> canonical x = true -> delimited rest = true ->
  scan_json_number (to_text x ++ rest) = Some (x, rest).
Proof.
  intros Hfin Hcan Hrest. destruct x as [| ? | |neg ds n]; try discriminate.
  - (* zero *)
    cbn [to_text app scan_json_number].
    change (Ascii.eqb zero_char "-"%char) with false. cbn match.
    rewrite (scan_unsigned_phases false _ rest rest rest [zero_char] [] 0).
    + reflexivity.
    + apply (span_digits_app [zero_char]); [reflexivity|apply delimited_stops, Hrest].
    + right. reflexivity.
    + apply scan_fraction_none, Hrest.
    + apply scan_exponent_part_none, Hrest.
  - cbn [canonical] in Hcan. destruct neg; cbn [to_text].
    + cbn [app scan_json_number]. change (Ascii.eqb "-"%char "-"%char) with true.
      cbn match. apply scan_unsigned_positive_text; assumption.
    + destruct (positive_text_head ds n Hcan) as (c & r & E & Hc).
      pose proof (scan_unsigned_positive_text false ds rest n Hcan Hrest) as H.
      rewrite E in *. cbn [app scan_json_number].
      assert (Ascii.eqb c "-"%char = false) as ->; [|exact H].
      apply eqb_false_of_code. apply is_digit_code in Hc.
      change (code "-"%char) with 45. lia.
Qed.

End NumRoundTrip.

Import NumRoundTrip.

(** ** JSON: [parse] reads back what [stringify] writes *)

Module JSONFacts.

(** Induction over values, with the hypothesis for every item of an
    array and every member of an object. *)
Lemma value_ind (P : value -> Prop)
  (Hnull : P JNull)
  (Hbool : forall b, P (JBool b))
  (Hnum : forall x, P (JNum x))
  (Hstr : forall s, P (JStr s))
  (Harr : forall items, Forall P items -> P (JArr items))
  (Hobj : forall members, Forall (fun kv => P (snd kv)) members -> P (JObj members)) :
  forall v, P v.
Proof.
  fix IH 1. intros [ | b | x | s | items | members].
  - exact Hnull.
  - apply Hbool.
  - apply Hnum.
  - apply Hstr.
  - apply Harr. induction items as [|v items IHitems]; constructor.
    + apply IH.
    + exact IHitems.
  - apply Hobj. induction members as [|[k v] members IHmembers]; constructor.
    + apply IH.
    + exact IHmembers.
Qed.

Lemma print_arr (items : list value) :
  print (JArr items) = "["%char :: print_items items ++ ["]"%char].
Proof. reflexivity. Qed.

Lemma print_obj (members : list (string * value)) :
  print (JObj members) = "{"%char :: print_members members ++ ["}"%char].
Proof. reflexivity. Qed.

Lemma scan_chars_escape (c : ascii) (cs : text) :
  scan_chars (escape c ++ cs)
  = match scan_chars cs with
    | Some (l, r) => Some (c :: l, r)
    | None => None
    end.
Proof. destruct c as [[] [] [] [] [] [] [] []]; reflexivity. Qed.

Lemma scan_chars_quoted (cs rest : text) :
  scan_chars (flat_map escape cs ++ dquote :: rest) = Some (cs, rest).
Proof.
  induction cs as [|c cs IH].
  - reflexivity.
  - cbn [flat_map]. rewrite <- app_assoc, scan_chars_escape, IH. reflexivity.
Qed.

Lemma value_start_facts (c : ascii) :
  value_start c = true ->
  is_json_ws c = false /\ Ascii.eqb c "]"%char = false /\ Ascii.eqb c "}"%char = false.
Proof.
  unfold value_start. rewrite orb_true_iff. intros [H|H].
  - apply is_digit_code in H. split; [|split].
    + unfold is_json_ws. cbv zeta.
      destruct (Z.eqb_spec (code c) 9), (Z.eqb_spec (code c) 10),
        (Z.eqb_spec (code c) 13), (Z.eqb_spec (code c) 32);
        first [lia | reflexivity].
    + apply eqb_false_of_code. change (code "]"%char) with 93. lia.
    + apply eqb_false_of_code. change (code "}"%char) with 125. lia.
  - cbn [existsb] in H. rewrite !orb_true_iff in H.
    repeat destruct H as [H|H]; try discriminate;
      apply Ascii.eqb_eq in H; subst c; repeat split; reflexivity.
Qed.

Lemma to_text_head (x : number) :
  finite x = true -> canonical x = true ->
  exists c r, to_text x = c :: r /\ (is_digit c || Ascii.eqb c "-"%char) = true.
Proof.
  intros Hfin Hcan. destruct x as [| ? | |neg ds n]; try discriminate.
  - eexists _, _. split; reflexivity.
  - cbn [canonical] in Hcan. destruct neg; cbn [to_text].
    + eexists _, _. split; reflexivity.
    + destruct (positive_text_head ds n Hcan) as (c & r & E & Hc).
      exists c, r. rewrite E, Hc. split; reflexivity.
Qed.

Lemma number_start (c : ascii) :
  (is_digit c || Ascii.eqb c "-"%char) = true -> value_start c = true.
Proof.
  unfold value_start. rewrite !orb_true_iff. intros [H|H]; [left; exact H|right].
  cbn [existsb]. rewrite H. reflexivity.
Qed.

Lemma print_head (v : value) :
  well_formed v = true ->
  exists c r, print v = c :: r /\ value_start c = true.
Proof.
  intros Hwf. destruct v as [ | [] | x | s | items | members];
    try (eexists _, _; split; reflexivity).
  cbn [print]. destruct (finite x) eqn:Hfin; [|eexists _, _; split; reflexivity].
  destruct (to_text_head x Hfin Hwf) as (c & r & E & Hc).
  exists c, r. split; [exact E|apply number_start, Hc].
Qed.

Lemma skip_ws_start (c : ascii) (r : text) :
  value_start c = true -> skip_ws (c :: r) = c :: r.
Proof.
  intros H. apply value_start_facts in H as (H & _ & _).
  unfold skip_ws. apply drop_while_head, H.
Qed.

Lemma print_length_pos (v : value) : well_formed v = true -> (1 <= length (print v))%nat.
Proof.
  intros H. destruct (print_head v H) as (c & r & E & _). rewrite E. cbn [length]. lia.
Qed.

Lemma closes_delimited (s : text) : closes s = true -> delimited s = true.
Proof.
  destruct s as [|c r]; [reflexivity|]. cbn [closes]. rewrite !orb_true_iff.
  intros [[H|H]|H]; apply Ascii.eqb_eq in H; subst c; reflexivity.
Qed.

Lemma parse_value_scalar (fuel : nat) (c : ascii) (r : text) :
  value_start c = true ->
  parse_value (S fuel) (c :: r)
  = if is_digit c || Ascii.eqb c "-"%char then
      match scan_json_number (c :: r) with
      | Some (x, r') => Some (JNum x, r')
      | None => None
      end
    else parse_value (S fuel) (c :: r).
Proof.
  intros H. destruct (is_digit c || Ascii.eqb c "-"%char) eqn:E; [|reflexivity].
  cbn [parse_value]. rewrite (skip_ws_start c r H), E. reflexivity.
Qed.

Lemma reads_back_num (x : number) : reads_back (JNum x).
Proof.
  intros Hwf fuel rest Hfuel Hrest. cbn [well_formed] in Hwf.
  pose proof (print_length_pos (JNum x) Hwf) as Hpos.
  destruct fuel as [|f]; [lia|]. cbn [print sanitize] in *.
  destruct (finite x) eqn:Hfin; [|reflexivity].
  destruct (to_text_head x Hfin Hwf) as (c & r & E & Hc).
  pose proof (scan_json_number_text x rest Hfin Hwf (closes_delimited _ Hrest)) as Hscan.
  rewrite E in *. cbn [app] in *.
  rewrite (parse_value_scalar f c _ (number_start c Hc)), Hc, Hscan. reflexivity.
Qed.

Lemma reads_back_str (s : string) : reads_back (JStr s).
Proof.
  intros _ fuel rest Hfuel _. destruct fuel as [|f]; [cbn in Hfuel; lia|].
  cbn [print quote app sanitize parse_value].
  change (skip_ws (dquote :: ?t)) with (dquote :: t).
  change (is_digit dquote || Ascii.eqb dquote "-"%char) with false.
  change (Ascii.eqb dquote dquote) with true. cbn match.
  rewrite <- app_assoc. cbn [app].
  rewrite scan_chars_quoted, string_of_list_ascii_of_string. reflexivity.
Qed.

Lemma parse_value_eq (f : nat) (c : ascii) (r : text) :
  value_start c = true ->
  parse_value (S f) (c :: r)
  = if is_digit c || Ascii.eqb c "-"%char then
      match scan_json_number (c :: r) with
      | Some (x, r') => Some (JNum x, r')
      | None => None
      end
    else if Ascii.eqb c dquote then
      match scan_chars r with
      | Some (cs, r') => Some (JStr (string_of_list_ascii cs), r')
      | None => None
      end
    else if Ascii.eqb c "["%char then
      match skip_ws r with
      | c' :: r' =>
          if Ascii.eqb c' "]"%char then Some (JArr [], r')
          else
            match parse_elements f r with
            | Some (vs, r'') => Some (JArr vs, r'')
            | None => None
            end
      | [] => None
      end
    else if Ascii.eqb c "{"%char then
      match skip_ws r with
      | c' :: r' =>
          if Ascii.eqb c' "}"%char then Some (JObj [], r')
          else
            match parse_members f r with
            | Some (ms, r'') => Some (JObj (obj_of_members ms), r'')
            | None => None
            end
      | [] => None
      end
    else if Ascii.eqb c "t"%char then
      match expect (list_ascii_of_string "rue") r with
      | Some r' => Some (JBool true, r')
      | None => None
      end
    else if Ascii.eqb c "f"%char then
      match expect (list_ascii_of_string "alse") r with
      | Some r' => Some (JBool false, r')
      | None => None
      end
    else if Ascii.eqb c "n"%char then
      match expect (list_ascii_of_string "ull") r with
      | Some r' => Some (JNull, r')
      | None => None
      end
    else None.
Proof.
  intros H. cbn [parse_value]. rewrite (skip_ws_start c r H). reflexivity.
Qed.

Lemma parse_elements_eq (f : nat) (s : text) :
  parse_elements (S f) s
  = match parse_value f s with
    | None => None
    | Some (v, r) =>
        match skip_ws r with
        | c :: r' =>
            if Ascii.eqb c ","%char then
              match parse_elements f r' with
              | Some (vs, r'') => Some (v :: vs, r'')
              | None => None
              end
            else if Ascii.eqb c "]"%char then Some ([v], r')
            else None
        | [] => None
        end
    end.
Proof. reflexivity. Qed.

Lemma print_items_head (x : value) (l : list value) :
  well_formed x = true ->
  exists c r, print_items (x :: l) = c :: r /\ value_start c = true.
Proof.
  intros Hx. destruct (print_head x Hx) as (c & r & E & Hc).
  destruct l as [|y l]; cbn [print_items]; rewrite E.
  - exists c, r. split; [reflexivity|exact Hc].
  - eexists c, _. split; [reflexivity|exact Hc].
Qed.

Lemma print_items_cons (x y : value) (l : list value) :
  print_items (x :: y :: l) = print x ++ ","%char :: print_items (y :: l).
Proof. reflexivity. Qed.

Lemma parse_elements_items (items : list value) :
  Forall reads_back items ->
  forallb well_formed items = true ->
  items <> [] ->
  forall (fuel : nat) (rest : text),
    (length (print_items items) + 1 <= fuel)%nat ->
    parse_elements fuel (print_items items ++ "]"%char :: rest)
    = Some (map sanitize items, rest).
Proof.
  induction 1 as [|x l Hx Hl IH]; intros Hwf Hne fuel rest Hfuel; [congruence|].
  cbn [forallb] in Hwf. apply andb_true_iff in Hwf as [Hwfx Hwfl].
  destruct fuel as [|f]; [lia|]. rewrite parse_elements_eq.
  destruct l as [|y l'].
  - cbn [print_items] in *.
    rewrite (Hx Hwfx f ("]"%char :: rest)) by (try reflexivity; lia).
    reflexivity.
  - rewrite print_items_cons in *. rewrite <- app_assoc. cbn [app].
    rewrite length_app in Hfuel. cbn [length] in Hfuel.
    rewrite (Hx Hwfx f) by (try reflexivity; lia).
    change (skip_ws (","%char :: ?t)) with (","%char :: t).
    change (Ascii.eqb ","%char ","%char) with true. cbn match.
    pose proof (print_length_pos x Hwfx).
    rewrite (IH Hwfl) by (try discriminate; lia).
    reflexivity.
Qed.

Lemma reads_back_arr (items : list value) :
  Forall reads_back items -> reads_back (JArr items).
Proof.
  intros Hitems Hwf fuel rest Hfuel Hrest. cbn [well_formed] in Hwf.
  rewrite print_arr in *. cbn [app length] in *.
  rewrite length_app in Hfuel. cbn [length] in Hfuel.
  destruct fuel as [|f]; [lia|].
  rewrite parse_value_eq by reflexivity.
  change (is_digit "["%char || Ascii.eqb "["%char "-"%char) with false.
  change (Ascii.eqb "["%char dquote) with false.
  change (Ascii.eqb "["%char "["%char) with true. cbn match.
  rewrite <- app_assoc. cbn [app].
  destruct items as [|x l]; [reflexivity|].
  pose proof Hwf as Hwf'. cbn [forallb] in Hwf'. apply andb_true_iff in Hwf' as [Hwfx _].
  destruct (print_items_head x l Hwfx) as (c & r & E & Hc).
  pose proof (parse_elements_items (x :: l) Hitems Hwf ltac:(discriminate) f rest
                ltac:(lia)) as Hparse.
  rewrite E in *. cbn [app] in *.
  rewrite (skip_ws_start _ _ Hc).
  destruct (value_start_facts c Hc) as (_ & -> & _).
  rewrite Hparse. reflexivity.
Qed.

Lemma parse_members_eq (f : nat) (s : text) :
  parse_members (S f) s
  = match skip_ws s with
    | q :: r0 =>
        if Ascii.eqb q dquote then
          match scan_chars r0 with
          | None => None
          | Some (k, r1) =>
              match skip_ws r1 with
              | colon :: r2 =>
                  if Ascii.eqb colon ":"%char then
                    match parse_value f r2 with
                    | None => None
                    | Some (v, r3) =>
                        match skip_ws r3 with
                        | c :: r4 =>
                            if Ascii.eqb c ","%char then
                              match parse_members f r4 with
                              | Some (ms, r5) =>
                                  Some ((string_of_list_ascii k, v) :: ms, r5)
                              | None => None
                              end
                            else if Ascii.eqb c "}"%char then
                              Some ([(string_of_list_ascii k, v)], r4)
                            else None
                        | [] => None
                        end
                    end
                  else None
              | [] => None
              end
          end
        else None
    | [] => None
    end.
Proof. reflexivity. Qed.

Lemma print_members_cons (k : string) (x : value) (kv : string * value)
    (l : list (string * value)) :
  print_members ((k, x) :: kv :: l)
  = quote k ++ ":"%char :: print x ++ ","%char :: print_members (kv :: l).
Proof. reflexivity. Qed.

Lemma print_members_length (kv : string * value) (l : list (string * value)) :
  (1 <= length (print_members (kv :: l)))%nat.
Proof. destruct kv as [k x], l as [|[k' x'] l]; cbn; lia. Qed.

(** A member [key:value] at the head of [tail] is scanned up to the
    character after the value. *)
Lemma parse_member_step (f : nat) (k : string) (x : value) (tail : text) :
  reads_back x -> well_formed x = true ->
  (length (print x) <= f)%nat -> closes tail = true ->
  parse_members (S f) ((quote k ++ ":"%char :: print x) ++ tail)
  = match skip_ws tail with
    | c :: r4 =>
        if Ascii.eqb c ","%char then
          match parse_members f r4 with
          | Some (ms, r5) => Some ((k, sanitize x) :: ms, r5)
          | None => None
          end
        else if Ascii.eqb c "}"%char then Some ([(k, sanitize x)], r4)
        else None
    | [] => None
    end.
Proof.
  intros Hx Hwf Hf Htail. rewrite parse_members_eq.
  unfold quote. cbn [app]. rewrite <- !app_assoc. cbn [app].
  change (skip_ws (dquote :: ?t)) with (dquote :: t).
  change (Ascii.eqb dquote dquote) with true. cbn match.
  rewrite scan_chars_quoted.
  change (skip_ws (":"%char :: ?t)) with (":"%char :: t).
  change (Ascii.eqb ":"%char ":"%char) with true. cbn match.
  rewrite (Hx Hwf f tail Hf Htail), string_of_list_ascii_of_string. reflexivity.
Qed.

Lemma parse_members_members (members : list (string * value)) :
  Forall (fun kv => reads_back (snd kv)) members ->
  forallb (fun kv => well_formed (snd kv)) members = true ->
  members <> [] ->
  forall (fuel : nat) (rest : text),
    (length (print_members members) + 1 <= fuel)%nat ->
    parse_members fuel (print_members members ++ "}"%char :: rest)
    = Some (map sanitize_member members, rest).
Proof.
  induction 1 as [|[k x] l Hx Hl IH]; intros Hwf Hne fuel rest Hfuel; [congruence|].
  cbn [forallb snd] in Hwf. apply andb_true_iff in Hwf as [Hwfx Hwfl].
  cbn [snd] in Hx. destruct fuel as [|f]; [lia|].
  destruct l as [|kv l'].
  - cbn [print_members] in *. rewrite length_app in Hfuel. cbn [length] in Hfuel.
    rewrite (parse_member_step f k x _ Hx Hwfx) by (try reflexivity; lia).
    reflexivity.
  - rewrite print_members_cons in *.
    replace ((quote k ++ ":"%char :: print x ++ ","%char :: print_members (kv :: l'))
               ++ "}"%char :: rest)
      with ((quote k ++ ":"%char :: print x)
              ++ ","%char :: print_members (kv :: l') ++ "}"%char :: rest)
      by (rewrite <- !app_assoc; cbn [app]; rewrite <- !app_assoc; reflexivity).
    rewrite !length_app in Hfuel. cbn [length] in Hfuel.
    rewrite length_app in Hfuel. cbn [length] in Hfuel.
    rewrite (parse_member_step f k x _ Hx Hwfx) by (try reflexivity; lia).
    change (skip_ws (","%char :: ?t)) with (","%char :: t).
    change (Ascii.eqb ","%char ","%char) with true. cbn match.
    rewrite (IH Hwfl) by (try discriminate; lia).
    reflexivity.
Qed.

Lemma distinct_NoDup (ks : list string) : distinct ks = true <-> NoDup ks.
Proof.
  induction ks as [|k r IH]; cbn [distinct].
  - split; [constructor|reflexivity].
  - rewrite andb_true_iff, negb_true_iff, IH, NoDup_cons.
    assert (existsb (String.eqb k) r = false <-> k ∉ r) as ->; [|reflexivity].
    rewrite <- not_true_iff_false, existsb_exists, list_elem_of_In.
    split; intros H; [intros Hin; apply H; exists k; split;
      [exact Hin|apply String.eqb_refl]|].
    intros (y & Hin & Heq). apply String.eqb_eq in Heq. subst y. exact (H Hin).
Qed.

Lemma obj_get_None (o : list (string * value)) (k : string) :
  obj_get o k = None <-> k ∉ map fst o.
Proof.
  induction o as [|[k' v'] r IH]; cbn [obj_get map fst].
  - split; [intros _; apply not_elem_of_nil|reflexivity].
  - rewrite not_elem_of_cons. destruct (String.eqb_spec k' k) as [->|Hne].
    + split; [discriminate|intros [H _]; congruence].
    + rewrite IH. split; [intros H; split; [congruence|exact H]|intros [_ H]; exact H].
Qed.

Lemma obj_set_fresh (o : list (string * value)) (k : string) (v : value) :
  k ∉ map fst o -> obj_set o k v = o ++ [(k, v)].
Proof.
  induction o as [|[k' v'] r IH]; cbn [obj_set map fst app]; [reflexivity|].
  rewrite not_elem_of_cons. intros [Hne Hr].
  destruct (String.eqb_spec k' k) as [->|_]; [congruence|].
  rewrite (IH Hr). reflexivity.
Qed.

Lemma fold_obj_set_distinct (ms acc : list (string * value)) :
  NoDup (map fst (acc ++ ms)) ->
  fold_left (fun o kv => obj_set o (fst kv) (snd kv)) ms acc = acc ++ ms.
Proof.
  revert acc. induction ms as [|[k v] ms IH]; intros acc Hnd; cbn [fold_left fst snd].
  - rewrite app_nil_r. reflexivity.
  - replace (acc ++ (k, v) :: ms) with ((acc ++ [(k, v)]) ++ ms) in *
      by (rewrite <- app_assoc; reflexivity).
    rewrite obj_set_fresh; [apply IH, Hnd|].
    rewrite map_app, map_app in Hnd. apply NoDup_app in Hnd as (Hnd & _ & _).
    apply NoDup_app in Hnd as (_ & Hnd & _). intros Hin.
    apply (Hnd k Hin). cbn. left.
Qed.

Lemma obj_of_members_distinct (ms : list (string * value)) :
  distinct (map fst ms) = true -> obj_of_members ms = ms.
Proof.
  intros H. apply distinct_NoDup in H. unfold obj_of_members.
  rewrite fold_obj_set_distinct; [reflexivity|exact H].
Qed.

Lemma map_fst_sanitize (ms : list (string * value)) :
  map fst (map sanitize_member ms) = map fst ms.
Proof. rewrite map_map. reflexivity. Qed.

Lemma reads_back_obj (members : list (string * value)) :
  Forall (fun kv => reads_back (snd kv)) members -> reads_back (JObj members).
Proof.
  intros Hmembers Hwf fuel rest Hfuel Hrest. cbn [well_formed] in Hwf.
  apply andb_true_iff in Hwf as [Hkeys Hwf].
  rewrite print_obj in *. cbn [app length] in *.
  rewrite length_app in Hfuel. cbn [length] in Hfuel.
  destruct fuel as [|f]; [lia|].
  rewrite parse_value_eq by reflexivity.
  change (is_digit "{"%char || Ascii.eqb "{"%char "-"%char) with false.
  change (Ascii.eqb "{"%char dquote) with false.
  change (Ascii.eqb "{"%char "["%char) with false.
  change (Ascii.eqb "{"%char "{"%char) with true. cbn match.
  rewrite <- app_assoc. cbn [app].
  destruct members as [|[k x] l]; [reflexivity|].
  pose proof (parse_members_members ((k, x) :: l) Hmembers Hwf ltac:(discriminate) f rest
                ltac:(lia)) as Hparse.
  assert (exists r, print_members ((k, x) :: l) = dquote :: r) as [r E].
  { destruct l as [|[k' x'] l]; eexists; reflexivity. }
  rewrite E in *. cbn [app] in *.
  change (skip_ws (dquote :: ?t)) with (dquote :: t).
  change (Ascii.eqb dquote "}"%char) with false. cbn match.
  rewrite Hparse. cbn [sanitize].
  rewrite obj_of_members_distinct by (rewrite map_fst_sanitize; exact Hkeys).
  reflexivity.
Qed.

Lemma reads_back_all (v : value) : reads_back v.
Proof.
  induction v as [ | b | x | s | items IH | members IH ] using value_ind.
  - intros _ [|f] rest Hf _; [cbn in Hf; lia|reflexivity].
  - intros _ [|f] rest Hf _; [destruct b; cbn in Hf; lia|destruct b; reflexivity].
  - apply reads_back_num.
  - apply reads_back_str.
  - apply reads_back_arr, IH.
  - apply reads_back_obj, IH.
Qed.

(** [JSON.parse(JSON.stringify(v))] is [v] with its non-finite Numbers
    replaced by [null]. *)
Lemma parse_stringify (v : value) :
  well_formed v = true -> parse (stringify v) = Some (sanitize v).
Proof.
  intros Hwf. unfold parse, stringify.
  rewrite list_ascii_of_string_of_list_ascii.
  pose proof (reads_back_all v Hwf (S (length (print v))) [] ltac:(lia) eq_refl) as H.
  rewrite app_nil_r in H. rewrite H. reflexivity.
Qed.

End JSONFacts.

Import JSONFacts.

(** ** The handlers in closed form *)

Lemma parse_empty_object : parse "{}" = Some (JObj []).
Proof. reflexivity. Qed.

Lemma loadDB_run (st : state) :
  loadDB st = (Return (stored st), st, [GetItem LS_DB_KEY]).
Proof.
  unfold loadDB, stored, try_catch, bind, localStorage_getItem, emit, read, ret, JSON_parse.
  cbn. destruct (localStorage st !! LS_DB_KEY) as [s|]; [|reflexivity].
  destruct (parse (if String.eqb s "" then "{}" else s)); reflexivity.
Qed.

Lemma saveDB_run (db : value) (st : state) :
  saveDB db st
  = (Return tt, with_localStorage (insert LS_DB_KEY (stringify db)) st,
     [SetItem LS_DB_KEY (stringify db)]).
Proof. reflexivity. Qed.

Lemma for_each_pure {A B} (l : list A) (body : A -> M (option B))
    (pure : A -> result (option B)) (st : state) :
  (forall x, body x st = (pure x, st, [])) ->
  for_each l body st = (collect l pure, st, []).
Proof.
  intros Hbody. induction l as [|x r IH]; [reflexivity|].
  cbn [for_each collect]. unfold bind. rewrite Hbody.
  destruct (pure x) as [y|e]; [|reflexivity].
  rewrite IH. destruct (collect r pure); reflexivity.
Qed.

Lemma makeFaceMatcherFromStorage_run (st : state) :
  makeFaceMatcherFromStorage st
  = match labeled_groups (stored st) with
    | Return groups =>
        (Return tt, with_matcher (length groups) (matcher_over groups) st,
         [GetItem LS_DB_KEY])
    | Throw e => (Throw e, st, [GetItem LS_DB_KEY])
    end.
Proof.
  unfold makeFaceMatcherFromStorage, labeled_groups.
  unfold bind at 1. rewrite loadDB_run.
  unfold bind at 1. unfold lift at 1.
  destruct (Object_keys (stored st)) as [keys|e]; [|reflexivity].
  unfold bind at 1.
  rewrite (for_each_pure keys _ (labeled_group (stored st)) st).
  - destruct (collect keys (labeled_group (stored st))) as [groups|e]; [|reflexivity].
    unfold update, matcher_over. destruct groups; reflexivity.
  - intros label. unfold bind, lift, ret, labeled_group.
    destruct (get (stored st) label) as [x|e]; [|reflexivity].
    destruct (map_Float32Array x); reflexivity.
Qed.

Lemma json_value_sound (v : value) :
  json_value v = true -> well_formed v = true /\ sanitize v = v.
Proof.
  induction v as [ | b | x | s | items IH | members IH ] using value_ind;
    cbn [json_value well_formed sanitize]; intros H; try (split; reflexivity).
  - apply andb_true_iff in H as [-> ->]. split; reflexivity.
  - induction IH as [|v l Hv Hl IHl]; [split; reflexivity|].
    cbn [forallb] in H. apply andb_true_iff in H as [H1 H2].
    destruct (Hv H1) as [Hw Hs], (IHl H2) as [Hw' Hs'].
    cbn [forallb map]. rewrite Hw, Hw', Hs. injection Hs' as ->. split; reflexivity.
  - apply andb_true_iff in H as [Hk H]. rewrite Hk. cbn [andb].
    clear Hk. induction IH as [|[k v] l Hv Hl IHl]; [split; reflexivity|].
    cbn [forallb snd] in H. apply andb_true_iff in H as [H1 H2].
    cbn [snd] in Hv. destruct (Hv H1) as [Hw Hs], (IHl H2) as [Hw' Hs'].
    cbn [forallb map fst snd]. rewrite Hw, Hw', Hs. injection Hs' as ->.
    split; reflexivity.
Qed.

Lemma forallb_impl {A} (p q : A -> bool) (l : list A) :
  (forall x, p x = true -> q x = true) -> forallb p l = true -> forallb q l = true.
Proof.
  intros Hpq. induction l as [|x l IH]; [reflexivity|].
  cbn [forallb]. intros H. apply andb_true_iff in H as [H1 H2].
  rewrite (Hpq x H1), (IH H2). reflexivity.
Qed.

Lemma descriptor_json_value (v : value) : is_descriptor v = true -> json_value v = true.
Proof.
  destruct v as [ | | | | xs | ]; try discriminate. cbn [is_descriptor json_value].
  apply forallb_impl. intros [ | | x | | | ]; try discriminate. intros H. exact H.
Qed.

Lemma descriptor_collection_json_value (v : value) :
  is_descriptor_collection v = true -> json_value v = true.
Proof.
  destruct v as [ | | | | ds | ]; try discriminate.
  cbn [is_descriptor_collection json_value].
  apply forallb_impl, descriptor_json_value.
Qed.

Lemma well_formed_store_json_value (S : value) :
  well_formed_store S = true -> json_value S = true.
Proof.
  destruct S as [ | | | | | members]; try discriminate.
  cbn [well_formed_store json_value]. intros H.
  apply andb_true_iff in H as [-> H]. cbn [andb]. revert H.
  apply forallb_impl. intros [k v]. apply descriptor_collection_json_value.
Qed.

Lemma stringify_not_empty (v : value) :
  well_formed v = true -> String.eqb (stringify v) "" = false.
Proof.
  intros H. destruct (print_head v H) as (c & r & E & _).
  unfold stringify. rewrite E. reflexivity.
Qed.

(** What is loaded once [v] has been written under the key. *)
Lemma stored_stringify (st : state) (v : value) :
  localStorage st !! LS_DB_KEY = Some (stringify v) ->
  well_formed v = true ->
  stored st = sanitize v.
Proof.
  intros Hls Hwf. unfold stored.
  rewrite Hls, (stringify_not_empty v Hwf), (parse_stringify v Hwf). reflexivity.
Qed.

Lemma with_localStorage_lookup (f : gmap string string -> gmap string string) (st : state) :
  localStorage (with_localStorage f st) = f (localStorage st).
Proof. reflexivity. Qed.

Lemma stored_saved (st : state) (v : value) :
  json_value v = true ->
  stored (with_localStorage (insert LS_DB_KEY (stringify v)) st) = v.
Proof.
  intros H. destruct (json_value_sound v H) as [Hwf Hs].
  rewrite (stored_stringify _ v); [exact Hs| |exact Hwf].
  rewrite with_localStorage_lookup. apply lookup_insert_eq.
Qed.

Lemma stored_removed (st : state) :
  stored (with_localStorage (delete LS_DB_KEY) st) = JObj [].
Proof.
  unfold stored. rewrite with_localStorage_lookup, lookup_delete_eq. reflexivity.
Qed.

Lemma for_each_cons {A B} (x : A) (r : list A) (body : A -> M (option B)) (st : state) :
  for_each (x :: r) body st
  = match body x st with
    | (Return y, st1, tr1) =>
        match for_each r body st1 with
        | (Return ys, st2, tr2) =>
            (Return (match y with Some b => b :: ys | None => ys end), st2, tr1 ++ tr2)
        | (Throw e, st2, tr2) => (Throw e, st2, tr1 ++ tr2)
        end
    | (Throw e, st1, tr1) => (Throw e, st1, tr1)
    end.
Proof.
  cbn [for_each]. unfold bind at 1.
  destruct (body x st) as [[[y|e] st1] tr1]; [|reflexivity].
  unfold bind. destruct (for_each r body st1) as [[[ys|e] st2] tr2]; [|reflexivity].
  unfold ret. rewrite app_nil_r. reflexivity.
Qed.

Lemma for_each_events {A B} (l : list A) (body : A -> M (option B))
    (g : A -> option B) (t : A -> list event) (st : state) :
  (forall x, body x st = (Return (g x), st, t x)) ->
  for_each l body st
  = (Return (flat_map (fun x => match g x with Some b => [b] | None => [] end) l),
     st, flat_map t l).
Proof.
  intros Hbody. induction l as [|x r IH]; [reflexivity|].
  rewrite for_each_cons, Hbody, IH. cbn [flat_map].
  destruct (g x); reflexivity.
Qed.

Section AppFacts.

Variable detectSingleFace : File -> DetectorOptions -> option (list number).
Variable findBestMatch : FaceMatcher -> list number -> BestMatch.

Lemma detection_loop_run (files : list File) (st : state) :
  for_each files (fun f =>
      let options := TinyFaceDetectorOptions None in
      emit (DetectSingleFace f options) ;;
      match detectSingleFace f options with
      | None => emit (Warn "No face found in" (file_name f)) ;; ret None
      | Some d => ret (Some (JArr (map JNum d)))
      end) st
  = (Return (detected detectSingleFace files), st, detection_trace detectSingleFace files).
Proof.
  rewrite (for_each_events files _
             (fun f => match detectSingleFace f (TinyFaceDetectorOptions None) with
                       | Some d => Some (JArr (map JNum d))
                       | None => None
                       end)
             (fun f => DetectSingleFace f (TinyFaceDetectorOptions None) ::
                       match detectSingleFace f (TinyFaceDetectorOptions None) with
                       | Some _ => []
                       | None => [Warn "No face found in" (file_name f)]
                       end)).
  - unfold detected, detection_trace. f_equal. f_equal. f_equal.
    apply flat_map_ext. intros f.
    destruct (detectSingleFace f (TinyFaceDetectorOptions None)); reflexivity.
  - intros f. unfold bind, emit, ret.
    destruct (detectSingleFace f (TinyFaceDetectorOptions None)); reflexivity.
Qed.

Lemma registerLabeledFaces_run (st : state) :
  registerLabeledFaces detectSingleFace st = registration detectSingleFace st.
Proof.
  unfold registerLabeledFaces, registration.
  unfold bind at 1. unfold read at 1. cbv beta iota.
  destruct (String.eqb (trim (labelNameInput st)) ""); [reflexivity|].
  destruct (Nat.eqb (length (labeledImagesInput st)) 0); [reflexivity|].
  destruct (negb (isModelsLoaded st)); [reflexivity|].
  unfold bind at 1. rewrite detection_loop_run.
  destruct (Nat.eqb (length (detected detectSingleFace (labeledImagesInput st))) 0);
    [reflexivity|].
  unfold bind at 1. rewrite loadDB_run. unfold appended.
  unfold bind at 1. unfold lift at 1.
  destruct (get (stored st) (trim (labelNameInput st))) as [old|e]; [|reflexivity].
  unfold bind at 1.
  assert ((if is_truthy old then ret (stored st)
           else lift (set (stored st) (trim (labelNameInput st)) (JArr []))) st
          = (if is_truthy old then Return (stored st)
             else set (stored st) (trim (labelNameInput st)) (JArr []), st, [])) as ->.
  { destruct (is_truthy old); reflexivity. }
  destruct (if is_truthy old then Return (stored st)
            else set (stored st) (trim (labelNameInput st)) (JArr [])) as [db1|e];
    [|reflexivity].
  unfold bind at 1. unfold lift at 1.
  destruct (get db1 (trim (labelNameInput st))) as [cur|e]; [|reflexivity].
  unfold bind at 1. unfold lift at 1.
  destruct (concat cur (detected detectSingleFace (labeledImagesInput st))) as [joined|e];
    [|reflexivity].
  unfold bind at 1. unfold lift at 1.
  destruct (set db1 (trim (labelNameInput st)) joined) as [db2|e]; [|reflexivity].
  unfold bind at 1. rewrite saveDB_run.
  unfold bind at 1. rewrite makeFaceMatcherFromStorage_run.
  destruct (labeled_groups _) as [groups|e]; unfold bind, alert, emit, update;
    cbn [app]; rewrite ?app_nil_r; reflexivity.
Qed.

End AppFacts.

Lemma get_object (o : list (string * value)) (k : string) :
  get (JObj o) k
  = Return (match obj_get o k with
            | Some v => Own v
            | None => if inherited k then Inherited else Undefined
            end).
Proof. unfold get. destruct (obj_get o k); reflexivity. Qed.

(** ** Index keys *)

Lemma digit_char_nonzero (d : Z) : 0 < d < 10 -> is_zero (digit_char d) = false.
Proof.
  intros Hd. unfold is_zero. apply eqb_false_of_code.
  unfold digit_char, code. rewrite N_ascii_embedding by lia.
  change (Z.of_N (N_of_ascii zero_char)) with 48. lia.
Qed.

Lemma digits_rev_last (fuel : nat) (n : Z) :
  0 < n < 2 ^ Z.of_nat fuel ->
  exists l c, digits_rev fuel n = l ++ [c] /\ is_zero c = false.
Proof.
  revert n. induction fuel as [|f IH]; intros n Hn.
  - change (2 ^ Z.of_nat 0) with 1 in Hn. lia.
  - cbn [digits_rev]. destruct (Z.ltb_spec n 10) as [Hlt|Hge].
    + exists [], (digit_char n). split; [reflexivity|apply digit_char_nonzero; lia].
    + destruct (IH (n / 10)) as (l & c & E & Hc).
      * rewrite Nat2Z.inj_succ, Z.pow_succ_r in Hn by lia.
        split; [apply Z.div_str_pos; lia|apply Z.div_lt_upper_bound; lia].
      * rewrite E. exists (digit_char (n mod 10) :: l), c. split; [reflexivity|exact Hc].
Qed.

(** The key of index [i] is read back as the index [i]. *)
Lemma array_index_key (i : nat) : array_index (index_key i) = Some i.
Proof.
  unfold array_index, index_key. rewrite list_ascii_of_string_of_list_ascii.
  pose proof (decimal_digits (Z.of_nat i) ltac:(lia)) as Hdig.
  pose proof (decimal_val (Z.of_nat i) ltac:(lia)) as Hval.
  destruct (Nat.eq_dec i 0%nat) as [->|Hi]; [reflexivity|].
  unfold decimal in *.
  destruct (digits_rev_last (S (Z.to_nat (Z.log2 (Z.of_nat i)))) (Z.of_nat i))
    as (l & c & E & Hc).
  { pose proof (log2_fuel (Z.of_nat i) ltac:(lia)). lia. }
  rewrite E in *. rewrite rev_app_distr in *. cbn [rev app] in *.
  rewrite Hdig, Hc, Hval. cbn [negb orb andb]. f_equal. lia.
Qed.

Lemma collect_in_model {A B} (l : list A) (f : A -> result (option B)) :
  (forall x, x ∈ l -> f x <> Throw OutOfModel) -> collect l f <> Throw OutOfModel.
Proof.
  induction l as [|x l IH]; intros H; [discriminate|].
  cbn [collect]. pose proof (H x (list_elem_of_here _ _)) as Hx.
  destruct (f x) as [y|e]; [|intros E; apply Hx; injection E as ->; reflexivity].
  specialize (IH (fun z Hz => H z (list_elem_of_further _ _ _ Hz))).
  destruct (collect l f); [discriminate|exact IH].
Qed.

Lemma map_Float32Array_in_model_opt (x : jsval) (label : string) :
  match map_Float32Array x with
  | Throw e => Throw e
  | Return floatDescs =>
      Return (Some {| lfd_label := label; lfd_descriptors := floatDescs |})
  end <> Throw OutOfModel.
Proof. destruct x as [| |[]]; discriminate. Qed.

(** The matcher rebuild stays inside the model for every loaded value. *)
Lemma labeled_groups_in_model (db : value) : labeled_groups db <> Throw OutOfModel.
Proof.
  unfold labeled_groups.
  destruct db as [ | b | x | s | items | members]; cbn [Object_keys]; try discriminate.
  - apply collect_in_model. intros k Hk.
    apply list_elem_of_fmap in Hk as (i & -> & Hi). apply elem_of_seq in Hi.
    unfold labeled_group, get. rewrite array_index_key.
    destruct (list_ascii_of_string s !! i) eqn:E; [discriminate|].
    apply lookup_ge_None in E. lia.
  - apply collect_in_model. intros k Hk.
    apply list_elem_of_fmap in Hk as (i & -> & Hi). apply elem_of_seq in Hi.
    unfold labeled_group, get. rewrite array_index_key.
    destruct (items !! i) as [v|] eqn:E.
    + apply map_Float32Array_in_model_opt.
    + apply lookup_ge_None in E. lia.
  - apply collect_in_model. intros k _. unfold labeled_group. rewrite get_object.
    apply map_Float32Array_in_model_opt.
Qed.

Lemma btnClearDB_click_run (confirmed : bool) (st : state) :
  btnClearDB_click confirmed st
  = if confirmed then
      (Return tt, with_matcher 0 None (with_localStorage (delete LS_DB_KEY) st),
       [Confirm "Clear all registered faces?"; RemoveItem LS_DB_KEY; GetItem LS_DB_KEY])
    else (Return tt, st, [Confirm "Clear all registered faces?"]).
Proof.
  unfold btnClearDB_click. destruct confirmed; [|reflexivity].
  unfold bind at 1. unfold emit at 1. cbn [negb].
  unfold bind at 1. unfold localStorage_removeItem at 1.
  unfold bind at 1. unfold emit at 1, update at 1.
  rewrite makeFaceMatcherFromStorage_run, stored_removed. reflexivity.
Qed.

Lemma importFileInput_change_run (f : File) (more : list File) (st : state) :
  importFileInput_change (f :: more) st = import_of (file_text f) st.
Proof.
  unfold importFileInput_change, import_of, try_catch, JSON_parse.
  unfold bind at 1. destruct (parse (file_text f)) as [parsed|]; [|reflexivity].
  unfold ret at 1. unfold bind at 1. unfold localStorage_setItem at 1.
  unfold bind at 1. unfold emit at 1, update at 1.
  unfold bind at 1. rewrite makeFaceMatcherFromStorage_run.
  pose proof (labeled_groups_in_model
                (stored (with_localStorage <[LS_DB_KEY:=stringify parsed]> st))) as Hin.
  destruct (labeled_groups _) as [groups|[]]; try reflexivity. congruence.
Qed.

(** ** Properties kept by every step of a computation *)

Section Respects.

Variable P : event -> Prop.
Variable R : state -> state -> Prop.
Hypothesis R_refl : forall st, R st st.
Hypothesis R_trans : forall a b c, R a b -> R b c -> R a c.

Lemma respects_ret {A} (a : A) : respects P R (ret a).
Proof. intros st. split; [constructor|apply R_refl]. Qed.

Lemma respects_throw {A} (e : exn) : respects P R (@throw A e).
Proof. intros st. split; [constructor|apply R_refl]. Qed.

Lemma respects_lift {A} (r : result A) : respects P R (lift r).
Proof. intros st. split; [constructor|apply R_refl]. Qed.

Lemma respects_read : respects P R read.
Proof. intros st. split; [constructor|apply R_refl]. Qed.

Lemma respects_emit (e : event) : P e -> respects P R (emit e).
Proof. intros He st. split; [repeat constructor; exact He|apply R_refl]. Qed.

Lemma respects_update (f : state -> state) :
  (forall st, R st (f st)) -> respects P R (update f).
Proof. intros Hf st. split; [constructor|apply Hf]. Qed.

Lemma respects_bind {A B} (m : M A) (k : A -> M B) :
  respects P R m -> (forall a, respects P R (k a)) -> respects P R (bind m k).
Proof.
  intros Hm Hk st. specialize (Hm st). unfold bind, trace, final in *.
  destruct (m st) as [[[a|e] st1] tr1]; cbn [fst snd] in *; [|exact Hm].
  specialize (Hk a st1). destruct (k a st1) as [[r st2] tr2]. cbn [fst snd] in *.
  destruct Hm as [Hm1 Hm2], Hk as [Hk1 Hk2]. split.
  - apply Forall_app. split; assumption.
  - exact (R_trans _ _ _ Hm2 Hk2).
Qed.

Lemma respects_try_catch {A} (m handler : M A) :
  respects P R m -> respects P R handler -> respects P R (try_catch m handler).
Proof.
  intros Hm Hh st. specialize (Hm st). unfold try_catch, trace, final in *.
  destruct (m st) as [[[a|e] st1] tr1]; cbn [fst snd] in *; [exact Hm|].
  destruct e; try exact Hm;
    specialize (Hh st1); destruct (handler st1) as [[r st2] tr2]; cbn [fst snd] in *;
    destruct Hm as [Hm1 Hm2], Hh as [Hh1 Hh2];
    (split; [apply Forall_app; split; assumption|exact (R_trans _ _ _ Hm2 Hh2)]).
Qed.

Lemma respects_for_each {A B} (l : list A) (body : A -> M (option B)) :
  (forall x, respects P R (body x)) -> respects P R (for_each l body).
Proof.
  intros Hbody. induction l as [|x r IH]; cbn [for_each].
  - apply respects_ret.
  - apply respects_bind; [apply Hbody|]. intros y.
    apply respects_bind; [exact IH|]. intros ys. apply respects_ret.
Qed.

End Respects.

(** Breaks a computation down along its binds, loops and branches;
    [side] settles the conditions on single events and updates. *)
Ltac respect side :=
  repeat first
    [ assumption
    | apply respects_ret
    | apply respects_throw
    | apply respects_lift
    | apply respects_read
    | apply respects_bind; [| |intros ?]
    | apply respects_try_catch
    | apply respects_for_each; [| |intros ?]
    | apply respects_emit; [|solve [side]]
    | apply respects_update; solve [side]
    | match goal with
      | |- respects _ _ (match ?x with _ => _ end) => destruct x
      | |- respects _ _ (if ?x then _ else _) => destruct x
      | |- respects _ _ (let _ := _ in _) => cbv zeta
      end ].

(** ** Storage accesses stay on the one key *)

Lemma same_elsewhere_refl (st : state) : same_elsewhere st st.
Proof. intros k _. reflexivity. Qed.

Lemma same_elsewhere_trans (a b c : state) :
  same_elsewhere a b -> same_elsewhere b c -> same_elsewhere a c.
Proof. intros Hab Hbc k Hk. rewrite (Hbc k Hk). apply Hab, Hk. Qed.

Ltac confined_side :=
  unfold own_key_only, same_elsewhere;
  first
    [ let E := fresh in
      intros ? E; cbn in E; first [discriminate | injection E as <-; reflexivity]
    | intros ? ? ?;
      cbn [localStorage with_localStorage with_matcher with_detectionOptions
           with_registration_inputs with_face_readout with_identifiedList
           with_models with_camera];
      first [reflexivity
        | rewrite lookup_insert_ne by congruence; reflexivity
        | rewrite lookup_delete_ne by congruence; reflexivity ] ].

Ltac confined :=
  pose proof same_elsewhere_refl; pose proof same_elsewhere_trans;
  respect ltac:(idtac; confined_side).

Section Confined.

Variable detectSingleFace : File -> DetectorOptions -> option (list number).
Variable findBestMatch : FaceMatcher -> list number -> BestMatch.

#[local] Abbreviation confined_to_key := (respects own_key_only same_elsewhere).

Lemma loadDB_confined : confined_to_key loadDB.
Proof. unfold loadDB, localStorage_getItem, JSON_parse. confined. Qed.

Lemma saveDB_confined (db : value) : confined_to_key (saveDB db).
Proof. unfold saveDB, localStorage_setItem. confined. Qed.

Lemma makeFaceMatcherFromStorage_confined : confined_to_key makeFaceMatcherFromStorage.
Proof.
  pose proof loadDB_confined.
  unfold makeFaceMatcherFromStorage. confined.
Qed.

Lemma handle_confined (a : action) :
  confined_to_key (handle detectSingleFace findBestMatch a).
Proof.
  pose proof loadDB_confined. pose proof saveDB_confined.
  pose proof makeFaceMatcherFromStorage_confined.
  assert (Hloop : forall detect,
             confined_to_key (detectionLoop findBestMatch detect))
    by (intros detect; unfold detectionLoop, updateDetectionOptions; confined).
  assert (Hmodels : forall available, confined_to_key (loadModels available))
    by (intros available; unfold loadModels; confined).
  destruct a; cbn [handle].
  - unfold updateDetectionOptions, alert. confined.
  - apply Hmodels.
  - pose proof (Hmodels available). pose proof (Hloop detect).
    unfold btnStart_click, startVideo, alert. confined.
  - unfold stopVideo. confined.
  - unfold updateDetectionOptions. confined.
  - unfold registerLabeledFaces, alert. confined.
  - unfold btnClearDB_click, localStorage_removeItem. confined.
  - unfold btnExport_click. confined.
  - confined.
  - unfold importFileInput_change, JSON_parse, localStorage_setItem, alert. confined.
  - apply Hloop.
Qed.

(** C10.  Whatever the entry point (page load, model loading, camera
    start and stop, a change of the detection controls, registration,
    clear, export, import, a render tick), every access to the key-value store in its trace names the key
    [facelab_db_v1], and every other entry of the store is afterwards
    what it was before. *)
Theorem storage_confined_to_one_key (a : action) (st : state) :
  (forall e k,
     e ∈ trace (handle detectSingleFace findBestMatch a st) ->
     storage_key e = Some k -> k = LS_DB_KEY) /\
  (forall k,
     k <> LS_DB_KEY ->
     localStorage (final (handle detectSingleFace findBestMatch a st)) !! k
     = localStorage st !! k).
Proof.
  destruct (handle_confined a st) as [Htrace Hstate]. split.
  - intros e k Hin. rewrite Forall_forall in Htrace. exact (Htrace e Hin k).
  - exact Hstate.
Qed.

End Confined.

(** * Properties of the program *)

(** ** Persistence *)

(** C6.  For every well-formed store [S], [loadDB] after [saveDB S]
    returns exactly [S]. *)
Theorem saveDB_loadDB_round_trip (S : value) (st : state) :
  well_formed_store S = true ->
  loadDB (final (saveDB S st)) = (Return S, final (saveDB S st), [GetItem LS_DB_KEY]).
Proof.
  intros HS. rewrite loadDB_run, saveDB_run. unfold final. cbn [fst snd].
  rewrite stored_saved by (apply well_formed_store_json_value, HS).
  reflexivity.
Qed.

Lemma saveDB_loadDB_round_trip_witness :
  well_formed_store alice_store = true /\
  loadDB (final (saveDB alice_store initial))
  = (Return alice_store, final (saveDB alice_store initial), [GetItem LS_DB_KEY]).
Proof.
  split; [reflexivity|].
  apply (saveDB_loadDB_round_trip alice_store initial). reflexivity.
Defined.

(** C7.  When the key is absent, or holds a string that is not valid
    JSON, [loadDB] returns the empty store; it raises nothing and
    changes nothing. *)
Theorem loadDB_recovers_silently (st : state) :
  localStorage st !! LS_DB_KEY = None \/
  (exists s, localStorage st !! LS_DB_KEY = Some s /\ parse s = None) ->
  loadDB st = (Return (JObj []), st, [GetItem LS_DB_KEY]).
Proof.
  intros H. rewrite loadDB_run. f_equal. f_equal. f_equal. unfold stored.
  destruct H as [->|(s & -> & Hs)]; [reflexivity|].
  destruct (String.eqb s ""); [reflexivity|]. rewrite Hs. reflexivity.
Qed.

Lemma loadDB_recovers_silently_witness :
  (exists s, localStorage corrupt_state !! LS_DB_KEY = Some s /\ parse s = None) /\
  loadDB corrupt_state = (Return (JObj []), corrupt_state, [GetItem LS_DB_KEY]).
Proof.
  assert (exists s, localStorage corrupt_state !! LS_DB_KEY = Some s /\ parse s = None) as H.
  { exists "{not json". split; reflexivity. }
  split; [exact H|].
  apply (loadDB_recovers_silently corrupt_state). right. exact H.
Defined.

(** C4.  An import whose text fails JSON parsing leaves the whole state
    as it was, store and matcher included, and alerts the user. *)
Theorem import_of_invalid_JSON_changes_nothing (f : File) (more : list File) (st : state) :
  parse (file_text f) = None ->
  importFileInput_change (f :: more) st = (Return tt, st, [Alert "Invalid JSON file"]).
Proof.
  intros H. rewrite importFileInput_change_run. unfold import_of. rewrite H. reflexivity.
Qed.

Lemma import_of_invalid_JSON_changes_nothing_witness :
  parse "{not json" = None /\
  importFileInput_change [{| file_name := "db.json"; file_text := "{not json" |}]
    (final (saveDB alice_store initial))
  = (Return tt, final (saveDB alice_store initial), [Alert "Invalid JSON file"]).
Proof.
  split; [reflexivity|].
  apply (import_of_invalid_JSON_changes_nothing
           {| file_name := "db.json"; file_text := "{not json" |} []).
  reflexivity.
Defined.

(** ** Matcher rebuild *)

Lemma obj_get_member (o : list (string * value)) (k : string) (v : value) :
  NoDup (map fst o) -> (k, v) ∈ o -> obj_get o k = Some v.
Proof.
  induction o as [|[k' v'] r IH]; cbn [map fst obj_get]; intros Hnd Hin.
  - apply elem_of_nil in Hin. destruct Hin.
  - apply NoDup_cons in Hnd as [Hk' Hnd]. apply elem_of_cons in Hin as [E|Hin].
    + injection E as -> ->. rewrite String.eqb_refl. reflexivity.
    + destruct (String.eqb_spec k' k) as [->|_]; [|apply IH; assumption].
      exfalso. apply Hk'. apply list_elem_of_fmap. exists (k, v). split; [reflexivity|exact Hin].
Qed.

Lemma collect_members (db : value) (l : list (string * value)) :
  (forall kv, kv ∈ l -> labeled_group db (fst kv) = Return (Some (group_of kv))) ->
  collect (map fst l) (labeled_group db) = Return (map group_of l).
Proof.
  induction l as [|kv l IH]; intros H; [reflexivity|].
  cbn [map collect]. rewrite (H kv) by apply list_elem_of_here.
  rewrite IH; [reflexivity|]. intros kv' Hin. apply H, list_elem_of_further, Hin.
Qed.

(** The groups built from an object whose members are all arrays: one
    per member, in order, whatever the arrays hold. *)
Lemma labeled_groups_of_arrays (members : list (string * value)) :
  distinct (map fst members) = true ->
  Forall (fun kv => exists ds, snd kv = JArr ds) members ->
  labeled_groups (JObj members) = Return (map group_of members).
Proof.
  intros Hd Harr. apply distinct_NoDup in Hd.
  unfold labeled_groups. cbn [Object_keys]. apply collect_members.
  intros [k v] Hin. rewrite Forall_forall in Harr.
  destruct (Harr (k, v) Hin) as [ds E]. cbn [snd] in E. subst v.
  unfold labeled_group, get. cbn [fst]. rewrite (obj_get_member members k (JArr ds) Hd Hin).
  reflexivity.
Qed.

Lemma well_formed_store_arrays (members : list (string * value)) :
  well_formed_store (JObj members) = true ->
  distinct (map fst members) = true /\
  Forall (fun kv => exists ds, snd kv = JArr ds) members.
Proof.
  cbn [well_formed_store]. intros H. apply andb_true_iff in H as [Hd H].
  split; [exact Hd|]. apply Forall_forall. intros [k v] Hin.
  rewrite forallb_forall in H. specialize (H (k, v)).
  rewrite <- list_elem_of_In in H. specialize (H Hin). cbn [snd] in *.
  destruct v; try discriminate. eexists. reflexivity.
Qed.

Lemma rebuilt_matcher_eq (members : list (string * value)) (st : state) :
  well_formed_store (JObj members) = true ->
  rebuilt_matcher (JObj members) st = matcher_over (map group_of members).
Proof.
  intros HS. unfold rebuilt_matcher.
  rewrite saveDB_run. unfold final at 2. cbn [fst snd].
  rewrite makeFaceMatcherFromStorage_run.
  rewrite stored_saved by (apply well_formed_store_json_value, HS).
  destruct (well_formed_store_arrays members HS) as [Hd Harr].
  rewrite (labeled_groups_of_arrays members Hd Harr). reflexivity.
Qed.

(** C1, as the code has it.  For every well-formed store, the rebuilt
    matcher is absent exactly when the store has no name; otherwise it
    holds one labelled group per name, also for a name whose descriptor
    collection is empty. *)
Theorem rebuilt_matcher_absent_iff_no_names (S : value) (st : state) :
  well_formed_store S = true ->
  (rebuilt_matcher S st = None <-> S = JObj []) /\
  (forall members, S = JObj members ->
     rebuilt_matcher S st = matcher_over (map group_of members)).
Proof.
  intros HS. destruct S as [ | | | | |members]; try discriminate.
  assert (rebuilt_matcher (JObj members) st = matcher_over (map group_of members)) as E
    by (apply rebuilt_matcher_eq, HS).
  split.
  - rewrite E. destruct members as [|kv l]; cbn [map matcher_over].
    + split; reflexivity.
    + split; discriminate.
  - intros members' Hm. injection Hm as <-. exact E.
Qed.

Lemma rebuilt_matcher_absent_iff_no_names_witness :
  well_formed_store empty_entry_store = true /\
  rebuilt_matcher empty_entry_store initial
  = Some {| fm_inputs := [{| lfd_label := "Alice"; lfd_descriptors := [] |}];
            fm_distanceThreshold := n0_6 |}.
Proof.
  split; [reflexivity|].
  destruct (rebuilt_matcher_absent_iff_no_names empty_entry_store initial eq_refl)
    as [_ H].
  rewrite (H _ eq_refl). reflexivity.
Defined.

(** C1 as stated fails: every name of [empty_entry_store] maps to an
    empty collection, yet the rebuilt matcher is present. *)
Lemma absent_iff_all_empty_fails :
  well_formed_store empty_entry_store = true /\
  ~ (rebuilt_matcher empty_entry_store initial = None
     <-> all_collections_empty empty_entry_store).
Proof.
  split; [reflexivity|]. intros [_ H].
  assert (all_collections_empty empty_entry_store) as Hall.
  { repeat constructor. }
  specialize (H Hall). vm_compute in H. discriminate.
Qed.

(** ** The matcher follows the store *)

Lemma stored_ext (st st' : state) :
  localStorage st' = localStorage st -> stored st' = stored st.
Proof. unfold stored. intros ->. reflexivity. Qed.

Lemma in_sync_with_matcher (st : state) (groups : list LabeledFaceDescriptors) :
  labeled_groups (stored st) = Return groups ->
  in_sync (with_matcher (length groups) (matcher_over groups) st).
Proof.
  intros H. unfold in_sync. rewrite makeFaceMatcherFromStorage_run.
  rewrite (stored_ext st) by reflexivity. rewrite H. reflexivity.
Qed.

(** Being in sync is a matter of the store, the matcher and the count. *)
Lemma in_sync_ext (st st' : state) :
  localStorage st' = localStorage st ->
  faceMatcher st' = faceMatcher st ->
  dbCount st' = dbCount st ->
  in_sync st -> in_sync st'.
Proof.
  unfold in_sync. rewrite !makeFaceMatcherFromStorage_run.
  intros Hs Hm Hc. rewrite (stored_ext st st' Hs).
  destruct (labeled_groups (stored st)) as [groups|e]; [|discriminate].
  intros H. injection H as H.
  assert (faceMatcher st' = matcher_over groups) as Em
    by (rewrite Hm, <- H at 1; reflexivity).
  assert (dbCount st' = Some (length groups)) as Ec
    by (rewrite Hc, <- H at 1; reflexivity).
  destruct st'. cbn in Em, Ec. subst. reflexivity.
Qed.

Ltac no_write :=
  assert (forall st, keeps_sync st st) by (intros ? ?; assumption);
  assert (forall a b c, keeps_sync a b -> keeps_sync b c -> keeps_sync a c)
    by (unfold keeps_sync; auto);
  respect ltac:(idtac; first [reflexivity
    | intros ?; unfold keeps_sync; apply in_sync_ext; reflexivity]).

Lemma no_write_in_trace {A} (m : M A) (st : state) :
  respects writes_nothing keeps_sync m -> existsb is_write (trace (m st)) = false.
Proof.
  intros H. destruct (H st) as [HP _].
  induction HP as [|e l He Hl IH]; [reflexivity|].
  cbn [existsb]. rewrite He, IH. reflexivity.
Qed.

Section Follows.

Variable detectSingleFace : File -> DetectorOptions -> option (list number).
Variable findBestMatch : FaceMatcher -> list number -> BestMatch.

Lemma detectionLoop_writes_nothing (detect : DetectorOptions -> list Detection) :
  respects writes_nothing keeps_sync (detectionLoop findBestMatch detect).
Proof. unfold detectionLoop, updateDetectionOptions. no_write. Qed.

Lemma makeFaceMatcherFromStorage_writes_nothing :
  respects writes_nothing keeps_sync makeFaceMatcherFromStorage.
Proof.
  intros st. split.
  - rewrite makeFaceMatcherFromStorage_run.
    destruct (labeled_groups (stored st)); repeat constructor.
  - intros Hsync. rewrite Hsync. exact Hsync.
Qed.

Lemma loadModels_writes_nothing (available : bool) :
  respects writes_nothing keeps_sync (loadModels available).
Proof.
  pose proof makeFaceMatcherFromStorage_writes_nothing.
  unfold loadModels. no_write.
Qed.

(** The entry points other than registration, clear and import write
    nothing and leave the matcher in sync. *)
Lemma handle_writes_nothing (a : action) :
  match a with
  | Register | ClearDB _ | Import _ => True
  | _ => respects writes_nothing keeps_sync (handle detectSingleFace findBestMatch a)
  end.
Proof.
  pose proof makeFaceMatcherFromStorage_writes_nothing.
  pose proof loadModels_writes_nothing.
  pose proof detectionLoop_writes_nothing.
  destruct a; cbn [handle]; try exact I.
  - unfold updateDetectionOptions, alert. no_write.
  - auto.
  - unfold btnStart_click, startVideo, alert. no_write.
  - unfold stopVideo. no_write.
  - unfold updateDetectionOptions. no_write.
  - unfold btnExport_click, loadDB, localStorage_getItem, JSON_parse. no_write.
  - no_write.
  - auto.
Qed.

Lemma detection_trace_writes_nothing (files : list File) :
  existsb is_write (detection_trace detectSingleFace files) = false.
Proof.
  induction files as [|f files IH]; [reflexivity|].
  cbn [detection_trace flat_map]. fold (detection_trace detectSingleFace files).
  destruct (detectSingleFace f (TinyFaceDetectorOptions None));
    cbn [app existsb is_write orb]; exact IH.
Qed.

Lemma write_then_rebuild (a : action) (st : state) :
  existsb is_write (trace (handle detectSingleFace findBestMatch a st)) = true ->
  rebuild_follows_write (trace (handle detectSingleFace findBestMatch a st)) /\
  (succeeded (handle detectSingleFace findBestMatch a st) ->
   in_sync (final (handle detectSingleFace findBestMatch a st))).
Proof.
  pose proof (handle_writes_nothing a) as Hquiet.
  destruct a as [ | | | | | |confirmed| | |files| ];
    try (rewrite (no_write_in_trace _ st Hquiet); discriminate);
    clear Hquiet; cbn [handle].
  - (* registration *)
    rewrite registerLabeledFaces_run. unfold registration.
    pose proof (detection_trace_writes_nothing (labeledImagesInput st)) as Hseen.
    destruct (String.eqb _ ""); [discriminate|].
    destruct (Nat.eqb _ 0); [discriminate|].
    destruct (negb _); [discriminate|].
    destruct (Nat.eqb _ 0).
    { unfold trace. cbn [snd]. rewrite existsb_app, Hseen. discriminate. }
    destruct (appended _ _ _) as [db2|e].
    2:{ unfold trace. cbn [snd]. rewrite existsb_app, Hseen. discriminate. }
    cbv zeta. set (st1 := with_localStorage _ st).
    destruct (labeled_groups (stored st1)) as [groups|e] eqn:Hg; intros _;
      unfold succeeded, outcome, trace, final; cbn [fst snd]; (split; [|intros [Hr _]]).
    + exists (detection_trace detectSingleFace (labeledImagesInput st) ++ [GetItem LS_DB_KEY]),
        (SetItem LS_DB_KEY (stringify db2)), [Alert "Registered ${descriptors.length} face(s) for ${label}"].
      rewrite <- app_assoc. repeat split.
    + unfold in_sync. rewrite makeFaceMatcherFromStorage_run.
      rewrite (stored_ext st1) by reflexivity. rewrite Hg. reflexivity.
    + exists (detection_trace detectSingleFace (labeledImagesInput st) ++ [GetItem LS_DB_KEY]),
        (SetItem LS_DB_KEY (stringify db2)), [].
      rewrite <- app_assoc. repeat split.
    + discriminate.
  - (* clear *)
    rewrite btnClearDB_click_run. destruct confirmed; [|discriminate].
    intros _. unfold trace, final. cbn [fst snd]. split.
    + exists [Confirm "Clear all registered faces?"], (RemoveItem LS_DB_KEY), [].
      repeat split.
    + intros _. apply (in_sync_with_matcher _ []).
      rewrite stored_removed. reflexivity.
  - (* import *)
    destruct files as [|f more]; [discriminate|].
    rewrite importFileInput_change_run. unfold import_of.
    destruct (parse (file_text f)) as [parsed|]; [|discriminate].
    cbv zeta. set (st1 := with_localStorage _ st).
    destruct (labeled_groups (stored st1)) as [groups|e] eqn:Hg; intros _.
    + unfold trace, final. cbn [fst snd]. split.
      * exists [], (SetItem LS_DB_KEY (stringify parsed)), [Alert "Imported DB successfully"].
        repeat split.
      * intros _. apply in_sync_with_matcher, Hg.
    + unfold succeeded, trace. cbn [snd app]. split.
      * exists [], (SetItem LS_DB_KEY (stringify parsed)), [Alert "Invalid JSON file"].
        repeat split.
      * intros [_ Halert]. exfalso. apply Halert. rewrite !elem_of_cons. auto.
Qed.

(** An entry point that writes nothing leaves the matcher in sync. *)
Lemma quiet_keeps_sync (a : action) (st : state) :
  existsb is_write (trace (handle detectSingleFace findBestMatch a st)) = false ->
  in_sync st -> in_sync (final (handle detectSingleFace findBestMatch a st)).
Proof.
  pose proof (handle_writes_nothing a) as Hquiet.
  destruct a as [ | | | | | |confirmed| | |files| ];
    try (intros _; exact (proj2 (Hquiet st)));
    clear Hquiet; cbn [handle].
  - (* registration *)
    rewrite registerLabeledFaces_run. unfold registration.
    destruct (String.eqb _ ""); [intros _ H; exact H|].
    destruct (Nat.eqb _ 0); [intros _ H; exact H|].
    destruct (negb _); [intros _ H; exact H|].
    destruct (Nat.eqb _ 0); [intros _ H; exact H|].
    destruct (appended _ _ _) as [db2|e]; [|intros _ H; exact H].
    cbv zeta. destruct (labeled_groups _); unfold trace; cbn [snd];
      rewrite existsb_app; cbn [existsb is_write]; rewrite !orb_true_r; discriminate.
  - (* clear *)
    rewrite btnClearDB_click_run. destruct confirmed; [discriminate|].
    intros _ H; exact H.
  - (* import *)
    destruct files as [|f more]; [intros _ H; exact H|].
    rewrite importFileInput_change_run. unfold import_of.
    destruct (parse (file_text f)) as [parsed|]; [|intros _ H; exact H].
    cbv zeta. destruct (labeled_groups _); discriminate.
Qed.

(** Whenever an entry point writes to the persisted store
    (registration, clear, import), the write is directly followed by
    the load that rebuilds the matcher, and nothing touches the store
    after it; when the operation has completed and control returns, the
    matcher in memory is the one built from the store just persisted:
    rebuilding again would change nothing.  Hence every entry point that
    completes from a state where the matcher reflects the store ends in
    such a state. *)
Theorem matcher_rebuilt_after_every_write (a : action) (st : state) :
  (existsb is_write (trace (handle detectSingleFace findBestMatch a st)) = true ->
   rebuild_follows_write (trace (handle detectSingleFace findBestMatch a st)) /\
   (succeeded (handle detectSingleFace findBestMatch a st) ->
    in_sync (final (handle detectSingleFace findBestMatch a st)))) /\
  (in_sync st ->
   succeeded (handle detectSingleFace findBestMatch a st) ->
   in_sync (final (handle detectSingleFace findBestMatch a st))).
Proof.
  split; [apply write_then_rebuild|].
  intros Hsync Hdone.
  destruct (existsb is_write (trace (handle detectSingleFace findBestMatch a st)))
    eqn:Hw.
  - exact (proj2 (write_then_rebuild a st Hw) Hdone).
  - exact (quiet_keeps_sync a st Hw Hsync).
Qed.

End Follows.

Lemma matcher_rebuilt_after_every_write_witness :
  let run := handle sample_detector sample_matcher Register (registering " Alice ") in
  let next := handle sample_detector sample_matcher Export (final run) in
  existsb is_write (trace run) = true /\
  rebuild_follows_write (trace run) /\
  in_sync (final run) /\
  in_sync (final next).
Proof.
  destruct (matcher_rebuilt_after_every_write sample_detector sample_matcher
              Register (registering " Alice ")) as [Hwrite _].
  destruct (Hwrite eq_refl) as [Hfollows Hsync].
  assert (in_sync (final (handle sample_detector sample_matcher Register
                            (registering " Alice ")))) as Hfinal.
  { apply Hsync. split; [reflexivity|].
    intros Hin. apply list_elem_of_In in Hin. vm_compute in Hin.
    intuition discriminate. }
  split; [reflexivity|]. split; [exact Hfollows|]. split; [exact Hfinal|].
  apply (matcher_rebuilt_after_every_write sample_detector sample_matcher Export);
    [exact Hfinal|].
  split; [reflexivity|].
  intros Hin. apply list_elem_of_In in Hin. vm_compute in Hin.
  intuition discriminate.
Defined.

(** ** Registration *)

Lemma obj_get_set_other (o : list (string * value)) (label k : string) (v : value) :
  k <> label -> obj_get (obj_set o label v) k = obj_get o k.
Proof.
  intros Hk. induction o as [|[k' v'] r IH]; cbn [obj_set obj_get].
  - destruct (String.eqb_spec label k); [congruence|reflexivity].
  - destruct (String.eqb_spec k' label) as [->|Hne]; cbn [obj_get].
    + destruct (String.eqb_spec label k); [congruence|reflexivity].
    + rewrite IH. reflexivity.
Qed.

Lemma obj_get_set_same (o : list (string * value)) (label : string) (v : value) :
  obj_get (obj_set o label v) label = Some v.
Proof.
  induction o as [|[k' v'] r IH]; cbn [obj_set obj_get].
  - rewrite String.eqb_refl. reflexivity.
  - destruct (String.eqb_spec k' label) as [->|Hne]; cbn [obj_get].
    + rewrite String.eqb_refl. reflexivity.
    + destruct (String.eqb_spec k' label); [congruence|exact IH].
Qed.

Lemma set_object_inv (o : list (string * value)) (label : string) (v db : value) :
  set (JObj o) label v = Return db -> db = JObj (obj_set o label v).
Proof.
  unfold JS.set. destruct (obj_get o label).
  - intros H. injection H as <-. reflexivity.
  - destruct (String.eqb label "__proto__"); [discriminate|].
    intros H. injection H as <-. reflexivity.
Qed.

Lemma drop_while_nil (p : ascii -> bool) (s : text) :
  drop_while p s = [] <-> forallb p s = true.
Proof.
  induction s as [|c r IH]; cbn [drop_while forallb]; [split; reflexivity|].
  destruct (p c); cbn [andb]; [exact IH|]. split; discriminate.
Qed.

(** [trim] removes the white space around a name and nothing else. *)
Lemma trim_text_core (pre core post : text) :
  forallb is_js_space pre = true -> forallb is_js_space post = true ->
  bare core = true ->
  trim_text (pre ++ core ++ post) = core.
Proof.
  intros Hpre Hpost Hbare. unfold trim_text.
  rewrite (drop_while_app_all _ pre _ Hpre).
  destruct core as [|c r].
  - cbn [app]. apply drop_while_nil in Hpost. rewrite Hpost. reflexivity.
  - unfold bare in Hbare.
    destruct (rev (c :: r)) as [|l m] eqn:Er.
    { apply (f_equal (@length ascii)) in Er. rewrite length_rev in Er. discriminate. }
    apply andb_true_iff in Hbare as [Hc Hl].
    apply negb_true_iff in Hc, Hl.
    change ((c :: r) ++ post) with (c :: (r ++ post)).
    rewrite (drop_while_head _ c _ Hc).
    change (c :: r ++ post) with ((c :: r) ++ post).
    rewrite rev_app_distr.
    rewrite (drop_while_app_all _ (rev post)) by (rewrite forallb_rev; exact Hpost).
    rewrite Er, (drop_while_head _ l _ Hl), <- Er. apply rev_involutive.
Qed.

Lemma trim_core (s : string) (pre core post : text) :
  list_ascii_of_string s = pre ++ core ++ post ->
  forallb is_js_space pre = true -> forallb is_js_space post = true ->
  bare core = true ->
  trim s = string_of_list_ascii core.
Proof.
  intros E Hpre Hpost Hbare. unfold trim.
  rewrite E, (trim_text_core pre core post Hpre Hpost Hbare). reflexivity.
Qed.

(** The object that registration saves has an entry under the name
    registered and agrees with the one it loaded at every other name. *)
Lemma appended_entry (members : list (string * value)) (label : string)
    (descriptors : list value) (db2 : value) :
  appended (JObj members) label descriptors = Return db2 ->
  exists members' v,
    db2 = JObj members' /\
    obj_get members' label = Some v /\
    forall k, k <> label -> obj_get members' k = obj_get members k.
Proof.
  unfold appended. rewrite get_object.
  set (old := match obj_get members label with
              | Some v => Own v
              | None => if inherited label then Inherited else Undefined
              end).
  destruct (is_truthy old).
  - rewrite get_object. fold old.
    destruct (concat old descriptors) as [joined|]; [|discriminate].
    intros H. apply set_object_inv in H. eexists _, joined. split; [exact H|].
    split; [apply obj_get_set_same|].
    intros k Hk. apply obj_get_set_other, Hk.
  - destruct (JS.set (JObj members) label (JArr [])) as [db1|] eqn:E1; [|discriminate].
    apply set_object_inv in E1. subst db1. rewrite get_object.
    rewrite obj_get_set_same. cbn [concat app].
    intros H. apply set_object_inv in H. eexists _, _. split; [exact H|].
    split; [apply obj_get_set_same|].
    intros k Hk. rewrite !obj_get_set_other by exact Hk. reflexivity.
Qed.

Lemma not_written_by_detection (detect : File -> DetectorOptions -> option (list number))
    (files : list File) (key text : string) :
  SetItem key text ∉ detection_trace detect files.
Proof.
  induction files as [|f files IH]; cbn [detection_trace flat_map].
  - apply not_elem_of_nil.
  - fold (detection_trace detect files).
    destruct (detect f (TinyFaceDetectorOptions None)); cbn [app];
      rewrite ?not_elem_of_cons; repeat split; try discriminate; exact IH.
Qed.

Lemma obj_set_set (o : list (string * value)) (k : string) (v w : value) :
  obj_set (obj_set o k v) k w = obj_set o k w.
Proof.
  induction o as [|[k' v'] r IH]; cbn [obj_set].
  - rewrite String.eqb_refl. reflexivity.
  - destruct (String.eqb_spec k' k) as [->|Hne]; cbn [obj_set].
    + rewrite String.eqb_refl. reflexivity.
    + destruct (String.eqb_spec k' k); [congruence|]. rewrite IH. reflexivity.
Qed.

Lemma not_inherited_proto (k : string) :
  inherited k = false -> String.eqb k "__proto__" = false.
Proof.
  intros H. destruct (String.eqb_spec k "__proto__") as [->|]; [discriminate|reflexivity].
Qed.

(** What registration saves for a name that is an own key holding an
    array, or a new name that no object inherits. *)
Lemma appended_to_entry (members : list (string * value)) (label : string)
    (old found : list value) :
  obj_get members label = Some (JArr old) \/
  (obj_get members label = None /\ inherited label = false /\ old = []) ->
  appended (JObj members) label found
  = Return (JObj (obj_set members label (JArr (old ++ found)))).
Proof.
  intros [Hown|(Hnone & Hinh & ->)]; unfold appended; rewrite get_object.
  - rewrite Hown. cbn [is_truthy truthy]. rewrite get_object, Hown. cbn [concat].
    unfold JS.set. rewrite Hown. reflexivity.
  - rewrite Hnone, Hinh. cbn [is_truthy]. unfold JS.set at 1.
    rewrite Hnone, (not_inherited_proto label Hinh).
    rewrite get_object, obj_get_set_same. cbn [concat app].
    unfold JS.set. rewrite obj_get_set_same, obj_set_set. reflexivity.
Qed.

Section Registration.

Variable detectSingleFace : File -> DetectorOptions -> option (list number).

(** C9.  The name is trimmed before anything else.  Write the name as
    white space, a core that neither begins nor ends with white space,
    and white space again.  When the core is empty, so for an empty name
    and for one of white space alike, registration is refused with an
    alert and nothing else happens: no detection, no access to the
    store, no change of state.  Otherwise the name is not refused, and
    whatever registration writes is the loaded object with an entry
    under the core and every other name as it was; when faces are found
    for a name that the store holds an array for, or that it does not
    hold and that no object inherits, the object is written with the
    descriptors found appended to that entry. *)
Theorem registration_trims_the_name (st : state) (pre core post : text) :
  list_ascii_of_string (labelNameInput st) = pre ++ core ++ post ->
  forallb is_js_space pre = true -> forallb is_js_space post = true ->
  bare core = true ->
  let name := string_of_list_ascii core in
  let run := registerLabeledFaces detectSingleFace st in
  (core = [] -> run = (Return tt, st, [Alert "Enter a name to register"])) /\
  (core <> [] ->
   (Alert "Enter a name to register" ∉ trace run) /\
   forall members,
     stored st = JObj members ->
     (forall key text,
        SetItem key text ∈ trace run ->
        exists members' v,
          text = stringify (JObj members') /\
          obj_get members' name = Some v /\
          forall k, k <> name -> obj_get members' k = obj_get members k) /\
     (labeledImagesInput st <> [] ->
      isModelsLoaded st = true ->
      detected detectSingleFace (labeledImagesInput st) <> [] ->
      (obj_get members name = None -> inherited name = false) ->
      (forall v, obj_get members name = Some v -> exists old, v = JArr old) ->
      exists members',
        SetItem LS_DB_KEY (stringify (JObj members')) ∈ trace run /\
        obj_get members' name
        = Some (JArr (entry_of members name
                        ++ detected detectSingleFace (labeledImagesInput st))) /\
        forall k, k <> name -> obj_get members' k = obj_get members k)).
Proof.
  intros Ename Hpre Hpost Hbare. cbv zeta.
  pose proof (trim_core _ pre core post Ename Hpre Hpost Hbare) as Htrim.
  rewrite registerLabeledFaces_run. unfold registration. rewrite Htrim.
  split.
  - intros ->. reflexivity.
  - intros Hcore.
    assert (string_of_list_ascii core <> "") as Hname.
    { intros E. apply (f_equal list_ascii_of_string) in E.
      rewrite list_ascii_of_string_of_list_ascii in E. exact (Hcore E). }
    destruct (String.eqb_spec (string_of_list_ascii core) "") as [E|_]; [contradiction|].
    assert (Alert "Enter a name to register"
              ∉ detection_trace detectSingleFace (labeledImagesInput st)) as Hquiet.
    { induction (labeledImagesInput st) as [|f files IH]; cbn [detection_trace flat_map].
      - apply not_elem_of_nil.
      - fold (detection_trace detectSingleFace files).
        destruct (detectSingleFace f (TinyFaceDetectorOptions None)); cbn [app];
          rewrite ?not_elem_of_cons; repeat split; try discriminate; exact IH. }
    pose proof (not_written_by_detection detectSingleFace (labeledImagesInput st)) as Hseen.
    split.
    + destruct (Nat.eqb (length (labeledImagesInput st)) 0);
        [unfold trace; cbn [snd]; rewrite list_elem_of_singleton; discriminate|].
      destruct (negb (isModelsLoaded st));
        [unfold trace; cbn [snd]; rewrite list_elem_of_singleton; discriminate|].
      destruct (Nat.eqb _ 0).
      { unfold trace. cbn [snd]. rewrite elem_of_app, list_elem_of_singleton.
        intros [H|H]; [contradiction|discriminate]. }
      destruct (appended _ _ _).
      2:{ unfold trace. cbn [snd]. rewrite elem_of_app, list_elem_of_singleton.
          intros [H|H]; [contradiction|discriminate]. }
      cbv zeta. destruct (labeled_groups _); unfold trace; cbn [snd];
        rewrite ?elem_of_app, ?elem_of_cons, ?elem_of_nil;
        intuition discriminate.
    + intros members Hst. split.
      * intros key text.
        destruct (Nat.eqb (length (labeledImagesInput st)) 0);
          [unfold trace; cbn [snd]; rewrite list_elem_of_singleton; discriminate|].
        destruct (negb (isModelsLoaded st));
          [unfold trace; cbn [snd]; rewrite list_elem_of_singleton; discriminate|].
        destruct (Nat.eqb _ 0).
        { unfold trace. cbn [snd]. rewrite elem_of_app, list_elem_of_singleton.
          intros [H|H]; [destruct (Hseen key text H)|discriminate]. }
        rewrite Hst.
        destruct (appended _ _ _) as [db2|e] eqn:Happ.
        2:{ unfold trace. cbn [snd]. rewrite elem_of_app, list_elem_of_singleton.
            intros [H|H]; [destruct (Hseen key text H)|discriminate]. }
        destruct (appended_entry _ _ _ _ Happ) as (members' & v & -> & Hv & Hsame).
        cbv zeta. intros Hin. exists members', v.
        split; [|split; [exact Hv|exact Hsame]].
        destruct (labeled_groups _); unfold trace in Hin; cbn [snd] in Hin;
          rewrite ?elem_of_app, ?elem_of_cons, ?elem_of_nil in Hin;
          destruct Hin as [Hin|Hin]; try (destruct (Hseen key text Hin));
          intuition (try discriminate);
          match goal with
          | E : SetItem _ _ = SetItem _ _ |- _ => injection E as _ ->; reflexivity
          end.
      * intros Hfiles Hloaded Hfound Hinh Harr.
        destruct (labeledImagesInput st) as [|f files] eqn:Ef; [contradiction|].
        cbn [length Nat.eqb]. rewrite Hloaded. cbn [negb].
        destruct (detected detectSingleFace (f :: files)) as [|d ds] eqn:Hd;
          [contradiction|].
        cbn [length Nat.eqb]. rewrite Hst.
        rewrite (appended_to_entry members _ (entry_of members (string_of_list_ascii core))
                   (d :: ds)).
        2:{ unfold entry_of.
            destruct (obj_get members (string_of_list_ascii core)) as [v|] eqn:Ev.
            - left. destruct (Harr v eq_refl) as [old ->]. reflexivity.
            - right. repeat split. apply Hinh. reflexivity. }
        cbv zeta. eexists. split; [|split; [apply obj_get_set_same|]].
        -- destruct (labeled_groups _); unfold trace; cbn [snd];
             apply elem_of_app; right; cbn [app];
             apply list_elem_of_further, list_elem_of_here.
        -- intros k Hk. apply obj_get_set_other, Hk.
Qed.

(** C3 fails on the code for a name that every object inherits: the
    lookup finds the inherited member, no entry is created, and the call
    of its missing [concat] throws.  Nothing is stored although faces
    were found. *)
Theorem registration_under_inherited_name_throws (st : state)
    (members : list (string * value)) :
  stored st = JObj members ->
  inherited (trim (labelNameInput st)) = true ->
  obj_get members (trim (labelNameInput st)) = None ->
  isModelsLoaded st = true ->
  detected detectSingleFace (labeledImagesInput st) <> [] ->
  registerLabeledFaces detectSingleFace st
  = (Throw TypeError, st,
     detection_trace detectSingleFace (labeledImagesInput st) ++ [GetItem LS_DB_KEY]).
Proof.
  intros Hst Hinh Hown Hloaded Hfound.
  rewrite registerLabeledFaces_run. unfold registration.
  destruct (String.eqb_spec (trim (labelNameInput st)) "") as [E|_].
  { rewrite E in Hinh. discriminate. }
  destruct (labeledImagesInput st) as [|f files] eqn:Hfiles; [contradiction|].
  cbn [length Nat.eqb]. rewrite Hloaded. cbn [negb].
  destruct (detected detectSingleFace (f :: files)) as [|d ds] eqn:Hd; [contradiction|].
  cbn [length Nat.eqb]. rewrite Hst.
  unfold appended. rewrite get_object, Hown, Hinh. cbn [is_truthy].
  rewrite get_object, Hown, Hinh. reflexivity.
Qed.

End Registration.

(** A name of white space is refused; [ Alice ] is filed under [Alice]. *)
Lemma registration_trims_the_name_witness :
  registerLabeledFaces sample_detector (registering "   ")
  = (Return tt, registering "   ", [Alert "Enter a name to register"]) /\
  exists members',
    SetItem LS_DB_KEY (stringify (JObj members'))
      ∈ trace (registerLabeledFaces sample_detector (registering " Alice ")) /\
    obj_get members' "Alice" = Some (JArr [alice_descriptor]) /\
    obj_get members' " Alice " = None.
Proof.
  split.
  - apply (registration_trims_the_name sample_detector (registering "   ")
             (list_ascii_of_string "   ") [] []); reflexivity.
  - destruct (registration_trims_the_name sample_detector (registering " Alice ")
                (list_ascii_of_string " ") (list_ascii_of_string "Alice")
                (list_ascii_of_string " ") eq_refl eq_refl eq_refl eq_refl)
      as [_ H].
    destruct (H ltac:(discriminate)) as [_ H'].
    destruct (H' [] eq_refl) as [_ Hwrite].
    destruct (Hwrite ltac:(discriminate) eq_refl ltac:(discriminate)
                ltac:(intros _; reflexivity) ltac:(discriminate))
      as (members' & Hin & Hentry & Hsame).
    exists members'. split; [exact Hin|]. split; [exact Hentry|].
    rewrite (Hsame " Alice ") by discriminate. reflexivity.
Defined.

(** Registering a person called [constructor], with a face found in one
    of the two images: a TypeError, and the store stays empty. *)
Lemma registration_under_inherited_name_throws_witness :
  detected sample_detector (labeledImagesInput (registering "constructor")) <> [] /\
  registerLabeledFaces sample_detector (registering "constructor")
  = (Throw TypeError, registering "constructor",
     detection_trace sample_detector two_images ++ [GetItem LS_DB_KEY]).
Proof.
  assert (detected sample_detector (labeledImagesInput (registering "constructor")) <> [])
    as Hfound by discriminate.
  split; [exact Hfound|].
  apply (registration_under_inherited_name_throws sample_detector
           (registering "constructor") []); try reflexivity.
  exact Hfound.
Defined.

Section RegistrationAppends.

Variable detectSingleFace : File -> DetectorOptions -> option (list number).


End RegistrationAppends.


(** ** The render tick *)

Lemma updateDetectionOptions_run (st : state) :
  updateDetectionOptions st = (Return tt, with_detectionOptions (configured st) st, []).
Proof.
  unfold updateDetectionOptions, configured, bind, read, update. cbv zeta.
  destruct (String.eqb _ "tiny"); reflexivity.
Qed.

Lemma bind_run {A B} (m : M A) (k : A -> M B) (st st1 : state) (a : A)
    (tr1 : list event) :
  m st = (Return a, st1, tr1) ->
  trace (bind m k st) = tr1 ++ trace (k a st1) /\
  final (bind m k st) = final (k a st1).
Proof.
  intros H. unfold bind. rewrite H. destruct (k a st1) as [[r st2] tr2].
  split; reflexivity.
Qed.

Ltac fixed_options :=
  assert (forall st, same_options st st) by (intros ?; reflexivity);
  assert (forall a b c, same_options a b -> same_options b c -> same_options a c)
    by (unfold same_options; intros ? ? ? ? ?; congruence);
  respect ltac:(idtac; unfold fixed_options_only, same_options;
                first [ let E := fresh in
                        intros ? E; first [discriminate | injection E as <-; reflexivity]
                      | intros ?; reflexivity ]).

Section Tick.

Variable findBestMatch : FaceMatcher -> list number -> BestMatch.

(** C2 fails on the code.  On a tick that reaches the detector, the
    options are recomputed from the controls and stored, but the call
    is made with the fixed [SsdMobilenetv1Options({ minConfidence: 0.5 })]:
    that, and nothing else, is what every detection event carries. *)
Theorem tick_detects_with_fixed_options (detect : DetectorOptions -> list Detection)
    (st : state) :
  running st = true -> isModelsLoaded st = true ->
  (exists more,
     trace (detectionLoop findBestMatch detect st)
     = DetectAllFaces (SsdMobilenetv1Options n0_5) :: more /\
     Forall fixed_options_only more) /\
  detectionOptions (final (detectionLoop findBestMatch detect st)) = Some (configured st).
Proof.
  intros Hrun Hloaded. unfold detectionLoop.
  match goal with
  | |- context [trace (bind read ?k ?s)] =>
      destruct (bind_run read k s s s [] eq_refl) as [-> ->]
  end.
  rewrite Hrun, Hloaded. cbn [negb app].
  match goal with
  | |- context [trace (bind updateDetectionOptions ?k ?s)] =>
      destruct (bind_run updateDetectionOptions k s _ tt []
                  (updateDetectionOptions_run s)) as [-> ->]
  end.
  cbv zeta. cbn [app].
  match goal with
  | |- context [trace (bind (emit ?e) ?k ?s)] =>
      destruct (bind_run (emit e) k s s tt [e] eq_refl) as [-> ->];
      assert (respects fixed_options_only same_options (k tt)) as Hk by fixed_options;
      destruct (Hk s) as [Htr Hst]
  end.
  split.
  - eexists. split; [reflexivity|exact Htr].
  - exact Hst.
Qed.

End Tick.

(** The tick at a concrete configuration: the controls select the tiny
    detector with input size 160 and threshold 0.3, the detector is
    called with the fixed options instead. *)
Lemma tick_detects_with_fixed_options_witness :
  let run := detectionLoop sample_matcher (fun _ => []) tiny_state in
  trace run = [DetectAllFaces (SsdMobilenetv1Options n0_5); Canvas ClearRect;
               RequestAnimationFrame] /\
  detectionOptions (final run)
  = Some (TinyFaceDetectorOptions (Some (of_literal "160", of_literal "0.3"))).
Proof.
  pose proof (tick_detects_with_fixed_options sample_matcher
                (fun _ => []) tiny_state eq_refl eq_refl) as [_ H].
  split; [reflexivity|exact H].
Defined.

(** ** Expression selection *)


Lemma head_sort_insert {A} (cmp : A -> A -> option comparison) (x : A) (l : list A) :
  head (sort_insert cmp x l)
  = match head l with
    | None => Some x
    | Some y => match cmp x y with Some Gt => Some y | _ => Some x end
    end.
Proof.
  destruct l as [|y r]; [reflexivity|]. cbn [sort_insert head].
  destruct (cmp x y) as [[]|]; reflexivity.
Qed.




(** * Further properties of the handlers *)

(** ** Everything parsed is a JSON value *)

Lemma span_digits_digits (s : text) : forallb is_digit (fst (span_digits s)) = true.
Proof.
  induction s as [|c r IH]; [reflexivity|]. cbn [span_digits].
  destruct (is_digit c) eqn:E; [|reflexivity].
  destruct (span_digits r) as [ds r']. cbn [fst forallb] in *. rewrite E, IH. reflexivity.
Qed.

Lemma strip_leading_digits (ds : text) (n : Z) :
  forallb is_digit ds = true ->
  forallb is_digit (fst (strip_leading ds n)) = true /\
  (fst (strip_leading ds n) = [] \/ first_nonzero (fst (strip_leading ds n)) = true).
Proof.
  revert n. induction ds as [|c r IH]; intros n H; cbn [strip_leading].
  - split; [reflexivity|left; reflexivity].
  - cbn [forallb] in H. apply andb_true_iff in H as [Hc Hr].
    destruct (is_zero c) eqn:E; [exact (IH _ Hr)|].
    cbn [fst forallb first_nonzero]. rewrite Hc, Hr, E. split; [reflexivity|right; reflexivity].
Qed.

Lemma drop_while_suffix (p : ascii -> bool) (l : text) :
  exists pre, l = pre ++ drop_while p l /\
    match drop_while p l with c :: _ => p c = false | [] => True end.
Proof.
  induction l as [|c r IH]; cbn [drop_while].
  - exists []. split; [reflexivity|exact I].
  - destruct (p c) eqn:E.
    + destruct IH as (pre & Hpre & Hhead). exists (c :: pre). split; [|exact Hhead].
      cbn [app]. rewrite <- Hpre. reflexivity.
    + exists []. split; [reflexivity|exact E].
Qed.

Lemma strip_trailing_digits (ds : text) :
  forallb is_digit ds = true ->
  (ds = [] \/ first_nonzero ds = true) ->
  strip_trailing ds = [] \/ canonical_digits (strip_trailing ds) = true.
Proof.
  intros Hd Hfirst. unfold strip_trailing.
  destruct (drop_while_suffix is_zero (rev ds)) as (pre & Hpre & Hhead).
  destruct (drop_while is_zero (rev ds)) as [|c r] eqn:E; [left; reflexivity|].
  right. assert (ds = rev (c :: r) ++ rev pre) as Hds.
  { rewrite <- rev_app_distr, <- Hpre, rev_involutive. reflexivity. }
  unfold canonical_digits. rewrite !andb_true_iff. repeat split.
  - rewrite Hds, forallb_app in Hd. apply andb_true_iff in Hd as [H _]. exact H.
  - destruct Hfirst as [->|Hfirst]; [discriminate|].
    rewrite Hds in Hfirst. unfold first_nonzero in *.
    destruct (rev (c :: r)) as [|x xs] eqn:Er; [|exact Hfirst].
    apply (f_equal (@length ascii)) in Er. rewrite length_rev in Er. discriminate.
  - unfold last_nonzero. rewrite rev_involutive, Hhead. reflexivity.
Qed.

Lemma of_digits_json (neg : bool) (ds : text) (n : Z) :
  forallb is_digit ds = true ->
  finite (of_digits neg ds n) && canonical (of_digits neg ds n) = true.
Proof.
  intros Hd. unfold of_digits.
  destruct (strip_leading_digits ds n Hd) as [H1 H2].
  destruct (strip_leading ds n) as [ds1 n1]. cbn [fst] in *.
  destruct (strip_trailing_digits ds1 H1 H2) as [->|H]; [reflexivity|].
  destruct (strip_trailing ds1); [reflexivity|exact H].
Qed.

Lemma scan_fraction_digits_only (s fs r : text) :
  scan_fraction s = Some (fs, r) -> forallb is_digit fs = true.
Proof.
  unfold scan_fraction. destruct s as [|p s']; [intros E; injection E as <- _; reflexivity|].
  destruct (Ascii.eqb p "."%char); [|intros E; injection E as <- _; reflexivity].
  pose proof (span_digits_digits s') as H.
  destruct (span_digits s') as [[|d ds] r']; [discriminate|].
  intros E. injection E as <- _. exact H.
Qed.

Lemma scan_unsigned_json (neg : bool) (s r : text) (x : number) :
  scan_unsigned neg s = Some (x, r) -> finite x && canonical x = true.
Proof.
  unfold scan_unsigned. pose proof (span_digits_digits s) as Hint.
  destruct (span_digits s) as [[|c more] s2]; [discriminate|]. cbn [fst] in Hint.
  destruct (is_zero c && negb (Nat.eqb (length more) 0)); [discriminate|].
  destruct (scan_fraction s2) as [[fs s3]|] eqn:Ef; [|discriminate].
  destruct (scan_exponent_part s3) as [[e s4]|]; [|discriminate].
  intros E. injection E as <- _. apply of_digits_json.
  change (forallb is_digit ((c :: more) ++ fs) = true).
  rewrite forallb_app, Hint, (scan_fraction_digits_only _ _ _ Ef). reflexivity.
Qed.

Lemma scan_json_number_json (s r : text) (x : number) :
  scan_json_number s = Some (x, r) -> finite x && canonical x = true.
Proof.
  unfold scan_json_number. destruct s as [|c s']; [discriminate|].
  destruct (Ascii.eqb c "-"%char); apply scan_unsigned_json.
Qed.

Lemma obj_set_keys_own (o : list (string * value)) (k : string) (v w : value) :
  obj_get o k = Some w -> map fst (obj_set o k v) = map fst o.
Proof.
  induction o as [|[k' v'] r IH]; cbn [obj_get obj_set map fst]; [discriminate|].
  destruct (String.eqb_spec k' k) as [->|Hne]; [reflexivity|].
  intros H. cbn [map fst]. rewrite (IH H). reflexivity.
Qed.

Lemma obj_set_forallb (P : string * value -> bool) (o : list (string * value))
    (k : string) (v : value) :
  (forall k', P (k', v) = true) -> forallb P o = true -> forallb P (obj_set o k v) = true.
Proof.
  intros Hv. induction o as [|[k' v'] r IH]; cbn [obj_set forallb].
  - intros _. rewrite Hv. reflexivity.
  - intros H. apply andb_true_iff in H as [H1 H2].
    destruct (String.eqb k' k); cbn [forallb].
    + rewrite Hv, H2. reflexivity.
    + rewrite H1, (IH H2). reflexivity.
Qed.

Lemma obj_set_distinct (o : list (string * value)) (k : string) (v : value) :
  distinct (map fst o) = true -> distinct (map fst (obj_set o k v)) = true.
Proof.
  intros Hd. destruct (obj_get o k) as [w|] eqn:E.
  - rewrite (obj_set_keys_own o k v w E). exact Hd.
  - apply obj_get_None in E. rewrite (obj_set_fresh o k v E).
    apply distinct_NoDup. rewrite map_app. cbn [map fst].
    apply distinct_NoDup in Hd. apply NoDup_app. repeat split.
    + exact Hd.
    + intros x Hx Hin. apply list_elem_of_singleton in Hin. subst x. contradiction.
    + apply NoDup_singleton.
Qed.

Lemma obj_of_members_json (ms : list (string * value)) :
  forallb (fun kv => json_value (snd kv)) ms = true ->
  json_value (JObj (obj_of_members ms)) = true.
Proof.
  unfold obj_of_members. intros H.
  assert (forall acc,
            json_value (JObj acc) = true ->
            json_value (JObj (fold_left (fun o kv => obj_set o (fst kv) (snd kv)) ms acc))
            = true) as Hgen.
  { induction ms as [|[k v] ms IH]; intros acc Hacc; [exact Hacc|].
    cbn [forallb snd] in H. apply andb_true_iff in H as [Hv Hms].
    cbn [fold_left fst snd]. apply (IH Hms).
    cbn [json_value] in *. apply andb_true_iff in Hacc as [Hd Hall].
    rewrite (obj_set_distinct acc k v Hd). cbn [andb].
    apply obj_set_forallb; [intros k'; exact Hv|exact Hall]. }
  apply Hgen. reflexivity.
Qed.

(** Everything the parser returns is a JSON value: finite canonical
    Numbers, no key twice in an object. *)
Lemma parse_value_json (fuel : nat) :
  (forall s v r, parse_value fuel s = Some (v, r) -> json_value v = true) /\
  (forall s vs r, parse_elements fuel s = Some (vs, r) -> forallb json_value vs = true) /\
  (forall s ms r, parse_members fuel s = Some (ms, r) ->
                  forallb (fun kv => json_value (snd kv)) ms = true).
Proof.
  induction fuel as [|f (IHv & IHe & IHm)]; [repeat split; discriminate|].
  repeat split.
  - intros s v r. cbn [parse_value].
    destruct (skip_ws s) as [|c t]; [discriminate|].
    destruct (is_digit c || Ascii.eqb c "-"%char).
    { destruct (scan_json_number (c :: t)) as [[x r']|] eqn:E; [|discriminate].
      intros H. injection H as <- _. exact (scan_json_number_json _ _ _ E). }
    destruct (Ascii.eqb c dquote).
    { destruct (scan_chars t) as [[cs r']|]; [|discriminate].
      intros H. injection H as <- _. reflexivity. }
    destruct (Ascii.eqb c "["%char).
    { destruct (skip_ws t) as [|c' r']; [discriminate|].
      destruct (Ascii.eqb c' "]"%char); [intros H; injection H as <- _; reflexivity|].
      destruct (parse_elements f t) as [[vs r'']|] eqn:E; [|discriminate].
      intros H. injection H as <- _. exact (IHe _ _ _ E). }
    destruct (Ascii.eqb c "{"%char).
    { destruct (skip_ws t) as [|c' r']; [discriminate|].
      destruct (Ascii.eqb c' "}"%char); [intros H; injection H as <- _; reflexivity|].
      destruct (parse_members f t) as [[ms r'']|] eqn:E; [|discriminate].
      intros H. injection H as <- _. apply obj_of_members_json. exact (IHm _ _ _ E). }
    destruct (Ascii.eqb c "t"%char).
    { destruct (expect _ t); [|discriminate]. intros H. injection H as <- _. reflexivity. }
    destruct (Ascii.eqb c "f"%char).
    { destruct (expect _ t); [|discriminate]. intros H. injection H as <- _. reflexivity. }
    destruct (Ascii.eqb c "n"%char); [|discriminate].
    destruct (expect _ t); [|discriminate]. intros H. injection H as <- _. reflexivity.
  - intros s vs r. rewrite parse_elements_eq.
    destruct (parse_value f s) as [[v t]|] eqn:Ev; [|discriminate].
    destruct (skip_ws t) as [|c r']; [discriminate|].
    destruct (Ascii.eqb c ","%char).
    { destruct (parse_elements f r') as [[vs' r'']|] eqn:Ee; [|discriminate].
      intros H. injection H as <- _. cbn [forallb].
      rewrite (IHv _ _ _ Ev), (IHe _ _ _ Ee). reflexivity. }
    destruct (Ascii.eqb c "]"%char); [|discriminate].
    intros H. injection H as <- _. cbn [forallb]. rewrite (IHv _ _ _ Ev). reflexivity.
  - intros s ms r. rewrite parse_members_eq.
    destruct (skip_ws s) as [|q r0]; [discriminate|].
    destruct (Ascii.eqb q dquote); [|discriminate].
    destruct (scan_chars r0) as [[k r1]|]; [|discriminate].
    destruct (skip_ws r1) as [|colon r2]; [discriminate|].
    destruct (Ascii.eqb colon ":"%char); [|discriminate].
    destruct (parse_value f r2) as [[v r3]|] eqn:Ev; [|discriminate].
    destruct (skip_ws r3) as [|c r4]; [discriminate|].
    destruct (Ascii.eqb c ","%char).
    { destruct (parse_members f r4) as [[ms' r5]|] eqn:Em; [|discriminate].
      intros H. injection H as <- _. cbn [forallb snd].
      rewrite (IHv _ _ _ Ev), (IHm _ _ _ Em). reflexivity. }
    destruct (Ascii.eqb c "}"%char); [|discriminate].
    intros H. injection H as <- _. cbn [forallb snd]. rewrite (IHv _ _ _ Ev). reflexivity.
Qed.

Lemma parse_json_value (s : string) (v : value) : parse s = Some v -> json_value v = true.
Proof.
  unfold parse.
  destruct (parse_value _ _) as [[v' r]|] eqn:E; [|discriminate].
  destruct (skip_ws r); [|discriminate]. intros H. injection H as <-.
  exact (proj1 (parse_value_json _) _ _ _ E).
Qed.

Lemma stored_json_value (st : state) : json_value (stored st) = true.
Proof.
  unfold stored. destruct (localStorage st !! LS_DB_KEY) as [s|]; [|reflexivity].
  destruct (parse _) as [v|] eqn:E; [|reflexivity]. exact (parse_json_value _ _ E).
Qed.

(** ** The render tick in closed form *)

Lemma for_each_fold {A B} (l : list A) (body : A -> M (option B))
    (I : state -> Prop) (g : A -> option B) (f : A -> state -> state)
    (t : A -> list event) (st : state) :
  I st ->
  (forall x s, I s -> body x s = (Return (g x), f x s, t x) /\ I (f x s)) ->
  for_each l body st
  = (Return (flat_map (fun x => match g x with Some b => [b] | None => [] end) l),
     fold_left (fun s x => f x s) l st, flat_map t l).
Proof.
  intros HI Hbody. revert st HI. induction l as [|x r IH]; intros st HI; [reflexivity|].
  destruct (Hbody x st HI) as [E HI'].
  rewrite for_each_cons, E, (IH _ HI'). cbn [flat_map fold_left].
  destruct (g x); reflexivity.
Qed.

Section TickFacts.

Variable findBestMatch : FaceMatcher -> list number -> BestMatch.

Lemma detectionLoop_run (detect : DetectorOptions -> list Detection) (st : state) :
  detectionLoop findBestMatch detect st = tick findBestMatch detect st.
Proof.
  unfold detectionLoop, tick.
  unfold bind at 1. unfold read at 1. cbv beta iota.
  destruct (negb (running st)); [reflexivity|].
  destruct (negb (isModelsLoaded st)); [reflexivity|].
  unfold bind at 1. rewrite updateDetectionOptions_run. cbv zeta.
  unfold bind at 1. unfold emit at 1.
  unfold bind at 1. unfold emit at 1.
  unfold bind at 1.
  set (st1 := with_detectionOptions (configured st) st).
  rewrite (for_each_fold (detect (SsdMobilenetv1Options n0_5)) _
             (fun s => faceMatcher s = faceMatcher st)
             (identification findBestMatch (faceMatcher st))
             readout
             (face_events findBestMatch (faceMatcher st)) st1).
  - unfold bind, update, emit. cbn [app]. reflexivity.
  - reflexivity.
  - intros det s Hs. split; [|exact Hs].
    unfold bind at 1. unfold emit at 1.
    unfold bind at 1.
    rewrite (for_each_events (det_landmarks det) _ (fun _ => @None unit)
               (fun pt => [Canvas (FillArc pt)])) by reflexivity.
    unfold bind at 1. unfold update at 1.
    unfold bind at 1. unfold read at 1.
    unfold identification, face_events. fold (readout det s).
    change (faceMatcher (readout det s)) with (faceMatcher s). rewrite Hs.
    assert (flat_map (fun pt => [Canvas (FillArc pt)]) (det_landmarks det)
            = map (fun pt => Canvas (FillArc pt)) (det_landmarks det)) as ->.
    { induction (det_landmarks det) as [|p l IH]; [reflexivity|].
      cbn [flat_map map app]. rewrite IH. reflexivity. }
    destruct (faceMatcher st) as [m|], (det_descriptor det) as [d|];
      try (unfold ret; cbn [app]; rewrite ?app_nil_r; reflexivity).
    cbv zeta. destruct (negb _); unfold bind, emit, ret; cbn [app];
      rewrite ?app_nil_r; reflexivity.
Qed.

End TickFacts.

Lemma fold_readout_outside (dets : list Detection) (st : state) :
  same_outside_display st (fold_left (fun s det => readout det s) dets st).
Proof.
  revert st. induction dets as [|d l IH]; intros st; cbn [fold_left].
  - repeat split.
  - destruct (IH (readout d st)) as (H1&H2&H3&H4&H5&H6&H7&H8&H9&H10&H11&H12).
    repeat split; assumption.
Qed.

Lemma tick_outside_display (findBestMatch : FaceMatcher -> list number -> BestMatch)
    (detect : DetectorOptions -> list Detection) (st : state) :
  same_outside_display st (final (tick findBestMatch detect st)).
Proof.
  unfold tick.
  destruct (negb (running st)); [repeat split|].
  destruct (negb (isModelsLoaded st)); [repeat split|].
  cbv zeta. unfold final. cbn [fst snd].
  destruct (fold_readout_outside (detect (SsdMobilenetv1Options n0_5))
              (with_detectionOptions (configured st) st))
    as (H1&H2&H3&H4&H5&H6&H7&H8&H9&H10&H11&H12).
  repeat split; assumption.
Qed.

Section TickProps.

Variable findBestMatch : FaceMatcher -> list number -> BestMatch.

(** The identified list after a tick is the list of this frame: one
    entry, in detection order, for each face that has a descriptor and
    whose best match in the matcher is not [unknown].  Without a matcher
    the list is empty and no label is drawn at all. *)
Theorem tick_lists_the_faces_of_the_frame (detect : DetectorOptions -> list Detection)
    (st : state) :
  running st = true -> isModelsLoaded st = true ->
  identifiedList (final (detectionLoop findBestMatch detect st))
  = identifications findBestMatch (faceMatcher st) (detect (SsdMobilenetv1Options n0_5)) /\
  (faceMatcher st = None ->
   identifiedList (final (detectionLoop findBestMatch detect st)) = [] /\
   existsb is_label_event (trace (detectionLoop findBestMatch detect st)) = false).
Proof.
  intros Hrun Hloaded. rewrite detectionLoop_run. unfold tick.
  rewrite Hrun, Hloaded. cbn [negb]. cbv zeta. unfold final, trace. cbn [fst snd].
  split; [reflexivity|]. intros ->. cbn [identifiedList with_identifiedList].
  split.
  - unfold identifications. induction (detect _) as [|d l IH]; [reflexivity|].
    cbn [flat_map identification app]. exact IH.
  - cbn [existsb is_label_event orb]. rewrite existsb_app. cbn [existsb is_label_event orb].
    rewrite orb_false_r.
    induction (detect _) as [|d l IH]; [reflexivity|].
    cbn [flat_map]. rewrite existsb_app, IH, orb_false_r.
    unfold face_events. cbn [existsb is_label_event orb]. rewrite app_nil_r.
    induction (det_landmarks d) as [|p ps IHp]; [reflexivity|]. exact IHp.
Qed.

(** A tick leaves the store, the matcher, the count, the flags and the
    controls as they are. *)
Theorem tick_changes_only_the_display (detect : DetectorOptions -> list Detection)
    (st : state) :
  same_outside_display st (final (detectionLoop findBestMatch detect st)) /\
  Forall (fun e => storage_key e = None) (trace (detectionLoop findBestMatch detect st)).
Proof.
  rewrite detectionLoop_run. split; [apply tick_outside_display|].
  unfold tick.
  destruct (negb (running st)); [constructor|].
  destruct (negb (isModelsLoaded st)); [repeat constructor|].
  cbv zeta. unfold trace. cbn [snd].
  constructor; [reflexivity|]. constructor; [reflexivity|].
  apply Forall_app. split; [|repeat constructor].
  apply Forall_flat_map. apply Forall_forall. intros d _.
  unfold face_events. constructor; [reflexivity|].
  apply Forall_app. split.
  - apply Forall_map, Forall_forall. intros p _. reflexivity.
  - destruct (faceMatcher st), (det_descriptor d); repeat constructor.
Qed.

(** A tick of the running loop asks for the next frame exactly once,
    as its last effect; a tick of the stopped loop does nothing at all. *)
Theorem tick_requests_one_frame_while_running
    (detect : DetectorOptions -> list Detection) (st : state) :
  (running st = true ->
   exists before,
     trace (detectionLoop findBestMatch detect st) = before ++ [RequestAnimationFrame] /\
     existsb is_frame_request before = false) /\
  (running st = false -> detectionLoop findBestMatch detect st = (Return tt, st, [])).
Proof.
  rewrite detectionLoop_run. unfold tick.
  destruct (running st); cbn [negb].
  2:{ split; [discriminate|reflexivity]. }
  split; [intros _|discriminate].
  destruct (negb (isModelsLoaded st)).
  { exists []. split; reflexivity. }
  cbv zeta. unfold trace. cbn [snd].
  eexists (_ :: _ :: _). split; [reflexivity|].
  cbn [existsb is_frame_request orb].
  induction (detect _) as [|d l IH]; [reflexivity|].
  cbn [flat_map]. rewrite existsb_app, IH, orb_false_r.
  unfold face_events. cbn [existsb is_frame_request orb]. rewrite existsb_app.
  assert (existsb is_frame_request
            (map (fun pt => Canvas (FillArc pt)) (det_landmarks d)) = false) as ->.
  { induction (det_landmarks d) as [|p ps IHp]; [reflexivity|]. exact IHp. }
  destruct (faceMatcher st), (det_descriptor d); reflexivity.
Qed.

(** After [stopVideo] a tick that was still pending does nothing: no
    detection, no drawing, no further frame. *)
Theorem stop_ends_the_loop (detect : DetectorOptions -> list Detection) (st : state) :
  detectionLoop findBestMatch detect (final (stopVideo st))
  = (Return tt, final (stopVideo st), []).
Proof.
  rewrite detectionLoop_run. unfold tick.
  assert (running (final (stopVideo st)) = false) as ->; [|reflexivity].
  unfold stopVideo, bind, read, update, emit, ret, final.
  destruct (stream st); reflexivity.
Qed.

End TickProps.

Lemma tick_requests_one_frame_while_running_witness :
  exists before,
    trace (detectionLoop alice_matcher (fun _ => [known_face]) watching)
    = before ++ [RequestAnimationFrame] /\
    existsb is_frame_request before = false.
Proof.
  apply (tick_requests_one_frame_while_running alice_matcher
           (fun _ => [known_face]) watching).
  reflexivity.
Defined.

Lemma tick_lists_the_faces_of_the_frame_witness :
  identifiedList (final (detectionLoop alice_matcher (fun _ => [sample_face; known_face])
                           watching))
  = [{| id_name := "Alice"; id_distance := of_literal "0.3"; id_box := det_box known_face |}].
Proof.
  destruct (tick_lists_the_faces_of_the_frame alice_matcher
              (fun _ => [sample_face; known_face]) watching eq_refl eq_refl) as [H _].
  rewrite H. reflexivity.
Defined.

(** A face shows a dash for its expression exactly when it carries no
    expressions, or an empty map of them. *)
Theorem face_without_expressions_shows_a_dash (det : Detection) :
  expression_text det = Dash
  <-> det_expressions det = None \/ det_expressions det = Some [].
Proof.
  unfold expression_text, maxExp.
  destruct (det_expressions det) as [[|e l]|].
  - split; [intros _; right; reflexivity|reflexivity].
  - unfold Array_sort. cbn [foldr]. rewrite head_sort_insert.
    split; [|intros [H|H]; discriminate].
    destruct (head _) as [y|]; [|destruct e; discriminate].
    destruct (sub_sign _ _) as [[]|]; [destruct e| destruct e|destruct y|destruct e];
      discriminate.
  - split; [intros _; left; reflexivity|reflexivity].
Qed.

Section Readouts.

Variable findBestMatch : FaceMatcher -> list number -> BestMatch.

(** After a tick that detects faces the three readouts are those of the
    last face detected; after a tick that detects none they still show
    what they showed before, while the identified list is emptied. *)
Theorem tick_readouts_follow_the_last_face (detect : DetectorOptions -> list Detection)
    (st : state) :
  running st = true -> isModelsLoaded st = true ->
  let run := detectionLoop findBestMatch detect st in
  (forall dets det,
     detect (SsdMobilenetv1Options n0_5) = dets ++ [det] ->
     expressionsEl (final run) = expression_text det /\
     ageEl (final run)
     = (if Num.truthy (det_age det) then ShownAge (det_age det) else Dash) /\
     genderEl (final run)
     = match det_gender det with
       | Some g => if String.eqb g "" then Dash
                   else ShownGender g (det_genderProbability det)
       | None => Dash
       end) /\
  (detect (SsdMobilenetv1Options n0_5) = [] ->
   expressionsEl (final run) = expressionsEl st /\
   ageEl (final run) = ageEl st /\
   genderEl (final run) = genderEl st /\
   identifiedList (final run) = []).
Proof.
  intros Hrun Hloaded. cbv zeta. rewrite detectionLoop_run. unfold tick.
  rewrite Hrun, Hloaded. cbn [negb]. cbv zeta. unfold final. cbn [fst snd]. split.
  - intros dets det ->. rewrite fold_left_app. cbn [fold_left]. repeat split.
  - intros ->. repeat split.
Qed.

End Readouts.

Lemma tick_readouts_follow_the_last_face_witness :
  expressionsEl (final (detectionLoop alice_matcher (fun _ => [known_face; sample_face])
                          watching))
  = ShownExpression "happy" (of_literal "0.7").
Proof.
  destruct (tick_readouts_follow_the_last_face alice_matcher
              (fun _ => [known_face; sample_face]) watching eq_refl eq_refl) as [H _].
  destruct (H [known_face] sample_face eq_refl) as [E _].
  rewrite E. reflexivity.
Defined.

(** ** The descriptor database *)

(** A confirmed clear removes the persisted store and leaves no
    matcher and a count of zero; a declined one changes nothing. *)
Theorem clear_empties_store_and_matcher (st : state) :
  (let run := btnClearDB_click true st in
   outcome run = Return tt /\
   localStorage (final run) = delete LS_DB_KEY (localStorage st) /\
   stored (final run) = JObj [] /\
   faceMatcher (final run) = None /\
   dbCount (final run) = Some 0%nat) /\
  btnClearDB_click false st = (Return tt, st, [Confirm "Clear all registered faces?"]).
Proof.
  rewrite !btnClearDB_click_run. cbv zeta. unfold outcome, final. cbn [fst snd].
  repeat split. apply (stored_removed st).
Qed.






Section RegistrationResult.

Variable detectSingleFace : File -> DetectorOptions -> option (list number).


(** Registration asks for images and for loaded models before it looks
    at anything: without them it alerts and does nothing else. *)
Theorem registration_needs_images_and_models (st : state) :
  trim (labelNameInput st) <> "" ->
  (labeledImagesInput st = [] ->
   registerLabeledFaces detectSingleFace st
   = (Return tt, st, [Alert "Choose one or more images for this person"])) /\
  (labeledImagesInput st <> [] -> isModelsLoaded st = false ->
   registerLabeledFaces detectSingleFace st
   = (Return tt, st, [Alert "Load models first"])).
Proof.
  intros Hname. rewrite registerLabeledFaces_run. unfold registration.
  destruct (String.eqb_spec (trim (labelNameInput st)) "") as [E|_]; [contradiction|].
  split.
  - intros ->. reflexivity.
  - intros Hfiles ->. destruct (labeledImagesInput st); [contradiction|reflexivity].
Qed.

End RegistrationResult.


Lemma registration_needs_images_and_models_witness :
  registerLabeledFaces sample_detector (unloaded (registering "Alice"))
  = (Return tt, unloaded (registering "Alice"), [Alert "Load models first"]).
Proof.
  apply (registration_needs_images_and_models sample_detector
           (unloaded (registering "Alice")));
    [discriminate|discriminate|reflexivity].
Defined.

Lemma trim_text_nil (s : text) : trim_text s = [] <-> forallb is_js_space s = true.
Proof.
  unfold trim_text. split.
  - intros H. apply (f_equal (@rev ascii)) in H. rewrite rev_involutive in H.
    cbn [rev] in H. apply drop_while_nil in H. rewrite forallb_rev in H.
    destruct (drop_while_suffix is_js_space s) as (pre & Hpre & Hhead).
    destruct (drop_while is_js_space s) as [|c r] eqn:E; [apply drop_while_nil, E|].
    cbn [forallb] in H. rewrite Hhead in H. discriminate.
  - intros H. apply drop_while_nil in H. rewrite H. reflexivity.
Qed.

Lemma trim_empty (s : string) :
  trim s = "" <-> forallb is_js_space (list_ascii_of_string s) = true.
Proof.
  unfold trim. rewrite <- trim_text_nil. split.
  - intros H. apply (f_equal list_ascii_of_string) in H.
    rewrite list_ascii_of_string_of_list_ascii in H. exact H.
  - intros ->. reflexivity.
Qed.

Section Names.

Variable detectSingleFace : File -> DetectorOptions -> option (list number).

(** For a name of characters below U+0100, registration answers
    'Enter a name to register', and does nothing else, exactly when the
    name is empty or made of white space only. *)
Theorem blank_names_are_the_ones_refused (st : state) :
  forallb is_js_space (list_ascii_of_string (labelNameInput st)) = true
  <-> registerLabeledFaces detectSingleFace st
      = (Return tt, st, [Alert "Enter a name to register"]).
Proof.
  rewrite <- trim_empty, registerLabeledFaces_run. unfold registration.
  destruct (String.eqb_spec (trim (labelNameInput st)) "") as [E|Hne].
  { split; [reflexivity|intros _; exact E]. }
  split; [contradiction|]. intros H. exfalso.
  destruct (labeledImagesInput st) as [|f files] eqn:Ef; [discriminate|].
  cbn [length Nat.eqb] in H.
  destruct (negb (isModelsLoaded st)); [discriminate|].
  assert (exists more, detection_trace detectSingleFace (f :: files)
                       = DetectSingleFace f (TinyFaceDetectorOptions None) :: more)
    as [more Hseen] by (eexists; reflexivity).
  rewrite Hseen in H.
  destruct (Nat.eqb _ 0); [discriminate|].
  destruct (appended _ _ _); [|discriminate].
  cbv zeta in H. destruct (labeled_groups _); discriminate.
Qed.

(** A registration that gets past its three checks runs the single-face
    detector once on every chosen image, in order, each time with the
    default tiny-detector options, whatever the detection controls say;
    it warns, by name, about exactly the images in which no face is
    found, and the descriptors it collects are those of the others. *)
Theorem registration_examines_every_image_once (st : state) :
  trim (labelNameInput st) <> "" ->
  labeledImagesInput st <> [] ->
  isModelsLoaded st = true ->
  let tr := trace (registerLabeledFaces detectSingleFace st) in
  single_face_detections tr
  = map (fun f => (f, TinyFaceDetectorOptions None)) (labeledImagesInput st) /\
  warnings tr
  = map file_name
      (List.filter (fun f => match detectSingleFace f (TinyFaceDetectorOptions None) with
                             | None => true
                             | Some _ => false
                             end) (labeledImagesInput st)) /\
  (length (detected detectSingleFace (labeledImagesInput st)) + length (warnings tr)
   = length (labeledImagesInput st))%nat.
Proof.
  intros Hname Hfiles Hloaded. cbv zeta.
  assert (forall files,
            single_face_detections (detection_trace detectSingleFace files)
            = map (fun f => (f, TinyFaceDetectorOptions None)) files /\
            warnings (detection_trace detectSingleFace files)
            = map file_name
                (List.filter (fun f => match detectSingleFace f (TinyFaceDetectorOptions None) with
                                       | None => true
                                       | Some _ => false
                                       end) files) /\
            (length (detected detectSingleFace files)
             + length (warnings (detection_trace detectSingleFace files))
             = length files)%nat) as Hseen.
  { induction files as [|f files (IH1 & IH2 & IH3)]; [repeat split|].
    cbn [detection_trace detected flat_map]. fold (detection_trace detectSingleFace files).
    fold (detected detectSingleFace files).
    unfold single_face_detections, warnings in *. cbn [flat_map app List.filter map].
    destruct (detectSingleFace f (TinyFaceDetectorOptions None));
      cbn [flat_map app map length]; rewrite IH1, IH2; repeat split;
      rewrite ?length_app; cbn [length]; rewrite <- ?IH2; lia. }
  assert (forall rest,
            Forall (fun e => match e with
                             | DetectSingleFace _ _ | Warn _ _ => False
                             | _ => True
                             end) rest ->
            let tr := detection_trace detectSingleFace (labeledImagesInput st) ++ rest in
            single_face_detections tr
            = single_face_detections (detection_trace detectSingleFace (labeledImagesInput st)) /\
            warnings tr
            = warnings (detection_trace detectSingleFace (labeledImagesInput st))) as Hrest.
  { intros rest Hr. cbv zeta. unfold single_face_detections, warnings.
    rewrite !flat_map_app.
    assert (flat_map (fun e => match e with DetectSingleFace f o => [(f, o)] | _ => [] end) rest
            = [] /\
            flat_map (fun e => match e with Warn _ name => [name] | _ => [] end) rest = [])
      as [-> ->].
    { induction Hr as [|e l He Hl [IH1 IH2]]; [split; reflexivity|].
      cbn [flat_map]. rewrite IH1, IH2. destruct e; try contradiction; split; reflexivity. }
    rewrite !app_nil_r. split; reflexivity. }
  destruct (Hseen (labeledImagesInput st)) as (H1 & H2 & H3).
  assert (exists rest,
            trace (registerLabeledFaces detectSingleFace st)
            = detection_trace detectSingleFace (labeledImagesInput st) ++ rest /\
            Forall (fun e => match e with
                             | DetectSingleFace _ _ | Warn _ _ => False
                             | _ => True
                             end) rest) as (rest & -> & Hr).
  { rewrite registerLabeledFaces_run. unfold registration.
    destruct (String.eqb_spec (trim (labelNameInput st)) "") as [E|_]; [contradiction|].
    destruct (labeledImagesInput st) as [|f files] eqn:Ef; [contradiction|].
    cbn [length Nat.eqb]. rewrite Hloaded. cbn [negb].
    destruct (Nat.eqb _ 0); [eexists; split; [reflexivity|repeat constructor]|].
    destruct (appended _ _ _); [|eexists; split; [reflexivity|repeat constructor]].
    cbv zeta. destruct (labeled_groups _);
      eexists; (split; [reflexivity|repeat constructor]). }
  destruct (Hrest rest Hr) as [-> E2]. rewrite E2.
  repeat split; assumption.
Qed.

End Names.

Lemma registration_examines_every_image_once_witness :
  let tr := trace (registerLabeledFaces sample_detector (registering "Alice")) in
  single_face_detections tr
  = map (fun f => (f, TinyFaceDetectorOptions None)) two_images /\
  warnings tr = ["blank.png"].
Proof.
  pose proof (registration_examines_every_image_once sample_detector (registering "Alice")
                ltac:(discriminate) ltac:(discriminate) eq_refl) as H.
  cbv zeta in H. destruct H as (H1 & H2 & _).
  split; [exact H1|rewrite H2; reflexivity].
Defined.

Lemma collect_throws {A B} (l : list A) (f : A -> result (option B)) (x : A) (e : exn) :
  x ∈ l -> f x = Throw e ->
  (forall y e', f y = Throw e' -> e' = e) ->
  collect l f = Throw e.
Proof.
  intros Hin Hx Hall. induction l as [|y l IH]; [apply elem_of_nil in Hin; destruct Hin|].
  cbn [collect]. apply elem_of_cons in Hin as [<-|Hin].
  - rewrite Hx. reflexivity.
  - destruct (f y) as [r|e'] eqn:E.
    + rewrite (IH Hin). reflexivity.
    + rewrite (Hall _ _ E). reflexivity.
Qed.

Lemma labeled_group_throws (members : list (string * value)) (k : string) (e : exn) :
  labeled_group (JObj members) k = Throw e -> e = TypeError.
Proof.
  unfold labeled_group. rewrite get_object.
  destruct (map_Float32Array _) eqn:E; [discriminate|].
  intros H. injection H as <-. unfold map_Float32Array in E.
  destruct (match obj_get members k with Some v => Own v | None => _ end) as [ | |[]];
    try discriminate; injection E as <-; reflexivity.
Qed.

(** The matcher rebuild needs an array under every name: when the
    stored object has a name that maps to anything else, or when the
    stored value is [null], the rebuild throws and leaves the matcher
    and the count as they were. *)
Theorem rebuild_fails_on_an_entry_that_is_no_array (st : state) :
  (stored st = JNull \/
   exists members k v,
     stored st = JObj members /\ obj_get members k = Some v /\
     forall ds, v <> JArr ds) ->
  exists e, makeFaceMatcherFromStorage st = (Throw e, st, [GetItem LS_DB_KEY]).
Proof.
  intros H. exists TypeError. rewrite makeFaceMatcherFromStorage_run.
  destruct H as [->|(members & k & v & -> & Hk & Hv)]; [reflexivity|].
  unfold labeled_groups. cbn [Object_keys].
  rewrite (collect_throws (map fst members) (labeled_group (JObj members)) k TypeError).
  - reflexivity.
  - destruct (decide (k ∈ map fst members)) as [Hin|Hout]; [exact Hin|].
    apply obj_get_None in Hout. congruence.
  - unfold labeled_group. rewrite get_object, Hk.
    destruct v; try reflexivity. exfalso. exact (Hv _ eq_refl).
  - intros y e'. apply labeled_group_throws.
Qed.

Lemma rebuild_fails_on_an_entry_that_is_no_array_witness :
  exists e,
    makeFaceMatcherFromStorage broken_entry_state
    = (Throw e, broken_entry_state, [GetItem LS_DB_KEY]).
Proof.
  apply (rebuild_fails_on_an_entry_that_is_no_array broken_entry_state).
  right. exists [("Alice", JNum (of_literal "5"))], "Alice", (JNum (of_literal "5")).
  repeat split. discriminate.
Defined.

(** A rebuild that returns leaves a state that a second rebuild does
    not change. *)
Theorem rebuild_is_idempotent (st : state) :
  outcome (makeFaceMatcherFromStorage st) = Return tt ->
  makeFaceMatcherFromStorage (final (makeFaceMatcherFromStorage st))
  = (Return tt, final (makeFaceMatcherFromStorage st), [GetItem LS_DB_KEY]).
Proof.
  rewrite makeFaceMatcherFromStorage_run.
  destruct (labeled_groups (stored st)) as [groups|e] eqn:E; [|discriminate].
  intros _. unfold final. cbn [fst snd]. apply in_sync_with_matcher, E.
Qed.

Lemma rebuild_is_idempotent_witness :
  makeFaceMatcherFromStorage (final (makeFaceMatcherFromStorage watching))
  = (Return tt, final (makeFaceMatcherFromStorage watching), [GetItem LS_DB_KEY]).
Proof. apply (rebuild_is_idempotent watching). reflexivity. Defined.

(** Whatever value is saved, non-finite numbers included, is loaded
    back with each non-finite number replaced by [null] and everything
    else as it was. *)
Theorem saveDB_loadDB_nulls_non_finite_numbers (v : value) (st : state) :
  well_formed v = true ->
  loadDB (final (saveDB v st)) = (Return (sanitize v), final (saveDB v st), [GetItem LS_DB_KEY]).
Proof.
  intros Hwf. rewrite loadDB_run, saveDB_run. unfold final. cbn [fst snd].
  rewrite (stored_stringify _ v); [reflexivity| |exact Hwf].
  rewrite with_localStorage_lookup. apply lookup_insert_eq.
Qed.

Lemma saveDB_loadDB_nulls_non_finite_numbers_witness :
  outcome (loadDB (final (saveDB nan_store initial)))
  = Return (JObj [("Alice", JArr [JArr [JNull; JNum (of_literal "0.5")]])]).
Proof.
  rewrite (saveDB_loadDB_nulls_non_finite_numbers nan_store initial eq_refl).
  reflexivity.
Defined.

(** The import handler once the text has parsed. *)
Lemma import_of_parsed (text : string) (document : value) (st : state) :
  parse text = Some document ->
  import_of text st
  = (let st1 := with_localStorage (insert LS_DB_KEY (stringify document)) st in
     let written := [SetItem LS_DB_KEY (stringify document); GetItem LS_DB_KEY] in
     match labeled_groups document with
     | Return groups =>
         (Return tt, with_matcher (length groups) (matcher_over groups) st1,
          written ++ [Alert "Imported DB successfully"])
     | Throw _ => (Return tt, st1, written ++ [Alert "Invalid JSON file"])
     end) /\
  stored (with_localStorage (insert LS_DB_KEY (stringify document)) st) = document.
Proof.
  intros Hparse. pose proof (parse_json_value _ _ Hparse) as Hj.
  split; [|apply stored_saved, Hj].
  unfold import_of. rewrite Hparse. cbv zeta. rewrite (stored_saved st _ Hj). reflexivity.
Qed.

Section StaleMatcher.

Variable detectSingleFace : File -> DetectorOptions -> option (list number).
Variable findBestMatch : FaceMatcher -> list number -> BestMatch.

(** C5 fails on the code for an import that parses and is not a store:
    the document, in which some name maps to something that is not an
    array, is written to the store first; the rebuild that follows
    throws; the exception is caught and reported as an invalid file.
    Control returns with the store overwritten and the matcher and the
    count as they were: the matcher no longer reflects the store, and a
    rebuild from it fails. *)
Theorem import_of_a_non_store_leaves_the_matcher_stale (f : File) (more : list File)
    (st : state) (members : list (string * value)) (k : string) (v : value) :
  parse (file_text f) = Some (JObj members) ->
  obj_get members k = Some v ->
  (forall ds, v <> JArr ds) ->
  let run := handle detectSingleFace findBestMatch (Import (f :: more)) st in
  outcome run = Return tt /\
  (exists text,
     trace run = [SetItem LS_DB_KEY text; GetItem LS_DB_KEY; Alert "Invalid JSON file"] /\
     localStorage (final run) = <[LS_DB_KEY := text]> (localStorage st)) /\
  faceMatcher (final run) = faceMatcher st /\
  dbCount (final run) = dbCount st /\
  ~ in_sync (final run).
Proof.
  intros Hparse Hk Hv. cbv zeta. cbn [handle].
  rewrite importFileInput_change_run.
  destruct (import_of_parsed _ _ st Hparse) as [-> Hst]. cbv zeta.
  assert (labeled_groups (JObj members) = Throw TypeError) as Hthrow.
  { unfold labeled_groups. cbn [Object_keys].
    apply (collect_throws (map fst members) (labeled_group (JObj members)) k TypeError).
    - destruct (decide (k ∈ map fst members)) as [Hin|Hout]; [exact Hin|].
      apply obj_get_None in Hout. congruence.
    - unfold labeled_group. rewrite get_object, Hk.
      destruct v; try reflexivity. exfalso. exact (Hv _ eq_refl).
    - intros y e'. apply labeled_group_throws. }
  rewrite Hthrow. unfold outcome, final, trace. cbn [fst snd app].
  split; [reflexivity|]. split; [eexists; split; reflexivity|].
  split; [reflexivity|]. split; [reflexivity|].
  unfold in_sync. rewrite makeFaceMatcherFromStorage_run, Hst, Hthrow. discriminate.
Qed.

End StaleMatcher.

(** With Alice registered and the matcher in sync, the import of
    [{'Alice':5}]. *)
Lemma import_of_a_non_store_leaves_the_matcher_stale_witness :
  let run := handle sample_detector alice_matcher
               (Import [{| file_name := "db.json"; file_text := doc "{'Alice':5}" |}])
               watching in
  in_sync watching /\
  outcome run = Return tt /\
  stored (final run) = JObj [("Alice", JNum (of_literal "5"))] /\
  faceMatcher (final run) = faceMatcher watching /\
  ~ in_sync (final run).
Proof.
  pose proof (import_of_a_non_store_leaves_the_matcher_stale sample_detector alice_matcher
                {| file_name := "db.json"; file_text := doc "{'Alice':5}" |} [] watching
                [("Alice", JNum (of_literal "5"))] "Alice" (JNum (of_literal "5"))
                eq_refl eq_refl ltac:(discriminate)) as H.
  cbv zeta in H. destruct H as (Hout & _ & Hm & _ & Hstale).
  cbv zeta. split; [reflexivity|]. split; [exact Hout|].
  split; [reflexivity|]. split; [exact Hm|exact Hstale].
Defined.

(** An import writes whatever document parses, store or not, before it
    looks at it.  For a document whose numbers are within the range of
    doubles: the handler returns normally, the key is overwritten, and
    [loadDB] afterwards returns the document; when the matcher cannot be
    rebuilt from it, the matcher and the count stay as they were and the
    alert calls the file invalid. *)
Theorem import_persists_before_it_validates (f : File) (more : list File) (st : state)
    (document : value) :
  parse (file_text f) = Some document ->
  numbers_in_range document = true ->
  let run := importFileInput_change (f :: more) st in
  outcome run = Return tt /\
  (exists text, localStorage (final run) = <[LS_DB_KEY := text]> (localStorage st)) /\
  stored (final run) = document /\
  (forall e, labeled_groups document = Throw e ->
     faceMatcher (final run) = faceMatcher st /\
     dbCount (final run) = dbCount st /\
     exists text,
       trace run = [SetItem LS_DB_KEY text; GetItem LS_DB_KEY; Alert "Invalid JSON file"]).
Proof.
  intros Hparse _. cbv zeta. rewrite importFileInput_change_run.
  destruct (import_of_parsed _ _ st Hparse) as [-> Hst]. cbv zeta.
  destruct (labeled_groups document) as [groups|e];
    unfold outcome, final, trace; cbn [fst snd];
    rewrite ?(stored_ext (with_localStorage (insert LS_DB_KEY (stringify document)) st))
      by reflexivity.
  - split; [reflexivity|]. split; [eexists; reflexivity|]. split; [exact Hst|].
    discriminate.
  - split; [reflexivity|]. split; [eexists; reflexivity|]. split; [exact Hst|].
    intros _ _. split; [reflexivity|]. split; [reflexivity|]. eexists. reflexivity.
Qed.

Lemma import_persists_before_it_validates_witness :
  let run := importFileInput_change
               [{| file_name := "db.json"; file_text := doc "{'Alice':5}" |}] watching in
  stored (final run) = JObj [("Alice", JNum (of_literal "5"))] /\
  faceMatcher (final run) = faceMatcher watching.
Proof.
  pose proof (import_persists_before_it_validates
                {| file_name := "db.json"; file_text := doc "{'Alice':5}" |} [] watching
                (JObj [("Alice", JNum (of_literal "5"))]) eq_refl eq_refl) as H.
  cbv zeta in H. destruct H as (_ & _ & Hst & H).
  destruct (H TypeError eq_refl) as (Hm & _ & _).
  split; assumption.
Defined.

Lemma btnExport_click_run (st : state) :
  btnExport_click st
  = (Return tt, st,
     [GetItem LS_DB_KEY; Download "facelab_db.json" (stringify (stored st))]).
Proof. unfold btnExport_click, bind. rewrite loadDB_run. reflexivity. Qed.

(** Export never fails and changes nothing; what it offers for download
    is always a document that [JSON.parse] accepts: the empty object
    when nothing is persisted or the persisted text is corrupt, and,
    when the numbers loaded are within the range of doubles, a document
    that reads as the value [loadDB] returns. *)
Theorem export_downloads_a_valid_document (st : state) :
  exists text,
    btnExport_click st
    = (Return tt, st, [GetItem LS_DB_KEY; Download "facelab_db.json" text]) /\
    (exists v, parse text = Some v) /\
    (numbers_in_range (stored st) = true -> parse text = Some (stored st)) /\
    (localStorage st !! LS_DB_KEY = None \/
     (exists s, localStorage st !! LS_DB_KEY = Some s /\ parse s = None) ->
     text = "{}").
Proof.
  exists (stringify (stored st)). split; [apply btnExport_click_run|].
  pose proof (stored_json_value st) as Hj.
  destruct (json_value_sound _ Hj) as [Hwf Hsan].
  assert (parse (stringify (stored st)) = Some (stored st)) as E
    by (rewrite (parse_stringify _ Hwf), Hsan; reflexivity).
  split; [eexists; exact E|]. split; [intros _; exact E|].
  unfold stored. intros [->|(s & -> & Hs)]; [reflexivity|].
  destruct (String.eqb s ""); [reflexivity|]. rewrite Hs. reflexivity.
Qed.

Lemma export_downloads_a_valid_document_witness :
  exists text,
    btnExport_click watching
    = (Return tt, watching, [GetItem LS_DB_KEY; Download "facelab_db.json" text]) /\
    parse text = Some alice_store.
Proof.
  destruct (export_downloads_a_valid_document watching) as (text & E & _ & H & _).
  exists text. split; [exact E|]. exact (H eq_refl).
Defined.



(** ** Options, models and camera *)

(** When the input size and the threshold fields hold no number, or
    zero, the options are built from 320 and 0.5. *)
Theorem options_fall_back_to_defaults (st : state) :
  Num.truthy (parseInt (inputSizeEl st)) = false ->
  Num.truthy (parseFloat (scoreThresholdEl st)) = false ->
  updateDetectionOptions st
  = (Return tt,
     with_detectionOptions
       (if String.eqb (detectionModelSelect st) "tiny"
        then TinyFaceDetectorOptions (Some (n320, n0_5))
        else SsdMobilenetv1Options n0_5) st,
     []).
Proof.
  intros Hsize Hscore. rewrite updateDetectionOptions_run.
  unfold configured. rewrite Hsize, Hscore. reflexivity.
Qed.

Lemma options_fall_back_to_defaults_witness :
  detectionOptions (final (updateDetectionOptions blank_controls))
  = Some (TinyFaceDetectorOptions (Some (n320, n0_5))).
Proof.
  rewrite (options_fall_back_to_defaults blank_controls eq_refl eq_refl).
  reflexivity.
Defined.

(** [loadModels] with the model files available, in closed form. *)
Lemma loadModels_run (st : state) :
  loadModels true st
  = let st1 := with_models true Loaded (with_models (isModelsLoaded st) Loading st) in
    let fetched := map (fun net => LoadFromUri net "/models") nets in
    match labeled_groups (stored st) with
    | Return groups =>
        (Return tt, with_matcher (length groups) (matcher_over groups) st1,
         fetched ++ [GetItem LS_DB_KEY])
    | Throw _ =>
        (Return tt, with_models true LoadFailed st1,
         fetched ++ [GetItem LS_DB_KEY; ConsoleError])
    end.
Proof.
  unfold loadModels.
  unfold bind at 1. unfold read at 1.
  unfold bind at 1. unfold update at 1.
  unfold try_catch.
  unfold bind at 1.
  rewrite (for_each_events nets _ (fun _ => @None unit)
             (fun net => [LoadFromUri net "/models"])) by reflexivity.
  unfold bind at 1. unfold ret at 1.
  unfold bind at 1. unfold update at 1.
  rewrite makeFaceMatcherFromStorage_run.
  rewrite (stored_ext st) by reflexivity.
  pose proof (labeled_groups_in_model (stored st)) as Hin.
  destruct (labeled_groups (stored st)) as [groups|e]; [reflexivity|].
  destruct e; try reflexivity. contradiction.
Qed.

(** A model load that fetches every net sets the loaded flag and
    rebuilds the matcher from the store, with one group per name of a
    well-formed store; when the rebuild throws, the exception is caught
    with the flag already set, the matcher is left as it was and the
    status reports a loading error.  A load that cannot fetch the model
    files is logged and reported in the status; the flag, the matcher
    and the store stay as they were and the store is not read. *)
Theorem model_load_rebuilds_the_matcher (st : state) :
  (let run := loadModels true st in
   outcome run = Return tt /\
   isModelsLoaded (final run) = true /\
   localStorage (final run) = localStorage st /\
   (forall members,
      stored st = JObj members -> well_formed_store (JObj members) = true ->
      faceMatcher (final run) = matcher_over (map group_of members) /\
      dbCount (final run) = Some (length members) /\
      modelsStatus (final run) = Loaded) /\
   (forall e,
      labeled_groups (stored st) = Throw e ->
      faceMatcher (final run) = faceMatcher st /\
      modelsStatus (final run) = LoadFailed)) /\
  (let run := loadModels false st in
   outcome run = Return tt /\
   isModelsLoaded (final run) = isModelsLoaded st /\
   modelsStatus (final run) = LoadFailed /\
   faceMatcher (final run) = faceMatcher st /\
   localStorage (final run) = localStorage st /\
   existsb touches_storage (trace run) = false).
Proof.
  split; cbv zeta; [|repeat split].
  rewrite loadModels_run. cbv zeta.
  split; [destruct (labeled_groups (stored st)); reflexivity|].
  split; [destruct (labeled_groups (stored st)); reflexivity|].
  split; [destruct (labeled_groups (stored st)); reflexivity|].
  split.
  - intros members Hst HS. rewrite Hst.
    destruct (well_formed_store_arrays members HS) as [Hd Harr].
    rewrite (labeled_groups_of_arrays members Hd Harr), length_map. repeat split.
  - intros e ->. repeat split.
Qed.

Lemma model_load_rebuilds_the_matcher_witness :
  faceMatcher (final (loadModels true (unloaded watching))) = faceMatcher watching /\
  modelsStatus (final (loadModels true (unloaded watching))) = Loaded /\
  modelsStatus (final (loadModels true broken_entry_state)) = LoadFailed.
Proof.
  destruct (model_load_rebuilds_the_matcher (unloaded watching)) as [(_ & _ & _ & H & _) _].
  destruct (H [("Alice", JArr [alice_descriptor])] eq_refl eq_refl) as (Hm & _ & Hs).
  destruct (model_load_rebuilds_the_matcher broken_entry_state) as [(_ & _ & _ & _ & H') _].
  destruct (H' TypeError eq_refl) as [_ Hs'].
  repeat split; assumption.
Defined.

(** [stopVideo] stops the loop, releases a held stream and clears the
    overlay; store and matcher are untouched. *)
Theorem stop_releases_the_camera (st : state) :
  let run := stopVideo st in
  outcome run = Return tt /\
  running (final run) = false /\
  stream (final run) = false /\
  trace run = (if stream st then [StopTracks] else []) ++ [Canvas ClearRect] /\
  localStorage (final run) = localStorage st /\
  faceMatcher (final run) = faceMatcher st.
Proof.
  cbv zeta. unfold stopVideo, bind, read, update, emit, ret.
  destruct (stream st) eqn:E; cbn; rewrite ?E; repeat split.
Qed.

Section Startup.

Variable detectSingleFace : File -> DetectorOptions -> option (list number).
Variable findBestMatch : FaceMatcher -> list number -> BestMatch.

(** Page load computes the detection options from the controls, warns
    when the browser has no camera interface, and rebuilds the matcher
    from what is persisted: one group per name of a well-formed store;
    no matcher and a count of zero when nothing is persisted or the
    persisted text is corrupt.  It never writes. *)
Theorem page_load_restores_the_matcher (mediaDevices : bool) (st : state) :
  let run := handle detectSingleFace findBestMatch (PageLoad mediaDevices) st in
  detectionOptions (final run) = Some (configured st) /\
  localStorage (final run) = localStorage st /\
  trace run
  = (if mediaDevices then []
     else [Alert "Your browser does not support camera access. Use latest Chrome/Edge/Firefox/Safari."])
    ++ [GetItem LS_DB_KEY] /\
  (forall members,
     stored st = JObj members -> well_formed_store (JObj members) = true ->
     outcome run = Return tt /\
     faceMatcher (final run) = matcher_over (map group_of members) /\
     dbCount (final run) = Some (length members)) /\
  (localStorage st !! LS_DB_KEY = None \/
   (exists s, localStorage st !! LS_DB_KEY = Some s /\ parse s = None) ->
   outcome run = Return tt /\ faceMatcher (final run) = None /\
   dbCount (final run) = Some 0%nat).
Proof.
  cbv zeta. cbn [handle].
  assert (handle detectSingleFace findBestMatch (PageLoad mediaDevices) st
          = match labeled_groups (stored st) with
            | Return groups =>
                (Return tt,
                 with_matcher (length groups) (matcher_over groups)
                   (with_detectionOptions (configured st) st),
                 (if mediaDevices then []
                  else [Alert "Your browser does not support camera access. Use latest Chrome/Edge/Firefox/Safari."])
                 ++ [GetItem LS_DB_KEY])
            | Throw e =>
                (Throw e, with_detectionOptions (configured st) st,
                 (if mediaDevices then []
                  else [Alert "Your browser does not support camera access. Use latest Chrome/Edge/Firefox/Safari."])
                 ++ [GetItem LS_DB_KEY])
            end) as E.
  { cbn [handle]. unfold bind at 1. rewrite updateDetectionOptions_run.
    unfold bind at 1.
    assert ((if mediaDevices then ret tt
             else alert "Your browser does not support camera access. Use latest Chrome/Edge/Firefox/Safari.")
              (with_detectionOptions (configured st) st)
            = (Return tt, with_detectionOptions (configured st) st,
               if mediaDevices then []
               else [Alert "Your browser does not support camera access. Use latest Chrome/Edge/Firefox/Safari."]))
      as -> by (destruct mediaDevices; reflexivity).
    rewrite makeFaceMatcherFromStorage_run.
    rewrite (stored_ext st) by reflexivity.
    destruct (labeled_groups (stored st)); reflexivity. }
  cbn [handle] in E. rewrite E. clear E.
  split; [destruct (labeled_groups (stored st)); reflexivity|].
  split; [destruct (labeled_groups (stored st)); reflexivity|].
  split; [destruct (labeled_groups (stored st)); reflexivity|].
  split.
  - intros members Hst HS. rewrite Hst.
    destruct (well_formed_store_arrays members HS) as [Hd Harr].
    rewrite (labeled_groups_of_arrays members Hd Harr), length_map. repeat split.
  - intros H.
    assert (stored st = JObj []) as ->; [|repeat split].
    unfold stored. destruct H as [->|(s & -> & Hs)]; [reflexivity|].
    destruct (String.eqb s ""); [reflexivity|]. rewrite Hs. reflexivity.
Qed.

(** Start with the models already loaded fetches nothing.  With a
    camera it marks the loop running and runs the first tick; when the
    camera is refused it alerts, logs, and leaves the state as it was,
    the loop not started. *)
Theorem start_opens_the_camera_or_reports (available : bool)
    (detect : DetectorOptions -> list Detection) (st : state) :
  isModelsLoaded st = true ->
  (btnStart_click findBestMatch available true detect st
   = (Return tt,
      final (detectionLoop findBestMatch detect (with_camera true true st)),
      GetUserMedia :: trace (detectionLoop findBestMatch detect (with_camera true true st))) /\
   running (final (btnStart_click findBestMatch available true detect st)) = true) /\
  btnStart_click findBestMatch available false detect st
  = (Return tt, st,
     [GetUserMedia;
      Alert "Camera access denied or not available. Check permissions and that you are using https/http://localhost.";
      ConsoleError]).
Proof.
  intros Hloaded.
  assert (btnStart_click findBestMatch available true detect st
          = (Return tt,
             final (detectionLoop findBestMatch detect (with_camera true true st)),
             GetUserMedia
               :: trace (detectionLoop findBestMatch detect (with_camera true true st))))
    as E.
  { unfold btnStart_click.
    unfold bind at 1. unfold read at 1. rewrite Hloaded. cbn [negb].
    unfold bind at 1. unfold ret at 1. cbn [app].
    unfold startVideo, try_catch.
    unfold bind at 1. unfold emit at 1.
    unfold bind at 1. unfold ret at 1.
    unfold bind at 1. unfold update at 1. cbn [app].
    rewrite detectionLoop_run. unfold tick.
    cbn [running isModelsLoaded with_camera]. rewrite Hloaded. reflexivity. }
  split; [split; [exact E|]|].
  - rewrite E. unfold final at 1. cbn [fst snd].
    rewrite detectionLoop_run.
    destruct (tick_outside_display findBestMatch detect (with_camera true true st))
      as (_ & _ & _ & _ & -> & _).
    reflexivity.
  - unfold btnStart_click.
    unfold bind at 1. unfold read at 1. rewrite Hloaded. reflexivity.
Qed.

(** Start when the models cannot be loaded still opens the camera and
    sets the loop running: the first tick, like every later one, only
    asks for the next frame. *)
Theorem start_without_models_only_polls (detect : DetectorOptions -> list Detection)
    (st : state) :
  isModelsLoaded st = false ->
  let run := btnStart_click findBestMatch false true detect st in
  outcome run = Return tt /\
  running (final run) = true /\ stream (final run) = true /\
  isModelsLoaded (final run) = false /\ modelsStatus (final run) = LoadFailed /\
  (exists loading,
     trace run = loading ++ [GetUserMedia; RequestAnimationFrame] /\
     Forall (fun e => e = ConsoleError \/ exists net uri, e = LoadFromUri net uri) loading) /\
  detectionLoop findBestMatch detect (final run)
  = (Return tt, final run, [RequestAnimationFrame]).
Proof.
  intros Hloaded. cbv zeta.
  assert (btnStart_click findBestMatch false true detect st
          = (Return tt,
             with_camera true true
               (with_models false LoadFailed (with_models false Loading st)),
             [LoadFromUri "tinyFaceDetector" "/models"; ConsoleError]
             ++ [GetUserMedia; RequestAnimationFrame])) as ->.
  { unfold btnStart_click.
    unfold bind at 1. unfold read at 1. rewrite Hloaded. cbn [negb].
    unfold bind at 1.
    assert (loadModels false st
            = (Return tt, with_models false LoadFailed (with_models false Loading st),
               [LoadFromUri "tinyFaceDetector" "/models"; ConsoleError])) as ->.
    { unfold loadModels, bind, read, update, try_catch, emit, throw, ret.
      cbn. rewrite Hloaded. reflexivity. }
    unfold startVideo, try_catch.
    unfold bind at 1. unfold emit at 1.
    unfold bind at 1. unfold ret at 1.
    unfold bind at 1. unfold update at 1.
    rewrite detectionLoop_run. reflexivity. }
  unfold outcome, final, trace. cbn [fst snd].
  do 5 (split; [reflexivity|]). split.
  - eexists. split; [reflexivity|].
    constructor; [right; eexists _, _; reflexivity|].
    constructor; [left; reflexivity|constructor].
  - rewrite detectionLoop_run. reflexivity.
Qed.

End Startup.

Lemma page_load_restores_the_matcher_witness :
  let run := handle sample_detector alice_matcher (PageLoad false)
               (with_localStorage (insert LS_DB_KEY (stringify alice_store)) initial) in
  faceMatcher (final run) = faceMatcher watching /\ dbCount (final run) = Some 1%nat /\
  faceMatcher (final (handle sample_detector alice_matcher (PageLoad true) corrupt_state))
  = None.
Proof.
  pose proof (page_load_restores_the_matcher sample_detector alice_matcher false
                (with_localStorage (insert LS_DB_KEY (stringify alice_store)) initial)) as H.
  pose proof (page_load_restores_the_matcher sample_detector alice_matcher true
                corrupt_state) as H'.
  cbv zeta in H, H'. destruct H as (_ & _ & _ & H & _), H' as (_ & _ & _ & _ & H').
  destruct (H [("Alice", JArr [alice_descriptor])] eq_refl eq_refl) as (_ & Hm & Hc).
  assert (exists s, localStorage corrupt_state !! LS_DB_KEY = Some s /\ parse s = None)
    as Hcorrupt by (exists "{not json"; split; reflexivity).
  destruct (H' (or_intror Hcorrupt)) as (_ & Hnone & _).
  repeat split; assumption.
Defined.

Lemma start_opens_the_camera_or_reports_witness :
  running (final (btnStart_click alice_matcher false true (fun _ => [known_face])
                    (with_camera false false watching))) = true.
Proof.
  apply (start_opens_the_camera_or_reports alice_matcher false (fun _ => [known_face])
           (with_camera false false watching)).
  reflexivity.
Defined.

Lemma start_without_models_only_polls_witness :
  running (final (btnStart_click alice_matcher false true (fun _ => [known_face]) initial))
  = true /\
  isModelsLoaded
    (final (btnStart_click alice_matcher false true (fun _ => [known_face]) initial))
  = false.
Proof.
  pose proof (start_without_models_only_polls alice_matcher (fun _ => [known_face]) initial
                eq_refl) as H.
  cbv zeta in H. destruct H as (_ & Hr & _ & Hl & _).
  split; assumption.
Defined.

(** ** Sequences of entry points *)

Ltac keeps_consistent_side :=
  first
    [ exact I
    | let s := fresh in
      let H1 := fresh in let H2 := fresh in let H3 := fresh in
      intros s (H1 & H2 & H3); unfold consistent in *;
      cbn [running stream modelsStatus isModelsLoaded faceMatcher dbCount
           with_localStorage with_matcher with_detectionOptions
           with_registration_inputs with_face_readout with_identifiedList
           with_models with_camera] in *;
      repeat split;
      first [ assumption | discriminate | reflexivity
            | intros _; reflexivity
            | intros ?; discriminate ] ].

Ltac keeps_consistent :=
  assert (forall st, keeps consistent st st) by (intros ? ?; assumption);
  assert (forall a b c, keeps consistent a b -> keeps consistent b c -> keeps consistent a c)
    by (unfold keeps; auto);
  respect ltac:(idtac; unfold keeps, any_event; keeps_consistent_side).

Section Invariants.

Variable detectSingleFace : File -> DetectorOptions -> option (list number).
Variable findBestMatch : FaceMatcher -> list number -> BestMatch.

Lemma rebuild_keeps_consistent :
  respects any_event (keeps consistent) makeFaceMatcherFromStorage.
Proof.
  intros st. split.
  - apply Forall_forall. intros ? _. exact I.
  - rewrite makeFaceMatcherFromStorage_run.
    destruct (labeled_groups (stored st)) as [groups|e]; [|intros H; exact H].
    unfold final. cbn [fst snd]. intros (H1 & H2 & _).
    unfold consistent. cbn [running stream modelsStatus isModelsLoaded faceMatcher dbCount
                            with_matcher].
    split; [exact H1|]. split; [exact H2|].
    destruct groups as [|g l]; cbn [matcher_over fm_inputs fm_distanceThreshold length].
    + right. reflexivity.
    + repeat split. discriminate.
Qed.

Lemma handle_keeps_consistent (a : action) :
  respects any_event (keeps consistent) (handle detectSingleFace findBestMatch a).
Proof.
  pose proof rebuild_keeps_consistent.
  assert (respects any_event (keeps consistent) loadDB)
    by (unfold loadDB, localStorage_getItem, JSON_parse; keeps_consistent).
  destruct a; cbn [handle].
  - unfold updateDetectionOptions, alert. keeps_consistent.
  - unfold loadModels. keeps_consistent.
  - unfold btnStart_click, loadModels, startVideo, detectionLoop, updateDetectionOptions,
      alert. keeps_consistent.
  - unfold stopVideo. keeps_consistent.
  - unfold updateDetectionOptions. keeps_consistent.
  - unfold registerLabeledFaces, saveDB, localStorage_setItem, alert. keeps_consistent.
  - unfold btnClearDB_click, localStorage_removeItem. keeps_consistent.
  - unfold btnExport_click. keeps_consistent.
  - keeps_consistent.
  - unfold importFileInput_change, JSON_parse, localStorage_setItem, alert.
    keeps_consistent.
  - unfold detectionLoop, updateDetectionOptions. keeps_consistent.
Qed.

(** Whatever the user does, in whatever order, a consistent state stays
    consistent. *)
Theorem session_stays_consistent (actions : list action) (st : state) :
  consistent st -> consistent (session detectSingleFace findBestMatch actions st).
Proof.
  revert st. induction actions as [|a rest IH]; intros st Hst; [exact Hst|].
  cbn [session]. apply IH. exact (proj2 (handle_keeps_consistent a st) Hst).
Qed.

End Invariants.

Lemma session_stays_consistent_witness :
  consistent
    (session sample_detector alice_matcher
       [PageLoad true; StartCamera true true (fun _ => [known_face]); Register;
        Tick (fun _ => [known_face]); StopCamera; ClearDB true]
       (registering " Alice ")).
Proof.
  apply (session_stays_consistent sample_detector alice_matcher).
  unfold consistent. cbn. repeat split; try discriminate. right. reflexivity.
Defined.

Ltac same_store :=
  assert (forall st, same_store st st) by (intros ?; reflexivity);
  assert (forall a b c, same_store a b -> same_store b c -> same_store a c)
    by (unfold same_store; intros ? ? ? ? ?; congruence);
  respect ltac:(idtac; first [reflexivity | intros ?; reflexivity]).

Section SessionFacts.

Variable detectSingleFace : File -> DetectorOptions -> option (list number).
Variable findBestMatch : FaceMatcher -> list number -> BestMatch.

Lemma rebuild_same_store : respects writes_nothing same_store makeFaceMatcherFromStorage.
Proof.
  unfold makeFaceMatcherFromStorage, loadDB, localStorage_getItem, JSON_parse. same_store.
Qed.

(** Only registration, a confirmed clear and the import of a chosen
    file can change what is persisted: every other entry point leaves
    the whole store as it is and issues no write. *)
Theorem other_entry_points_write_nothing (a : action) (st : state) :
  may_write a = false ->
  localStorage (final (handle detectSingleFace findBestMatch a st)) = localStorage st /\
  existsb is_write (trace (handle detectSingleFace findBestMatch a st)) = false.
Proof.
  intros Ha.
  assert (respects writes_nothing same_store (handle detectSingleFace findBestMatch a)) as H.
  { pose proof rebuild_same_store.
    destruct a as [ | | | | | |[]| | |[|f files]| ]; try discriminate; cbn [handle].
    - unfold updateDetectionOptions, alert. same_store.
    - unfold loadModels. same_store.
    - unfold btnStart_click, loadModels, startVideo, detectionLoop, updateDetectionOptions,
        alert. same_store.
    - unfold stopVideo. same_store.
    - unfold updateDetectionOptions. same_store.
    - unfold btnClearDB_click. same_store.
    - unfold btnExport_click, loadDB, localStorage_getItem, JSON_parse. same_store.
    - same_store.
    - unfold importFileInput_change. same_store.
    - unfold detectionLoop, updateDetectionOptions. same_store. }
  destruct (H st) as [HP HR]. split; [exact HR|].
  induction HP as [|e l He Hl IH]; [reflexivity|].
  cbn [existsb]. rewrite He, IH. reflexivity.
Qed.

(** Once the models are loaded they stay loaded. *)
Lemma handle_keeps_loaded (a : action) (st : state) :
  isModelsLoaded st = true ->
  isModelsLoaded (final (handle detectSingleFace findBestMatch a st)) = true.
Proof.
  assert (forall b, respects any_event (keeps loaded) (loadModels b)) as Hload.
  { intros b s. split; [apply Forall_forall; intros ? _; exact I|].
    intros Hs. unfold loaded in *. destruct b.
    - rewrite loadModels_run. cbv zeta.
      destruct (labeled_groups (stored s)); reflexivity.
    - unfold loadModels, bind, read, update, try_catch, emit, final; cbn. exact Hs. }
  assert (forall st, keeps loaded st st) by (intros ? ?; assumption).
  assert (forall a b c, keeps loaded a b -> keeps loaded b c -> keeps loaded a c)
    by (unfold keeps; auto).
  assert (respects any_event (keeps loaded) makeFaceMatcherFromStorage) as Hrebuild.
  { unfold makeFaceMatcherFromStorage, loadDB, localStorage_getItem, JSON_parse.
    respect ltac:(idtac; first [exact I | intros ? ?; assumption]). }
  assert (respects any_event (keeps loaded) (handle detectSingleFace findBestMatch a))
    as Hall.
  { destruct a as [ |available|available ? ?| | | | | | | | ]; cbn [handle];
      try pose proof (Hload available);
      unfold btnStart_click, startVideo, stopVideo, detectionLoop, updateDetectionOptions,
        registerLabeledFaces, saveDB, btnClearDB_click, btnExport_click, loadDB,
        importFileInput_change, JSON_parse, localStorage_getItem, localStorage_setItem,
        localStorage_removeItem, alert;
      respect ltac:(idtac; first [exact I | intros ? ?; assumption]). }
  exact (proj2 (Hall st)).
Qed.

Theorem models_stay_loaded (actions : list action) (st : state) :
  isModelsLoaded st = true ->
  isModelsLoaded (session detectSingleFace findBestMatch actions st) = true.
Proof.
  revert st. induction actions as [|a rest IH]; intros st Hst; [exact Hst|].
  cbn [session]. apply IH, handle_keeps_loaded, Hst.
Qed.

(** Along a sequence of entry points that all complete, a matcher that
    reflects the store keeps reflecting it. *)
Theorem session_keeps_matcher_in_sync (actions : list action) (st : state) :
  in_sync st ->
  completes detectSingleFace findBestMatch actions st ->
  in_sync (session detectSingleFace findBestMatch actions st).
Proof.
  revert st. induction actions as [|a rest IH]; intros st Hsync Hdone; [exact Hsync|].
  cbn [session]. destruct Hdone as [Ha Hrest]. apply IH; [|exact Hrest].
  destruct (existsb is_write (trace (handle detectSingleFace findBestMatch a st))) eqn:Hw.
  - exact (proj2 (write_then_rebuild detectSingleFace findBestMatch a st Hw) Ha).
  - exact (quiet_keeps_sync detectSingleFace findBestMatch a st Hw Hsync).
Qed.

End SessionFacts.

Lemma other_entry_points_write_nothing_witness :
  localStorage (final (handle sample_detector alice_matcher
                         (Tick (fun _ => [known_face])) watching))
  = localStorage watching.
Proof.
  apply (other_entry_points_write_nothing sample_detector alice_matcher
           (Tick (fun _ => [known_face])) watching).
  reflexivity.
Defined.

Lemma models_stay_loaded_witness :
  isModelsLoaded
    (session sample_detector alice_matcher
       [LoadModels false; StartCamera false false (fun _ => []); StopCamera; ClearDB true]
       watching)
  = true.
Proof.
  apply (models_stay_loaded sample_detector alice_matcher). reflexivity.
Defined.

Lemma session_keeps_matcher_in_sync_witness :
  in_sync
    (session sample_detector alice_matcher
       [Tick (fun _ => [known_face]); Export; ClearDB true] watching).
Proof.
  apply (session_keeps_matcher_in_sync sample_detector alice_matcher).
  - reflexivity.
  - cbn [completes]. unfold succeeded.
    repeat split; try reflexivity;
      intros Hin; apply list_elem_of_In in Hin; vm_compute in Hin; intuition discriminate.
Defined.
